(** * Riegeli byte writers and chunk decoder

    A shallow embedding of the limiting writer, the file-descriptor writer,
    the framed-Snappy writer's flush, the protocol-buffer serializer glue and
    the chunk decoder, with the properties the specification states about
    them.

    Conventions.  [Position], [size_t] and [uint64_t] are 64-bit unsigned
    integers: they are modelled as [Z] with the wrap-around of every
    subtraction and addition written out ([wrap64]).  Byte strings are
    [list byte].  Debug-only assertions ([RIEGELI_ASSERT...]) are compiled
    out, as in an optimized build; reaching [RIEGELI_ASSERT_UNREACHABLE] or
    an out-of-bounds vector access is the outcome [Undefined]. *)

From Stdlib Require Import ZArith List String Lia Bool DecimalString.
From Stdlib Require DecimalN.
From stdpp Require Import base list.
Import ListNotations.
Local Open Scope Z_scope.

(** ** Integers, strings and statuses shared by every component *)
Module Base.

Definition byte : Type := Byte.byte.

Definition two64 : Z := 2 ^ 64.

(** Arithmetic of [Position], [size_t] and [uint64_t]. *)
Definition wrap64 (z : Z) : Z := z mod two64.

Definition in_u64 (z : Z) : bool := (0 <=? z) && (z <? two64).

(** [UnsignedMin] and [UnsignedMax] of base.h, on values of one width. *)
Definition UnsignedMin (a b : Z) : Z := Z.min a b.
Definition UnsignedMax (a b : Z) : Z := Z.max a b.

(** [std::numeric_limits<T>::max()] of the signed types the code names. *)
Definition int_max : Z := 2 ^ 31 - 1.
Definition off_t_max : Z := 2 ^ 63 - 1.
Definition ssize_t_max : Z := 2 ^ 63 - 1.

(** [absl::StrCat] of an unsigned integer: its decimal digits. *)
Definition StrCatNum (z : Z) : string :=
  NilZero.string_of_uint (N.to_uint (Z.to_N z)).

Definition size (s : list byte) : Z := Z.of_nat (length s).

(** The outcome of a call that may run into undefined behaviour. *)
Inductive Outcome (A : Type) : Type :=
| Returns (a : A)
| Undefined.
Arguments Returns {A} a.
Arguments Undefined {A}.

Inductive StatusCode : Type :=
| kOk
| kInvalidArgument
| kFailedPrecondition
| kDataLoss
| kResourceExhausted
| kUnimplemented
| kUnknown
| kNotFound
| kPermissionDenied.

Record Status : Type := mkStatus { code : StatusCode; message : string }.

Definition OkStatus : Status := mkStatus kOk "".
Definition InvalidArgumentError (m : string) : Status := mkStatus kInvalidArgument m.
Definition ResourceExhaustedError (m : string) : Status := mkStatus kResourceExhausted m.
Definition DataLossError (m : string) : Status := mkStatus kDataLoss m.

Definition status_ok (s : Status) : bool :=
  match code s with kOk => true | _ => false end.

(** Modelled from the spec: the lifecycle state of object.h, which is not
    among the sources.  An object is open or closed, and healthy or failed
    with a status; a failure latches, so a later failure does not replace
    the status already held. *)
Record Object : Type := mkObject { is_open : bool; failure : option Status }.

Definition kOpen : Object := mkObject true None.

Definition healthy (o : Object) : bool :=
  is_open o && match failure o with None => true | Some _ => false end.

Definition Fail (s : Status) (o : Object) : Object :=
  match failure o with
  | None => mkObject (is_open o) (Some s)
  | Some _ => o
  end.

Definition status (o : Object) : Status :=
  match failure o with None => OkStatus | Some s => s end.

Definition MarkClosed (o : Object) : Object := mkObject false (failure o).

Definition not_failed (o : Object) : bool :=
  match failure o with None => true | Some _ => false end.

End Base.

(** ** The chunk decoder (chunk_decoder.h) *)
Module ChunkDecoder.
Import Base.

(** Modelled from the spec: the values reader, a [ChainReader] (chain_reader.h
    is not among the sources) over the values buffer of the chunk.  [Read]
    takes exactly [length] bytes from the current position, or fails at the
    end of the buffer; [Seek] moves to a position within the buffer, or fails
    leaving the reader at its end.  The buffer is one flat block, so a
    [string_view] read points into it and leaves the scratch string alone;
    the [std::string] and [Chain] reads append to their destination. *)
Record ChainReader : Type := mkReader { src : list byte; pos : Z }.

Definition reader_size (r : ChainReader) : Z := size (src r).

Definition slice (values : list byte) (from to : Z) : list byte :=
  take (Z.to_nat (to - from)) (drop (Z.to_nat from) values).

Definition Read (length : Z) (r : ChainReader) : bool * list byte * ChainReader :=
  if length <=? reader_size r - pos r
  then (true, slice (src r) (pos r) (pos r + length), mkReader (src r) (pos r + length))
  else (false, slice (src r) (pos r) (reader_size r), mkReader (src r) (reader_size r)).

Definition Seek (new_pos : Z) (r : ChainReader) : bool * ChainReader :=
  if new_pos <=? reader_size r
  then (true, mkReader (src r) new_pos)
  else (false, mkReader (src r) (reader_size r)).

(** The three raw destinations of [ReadRecord]. *)
Inductive RawKind : Type := kStringView | kString | kChain.

(** The decoder.  [field_filter_] only matters to message parsing and is the
    parameter [FieldFilter] below. *)
Record ChunkDecoder : Type := mkDecoder {
  object : Object;
  limits_ : list Z;
  values_reader_ : ChainReader;
  index_ : Z;
  record_scratch_ : list byte;
  recoverable_ : bool
}.

Definition index (d : ChunkDecoder) : Z := index_ d.
Definition num_records (d : ChunkDecoder) : Z := Z.of_nat (length (limits_ d)).
Definition dhealthy (d : ChunkDecoder) : bool := healthy (object d).

Definition with_read (d : ChunkDecoder) (i : Z) (r : ChainReader) : ChunkDecoder :=
  mkDecoder (object d) (limits_ d) r i (record_scratch_ d) (recoverable_ d).

(** [ReadRecord] into a [string_view], a [std::string] and a [Chain].
    [record] is what the destination holds before the
    call; the result carries what it holds after.  The [std::string] and
    [Chain] overloads clear the destination and let the reader append. *)
Definition ReadRecord (k : RawKind) (record : list byte) (d : ChunkDecoder)
  : Outcome (bool * list byte * ChunkDecoder) :=
  if (index d =? num_records d) || negb (dhealthy d) then Returns (false, record, d)
  else
    let start := pos (values_reader_ d) in
    match limits_ d !! Z.to_nat (index_ d) with
    | None => Undefined
    | Some limit =>
        let index' := wrap64 (index_ d + 1) in
        match Read (wrap64 (limit - start)) (values_reader_ d) with
        | (true, bytes, r) =>
            let record' :=
              match k with
              | kStringView => bytes
              | kString | kChain => [] ++ bytes
              end in
            Returns (true, record', with_read d index' r)
        | (false, _, _) => Undefined
        end
    end.

(** [SetIndex]. *)
Definition SetIndex (new_index : Z) (d : ChunkDecoder) : Outcome ChunkDecoder :=
  let index' := UnsignedMin new_index (num_records d) in
  let start :=
    if index' =? 0 then Some 0 else limits_ d !! Z.to_nat (index' - 1) in
  match start with
  | None => Undefined
  | Some start =>
      match Seek start (values_reader_ d) with
      | (true, r) => Returns (with_read d index' r)
      | (false, _) => Undefined
      end
  end.

(** [limits] is sorted, and no element is below [prev]. *)
Fixpoint sortedb (prev : Z) (l : list Z) : bool :=
  match l with
  | [] => true
  | x :: l' => (prev <=? x) && sortedb x l'
  end.

(** The operations of chunk_decoder.cc, which is not among the sources. *)
Section Parsing.

(** What the chunk carries once its compression is undone, the decoding
    itself, and the parsing of one record into a message. *)
Variable Chunk : Type.
Variable Message : Type.
Variable FieldFilter : Type.
Variable is_signature_or_padding : Chunk -> bool.
Variable Decode : Chunk -> option (list Z * list byte).
Variable ParseMessage : FieldFilter -> list byte -> option Message.

(** Modelled from the spec: [Reset()], "resets the ChunkDecoder to an empty
    chunk". *)
Definition Reset : ChunkDecoder :=
  mkDecoder kOpen [] (mkReader [] 0) 0 [] false.

(** Modelled from the spec: [Reset(chunk)] resets, refuses the file-signature
    and padding chunk types, decodes the chunk into the offsets table and the
    values buffer, validates them (sorted limits, matching total size; the
    record count and the size are 64-bit values) and sets [index = 0]; a
    failure latches a status and returns false. *)
Definition ResetChunk (chunk : Chunk) : bool * ChunkDecoder :=
  let bad := mkDecoder (Fail (InvalidArgumentError "Invalid chunk") kOpen)
               [] (mkReader [] 0) 0 [] false in
  if is_signature_or_padding chunk then (false, bad)
  else
    match Decode chunk with
    | None => (false, bad)
    | Some (limits, values) =>
        if sortedb 0 limits && in_u64 (size values)
           && in_u64 (Z.of_nat (length limits))
           && (List.last limits 0 =? size values)
        then (true, mkDecoder kOpen limits (mkReader values 0) 0 [] false)
        else (false, bad)
    end.

(** Modelled from the spec: [ReadRecord] into a message positions like the raw
    reads, then parses the slice under the field filter; on a parse failure
    it latches a data-loss status naming the record index and sets
    [recoverable]. *)
Definition ReadRecordMessage (filter : FieldFilter) (record : option Message)
    (d : ChunkDecoder) : Outcome (bool * option Message * ChunkDecoder) :=
  match ReadRecord kStringView [] d with
  | Undefined => Undefined
  | Returns (false, _, d') => Returns (false, record, d')
  | Returns (true, bytes, d') =>
      match ParseMessage filter bytes with
      | Some m => Returns (true, Some m, d')
      | None =>
          let st := DataLossError
                      (String.append "Failed to parse message at record " (StrCatNum (index_ d))) in
          Returns (false, record,
                   mkDecoder (Fail st (object d')) (limits_ d') (values_reader_ d')
                     (index_ d') (record_scratch_ d') true)
      end
  end.

(** Modelled from the spec: [Recover()] clears a recoverable failure. *)
Definition Recover (d : ChunkDecoder) : bool * ChunkDecoder :=
  if recoverable_ d
  then (true, mkDecoder (mkObject (is_open (object d)) None) (limits_ d)
                (values_reader_ d) (index_ d) (record_scratch_ d) false)
  else (false, d).

(** The transitions of a decoder, and one step of each. *)
Inductive Op : Type :=
| OpReset
| OpResetChunk (chunk : Chunk)
| OpReadRecord (k : RawKind) (record : list byte)
| OpReadRecordMessage (filter : FieldFilter) (record : option Message)
| OpRecover
| OpSetIndex (new_index : Z).

Definition step (op : Op) (d : ChunkDecoder) : Outcome ChunkDecoder :=
  match op with
  | OpReset => Returns Reset
  | OpResetChunk chunk => Returns (snd (ResetChunk chunk))
  | OpReadRecord k record =>
      match ReadRecord k record d with
      | Returns (_, _, d') => Returns d'
      | Undefined => Undefined
      end
  | OpReadRecordMessage filter record =>
      match ReadRecordMessage filter record d with
      | Returns (_, _, d') => Returns d'
      | Undefined => Undefined
      end
  | OpRecover => Returns (snd (Recover d))
  | OpSetIndex new_index => SetIndex new_index d
  end.

(** The arguments of a call have the types the signature gives them:
    [SetIndex] takes a [uint64_t]. *)
Definition op_typed (op : Op) : bool :=
  match op with
  | OpSetIndex new_index => in_u64 new_index
  | _ => true
  end.

End Parsing.

Arguments ResetChunk {Chunk} is_signature_or_padding Decode chunk.
Arguments ReadRecordMessage {Message FieldFilter} ParseMessage filter record d.
Arguments OpReset {Chunk Message FieldFilter}.
Arguments OpResetChunk {Chunk Message FieldFilter} chunk.
Arguments OpReadRecord {Chunk Message FieldFilter} k record.
Arguments OpReadRecordMessage {Chunk Message FieldFilter} filter record.
Arguments OpRecover {Chunk Message FieldFilter}.
Arguments OpSetIndex {Chunk Message FieldFilter} new_index.
Arguments step {Chunk Message FieldFilter} is_signature_or_padding Decode ParseMessage op d.
Arguments op_typed {Chunk Message FieldFilter} op.

(** The invariants the header states, as a check that can be run.
    [limits_] holds [size_t] values, and its length and the size of the
    values buffer are [size_t] values too. *)
Definition limit_before (d : ChunkDecoder) (i : Z) : option Z :=
  if i =? 0 then Some 0 else limits_ d !! Z.to_nat (i - 1).

Definition eqb_option (a : option Z) (b : Z) : bool :=
  match a with Some x => x =? b | None => false end.

Definition invariant (d : ChunkDecoder) : bool :=
  sortedb 0 (limits_ d)
  && in_u64 (reader_size (values_reader_ d))
  && in_u64 (num_records d)
  && match limits_ d with
     | [] => true
     | _ => List.last (limits_ d) 0 =? reader_size (values_reader_ d)
     end
  && eqb_option (limit_before d (index_ d)) (pos (values_reader_ d))
  && (0 <=? index_ d) && (index_ d <=? num_records d)
  && implb (recoverable_ d) (negb (dhealthy d)).

(** The same invariants, as propositions. *)
Record Inv (d : ChunkDecoder) : Prop := mkInv {
  inv_sorted : sortedb 0 (limits_ d) = true;
  inv_size : 0 <= reader_size (values_reader_ d) < two64;
  inv_count : 0 <= num_records d < two64;
  inv_back : limits_ d <> [] -> List.last (limits_ d) 0 = reader_size (values_reader_ d);
  inv_pos : limit_before d (index_ d) = Some (pos (values_reader_ d));
  inv_index : 0 <= index_ d <= num_records d;
  inv_recoverable : recoverable_ d = true -> dhealthy d = false
}.

(** The bytes of record [i]: [values[limits[i-1] .. limits[i]]], from 0 for
    the first record. *)
Definition record_bytes (limits : list Z) (values : list byte) (i : nat) : list byte :=
  slice values (match i with O => 0 | S j => nth j limits 0 end) (nth i limits 0).

Definition records (limits : list Z) (values : list byte) : list (list byte) :=
  map (record_bytes limits values) (seq 0 (length limits)).

(** [n] consecutive calls of a raw [ReadRecord] on one destination: what
    each call returned and left in the destination, and the decoder after
    the last. *)
Fixpoint ReadCalls (k : RawKind) (n : nat) (record : list byte) (d : ChunkDecoder)
  : Outcome (list (bool * list byte) * ChunkDecoder) :=
  match n with
  | O => Returns ([], d)
  | S n' =>
      match ReadRecord k record d with
      | Undefined => Undefined
      | Returns (ok, record', d') =>
          match ReadCalls k n' record' d' with
          | Undefined => Undefined
          | Returns (log, d'') => Returns ((ok, record') :: log, d'')
          end
      end
  end.

End ChunkDecoder.

(** ** The writer window (writer.h) *)
Module Writer.
Import Base.

(** Modelled from the spec: the cursor window of writer.h, which is not among
    the sources.  A writer holds [start <= cursor <= limit] and the stream
    position [start_pos] of [start]; a pointer into the window is kept as its
    64-bit distance from [start], so [start_to_cursor = cursor - start] and
    [start_to_limit = limit - start], and [pos = start_pos + start_to_cursor].
    The base class is an [Object]. *)
Record Writer : Type := mkWriter {
  object : Object;
  start_pos : Z;
  start_to_cursor : Z;
  start_to_limit : Z
}.

Definition pos (w : Writer) : Z := wrap64 (start_pos w + start_to_cursor w).

Definition available (w : Writer) : Z := wrap64 (start_to_limit w - start_to_cursor w).

Definition whealthy (w : Writer) : bool := healthy (object w).

(** [set_cursor(start + c)]. *)
Definition set_cursor (c : Z) (w : Writer) : Writer :=
  mkWriter (object w) (start_pos w) c (start_to_limit w).

(** [move_cursor(n)]: the producer has written [n] bytes into the window. *)
Definition move_cursor (n : Z) (w : Writer) : Writer :=
  set_cursor (wrap64 (start_to_cursor w + n)) w.

Definition FailWithoutAnnotation (s : Status) (w : Writer) : Writer :=
  mkWriter (Fail s (object w)) (start_pos w) (start_to_cursor w) (start_to_limit w).

(** Modelled from the spec: [Writer::Done()] gives up the window, keeping the
    position. *)
Definition Done (w : Writer) : Writer :=
  mkWriter (object w) (pos w) 0 0.

(** The window and the position are 64-bit values, the cursor is inside the
    window, and the position of the limit does not overflow. *)
Definition well_formed (w : Writer) : bool :=
  (0 <=? start_pos w) && (0 <=? start_to_cursor w)
  && (start_to_cursor w <=? start_to_limit w)
  && (start_pos w + start_to_limit w <? two64).

End Writer.

(** ** The limiting writer (limiting_writer.cc) *)
Module LimitingWriter.
Import Base Writer.

(** The inner writer [*dest_writer()]: a [Writer] whose virtual methods act on
    the window and on the sink behind it. *)
Record Dest (Sink : Type) : Type := mkDest { dw : Writer; sink : Sink }.
Arguments mkDest {Sink} dw sink.
Arguments dw {Sink} d.
Arguments sink {Sink} d.

(** The [Dependency] [dest_]: the virtual methods of [Writer] that the
    limiting writer calls on the inner writer, and whether the inner writer is
    owned ([dest_.is_owning()]).  [AnnotateStatus] adds the inner writer's
    context to a status; it is modelled as a function of the status and of
    the inner writer's state, so an inner writer that changes its own state
    while annotating (a wrapping writer that synchronizes its buffer) is
    outside the model.
    [dest_Close] is the inner writer's [Close()], called only on an inner
    writer that is owned. *)
Record Methods (Sink Reader : Type) : Type := mkMethods {
  Push : Z -> Z -> Dest Sink -> bool * Dest Sink;
  Write : list byte -> Dest Sink -> bool * Dest Sink;
  WriteZeros : Z -> Dest Sink -> bool * Dest Sink;
  Seek : Z -> Dest Sink -> bool * Dest Sink;
  Size : Dest Sink -> option Z * Dest Sink;
  Truncate : Z -> Dest Sink -> bool * Dest Sink;
  ReadMode : Z -> Dest Sink -> option Reader * Dest Sink;
  AnnotateStatus : Status -> Dest Sink -> Status;
  dest_Close : Dest Sink -> bool * Dest Sink;
  dest_is_owning : bool
}.
Arguments Push {Sink Reader} m _ _ _.
Arguments Write {Sink Reader} m _ _.
Arguments WriteZeros {Sink Reader} m _ _.
Arguments Seek {Sink Reader} m _ _.
Arguments Size {Sink Reader} m _.
Arguments Truncate {Sink Reader} m _ _.
Arguments ReadMode {Sink Reader} m _ _.
Arguments AnnotateStatus {Sink Reader} m _ _.
Arguments dest_Close {Sink Reader} m _.
Arguments dest_is_owning {Sink Reader} m.

Record LimitingWriter : Type := mkLimiting {
  base : Writer;
  max_pos_ : Z;
  exact_ : bool
}.

Definition with_base (b : Writer) (l : LimitingWriter) : LimitingWriter :=
  mkLimiting b (max_pos_ l) (exact_ l).

Definition lpos (l : LimitingWriter) : Z := pos (base l).
Definition lhealthy (l : LimitingWriter) : bool := whealthy (base l).

Section WithDest.

Context {Sink Reader : Type}.
Variable dest_ : Methods Sink Reader.

Definition dest_set_cursor (c : Z) (d : Dest Sink) : Dest Sink :=
  mkDest (set_cursor c (dw d)) (sink d).

(** Modelled from the spec: [SyncBuffer] and [MakeBuffer] of
    limiting_writer.h, which is not among the sources.  Sync-buffer publishes
    the window to the inner writer, advancing the inner cursor to this
    writer's cursor.  Make-buffer re-acquires the window from the inner
    writer: position, cursor and limit, the exposed limit narrowed so that
    [limit - start] is at most [max_pos - start_pos]; a failure of the inner
    writer becomes this writer's failure. *)
Definition SyncBuffer (l : LimitingWriter) (d : Dest Sink)
  : bool * LimitingWriter * Dest Sink :=
  (true, l, dest_set_cursor (start_to_cursor (base l)) d).

Definition MakeBuffer (l : LimitingWriter) (d : Dest Sink) : LimitingWriter :=
  let room := wrap64 (max_pos_ l - start_pos (dw d)) in
  let b := mkWriter (object (base l)) (start_pos (dw d)) (start_to_cursor (dw d))
             (UnsignedMin (start_to_limit (dw d)) room) in
  with_base (if whealthy (dw d) then b else FailWithoutAnnotation (status (object (dw d))) b) l.

(** [FailLimitExceeded(dest)]: the inner cursor is set to
    [cursor() - IntCast<size_t>(pos() - max_pos_)], in 64-bit arithmetic.
    The two windows start at the same address (make-buffer took this writer's
    window from the inner writer), so the distance from [start] is the same
    for both. *)
Definition FailLimitExceeded (l : LimitingWriter) (d : Dest Sink)
  : bool * LimitingWriter * Dest Sink :=
  let d' := dest_set_cursor
              (wrap64 (start_to_cursor (base l) - wrap64 (lpos l - max_pos_ l))) d in
  let st := AnnotateStatus dest_ (ResourceExhaustedError "Position limit exceeded") d' in
  (false, with_base (FailWithoutAnnotation st (base l)) l, d').

Definition PushSlow (min_length recommended_length : Z) (l : LimitingWriter)
    (d : Dest Sink) : bool * LimitingWriter * Dest Sink :=
  if negb (lhealthy l) then (false, l, d)
  else
    match SyncBuffer l d with
    | (false, l1, d1) => (false, l1, d1)
    | (true, l1, d1) =>
        let (ok, d2) := Push dest_ min_length recommended_length d1 in
        (ok, MakeBuffer l1 d2, d2)
    end.

(** [WriteInternal], behind every [WriteSlow] overload. *)
Definition WriteInternal (src : list byte) (l : LimitingWriter) (d : Dest Sink)
  : bool * LimitingWriter * Dest Sink :=
  if negb (lhealthy l) then (false, l, d)
  else
    match SyncBuffer l d with
    | (false, l1, d1) => (false, l1, d1)
    | (true, l1, d1) =>
        if size src >? wrap64 (max_pos_ l1 - lpos l1) then FailLimitExceeded l1 d1
        else
          let (ok, d2) := Write dest_ src d1 in
          (ok, MakeBuffer l1 d2, d2)
    end.

Definition WriteSlow := WriteInternal.

Definition WriteZerosSlow (length : Z) (l : LimitingWriter) (d : Dest Sink)
  : bool * LimitingWriter * Dest Sink :=
  if negb (lhealthy l) then (false, l, d)
  else
    match SyncBuffer l d with
    | (false, l1, d1) => (false, l1, d1)
    | (true, l1, d1) =>
        if length >? wrap64 (max_pos_ l1 - lpos l1) then FailLimitExceeded l1 d1
        else
          let (ok, d2) := WriteZeros dest_ length d1 in
          (ok, MakeBuffer l1 d2, d2)
    end.

Definition SeekSlow (new_pos : Z) (l : LimitingWriter) (d : Dest Sink)
  : bool * LimitingWriter * Dest Sink :=
  if negb (lhealthy l) then (false, l, d)
  else
    match SyncBuffer l d with
    | (false, l1, d1) => (false, l1, d1)
    | (true, l1, d1) =>
        let pos_to_seek := UnsignedMin new_pos (max_pos_ l1) in
        let (ok, d2) := Seek dest_ pos_to_seek d1 in
        (ok && (pos_to_seek =? new_pos), MakeBuffer l1 d2, d2)
    end.

Definition SizeImpl (l : LimitingWriter) (d : Dest Sink)
  : option Z * LimitingWriter * Dest Sink :=
  if negb (lhealthy l) then (None, l, d)
  else
    match SyncBuffer l d with
    | (false, l1, d1) => (None, l1, d1)
    | (true, l1, d1) =>
        let (size, d2) := Size dest_ d1 in
        let l2 := MakeBuffer l1 d2 in
        match size with
        | None => (None, l2, d2)
        | Some size => (Some (UnsignedMin size (max_pos_ l2)), l2, d2)
        end
    end.

Definition TruncateImpl (new_size : Z) (l : LimitingWriter) (d : Dest Sink)
  : bool * LimitingWriter * Dest Sink :=
  if negb (lhealthy l) then (false, l, d)
  else
    match SyncBuffer l d with
    | (false, l1, d1) => (false, l1, d1)
    | (true, l1, d1) =>
        let (ok, d2) := Truncate dest_ new_size d1 in
        (ok, MakeBuffer l1 d2, d2)
    end.

Definition ReadModeImpl (initial_pos : Z) (l : LimitingWriter) (d : Dest Sink)
  : option Reader * LimitingWriter * Dest Sink :=
  if negb (lhealthy l) then (None, l, d)
  else
    match SyncBuffer l d with
    | (false, l1, d1) => (None, l1, d1)
    | (true, l1, d1) =>
        let (reader, d2) := ReadMode dest_ initial_pos d1 in
        (reader, MakeBuffer l1 d2, d2)
    end.

(** [LimitingWriterBase::Done()]. *)
Definition Done (l : LimitingWriter) (d : Dest Sink) : LimitingWriter * Dest Sink :=
  let '(l1, d1) :=
    if lhealthy l then let '(_, l1, d1) := SyncBuffer l d in (l1, d1) else (l, d) in
  let l2 :=
    if exact_ l1 && (lpos l1 <? max_pos_ l1)
    then
      let st := AnnotateStatus dest_
                  (InvalidArgumentError
                     (String.append "Not enough data: expected " (StrCatNum (max_pos_ l1))))
                  d1 in
      with_base (FailWithoutAnnotation st (base l1)) l1
    else l1 in
  (with_base (Writer.Done (base l2)) l2, d1).

(** Modelled from the spec: [LimitingWriter<Dest>::Done()] of
    limiting_writer.h, which is not among the sources: "if the writer owns its
    inner, cascade Close; otherwise leave the inner intact".  After
    [LimitingWriterBase::Done()] an inner writer that is owned is closed, and a
    failure of its [Close()] becomes this writer's failure, with the inner
    writer's status and no annotation added, as
    [FramedSnappyWriter<Dest>::Done()] does for its destination. *)
Definition DoneDest (l : LimitingWriter) (d : Dest Sink) : LimitingWriter * Dest Sink :=
  let '(l1, d1) := Done l d in
  if dest_is_owning dest_ then
    let (ok, d2) := dest_Close dest_ d1 in
    if negb ok
    then (with_base (FailWithoutAnnotation (status (object (dw d2))) (base l1)) l1, d2)
    else (l1, d2)
  else (l1, d1).

(** Modelled from the spec: [Close()] of object.h.  The first call runs
    [Done()] and marks the object closed; the result tells whether the
    object has not failed.  A later call changes nothing. *)
Definition Close (l : LimitingWriter) (d : Dest Sink) : bool * LimitingWriter * Dest Sink :=
  if negb (is_open (object (base l))) then (not_failed (object (base l)), l, d)
  else
    let '(l1, d1) := DoneDest l d in
    let b := base l1 in
    let b' := mkWriter (MarkClosed (object b)) (start_pos b) (start_to_cursor b)
                (start_to_limit b) in
    (not_failed (object b), with_base b' l1, d1).

(** The calls a producer can make, and a sequence of them: the methods
    limiting_writer.cc defines, [Close()], and [CallFill n], the producer
    writing [n] bytes into the window it was given, which needs
    [n <= available()]; one that asks for more is not a call a producer can
    make, and changes nothing. *)
Inductive Call : Type :=
| CallFill (n : Z)
| CallPush (min_length recommended_length : Z)
| CallWrite (src : list byte)
| CallWriteZeros (length : Z)
| CallSeek (new_pos : Z)
| CallSize
| CallTruncate (new_size : Z)
| CallReadMode (initial_pos : Z)
| CallClose.

Definition call (c : Call) (l : LimitingWriter) (d : Dest Sink)
  : LimitingWriter * Dest Sink :=
  match c with
  | CallFill n =>
      if (0 <=? n) && (n <=? available (base l))
      then (with_base (move_cursor n (base l)) l, d) else (l, d)
  | CallPush m r => let '(_, l', d') := PushSlow m r l d in (l', d')
  | CallWrite src => let '(_, l', d') := WriteInternal src l d in (l', d')
  | CallWriteZeros n => let '(_, l', d') := WriteZerosSlow n l d in (l', d')
  | CallSeek p => let '(_, l', d') := SeekSlow p l d in (l', d')
  | CallSize => let '(_, l', d') := SizeImpl l d in (l', d')
  | CallTruncate n => let '(_, l', d') := TruncateImpl n l d in (l', d')
  | CallReadMode p => let '(_, l', d') := ReadModeImpl p l d in (l', d')
  | CallClose => let '(_, l', d') := Close l d in (l', d')
  end.

Fixpoint calls (cs : list Call) (l : LimitingWriter) (d : Dest Sink)
  : LimitingWriter * Dest Sink :=
  match cs with
  | [] => (l, d)
  | c :: cs' => let '(l', d') := call c l d in calls cs' l' d'
  end.

(** What the limiting writer relies on in an inner writer: an invariant [inv]
    of the inner writer that keeps its window well formed and allows the
    cursor to be set anywhere in the window, and methods that keep [inv] and
    move the position no further than their contract says. *)
Record Laws (inv : Dest Sink -> Prop) : Prop := mkLaws {
  law_wf : forall d, inv d -> well_formed (dw d) = true;
  law_set_cursor : forall d c,
    inv d -> 0 <= c <= start_to_limit (dw d) -> inv (dest_set_cursor c d);
  law_Push : forall m r d, inv d ->
    inv (snd (Push dest_ m r d)) /\ pos (dw (snd (Push dest_ m r d))) = pos (dw d);
  law_Write : forall src d, inv d ->
    inv (snd (Write dest_ src d))
    /\ pos (dw (snd (Write dest_ src d))) <= pos (dw d) + size src;
  law_WriteZeros : forall n d, inv d ->
    inv (snd (WriteZeros dest_ n d))
    /\ pos (dw (snd (WriteZeros dest_ n d))) <= pos (dw d) + Z.max 0 n;
  law_Seek : forall p d, inv d -> 0 <= p ->
    inv (snd (Seek dest_ p d))
    /\ pos (dw (snd (Seek dest_ p d))) <= Z.max p (pos (dw d));
  law_Size : forall d, inv d ->
    inv (snd (Size dest_ d)) /\ pos (dw (snd (Size dest_ d))) = pos (dw d);
  law_Truncate : forall n d, inv d -> 0 <= n ->
    inv (snd (Truncate dest_ n d))
    /\ pos (dw (snd (Truncate dest_ n d))) <= Z.max n (pos (dw d));
  law_ReadMode : forall p d, inv d ->
    inv (snd (ReadMode dest_ p d))
    /\ pos (dw (snd (ReadMode dest_ p d))) = pos (dw d)
}.

(** The state of a limiting writer and its inner writer between calls. *)
Record Limited (inv : Dest Sink -> Prop) (l : LimitingWriter) (d : Dest Sink)
  : Prop := mkLimited {
  lim_max : 0 <= max_pos_ l < two64;
  lim_window : well_formed (base l) = true;
  lim_room : start_pos (base l) + start_to_limit (base l) <= max_pos_ l;
  lim_shared : lhealthy l = true ->
    inv d /\ start_pos (base l) = start_pos (dw d)
    /\ start_to_limit (base l) <= start_to_limit (dw d)
}.

End WithDest.

Arguments law_wf {Sink Reader dest_ inv} _.
Arguments law_set_cursor {Sink Reader dest_ inv} _.
Arguments law_Push {Sink Reader dest_ inv} _.
Arguments law_Write {Sink Reader dest_ inv} _.
Arguments law_WriteZeros {Sink Reader dest_ inv} _.
Arguments law_Seek {Sink Reader dest_ inv} _.
Arguments law_Size {Sink Reader dest_ inv} _.
Arguments law_Truncate {Sink Reader dest_ inv} _.
Arguments law_ReadMode {Sink Reader dest_ inv} _.

(** The calls of a sequence have arguments of their unsigned types, and no
    [Truncate] is given a size beyond [max_pos]. *)
Definition call_within (max_pos : Z) (c : Call) : bool :=
  match c with
  | CallSeek new_pos => 0 <=? new_pos
  | CallTruncate new_size => (0 <=? new_size) && (new_size <=? max_pos)
  | _ => true
  end.

(** Modelled from the spec: the constructor of limiting_writer.h wraps an
    inner writer and an absolute [max_pos >= start_pos]; the window is
    acquired from the inner writer. *)
Definition Initialize {Sink : Type} (max_pos : Z) (exact : bool) (d : Dest Sink)
  : LimitingWriter :=
  MakeBuffer (mkLimiting (mkWriter kOpen 0 0 0) max_pos exact) d.

End LimitingWriter.

(** ** A concrete inner writer *)
Module SizedSink.
Import Base Writer LimitingWriter.

(** An inner writer to run the limiting writer on: an unbuffered sink that
    knows its size.  [Seek] and [Truncate] behave as [FdWriterBase::SeekSlow]
    and [FdWriterBase::Truncate] do when no system call fails: a target past
    the end leaves the position at the end and returns false without failing
    the writer, and a successful [Truncate(new_size)] leaves the position at
    [new_size].  [Push] hands out a window of the requested length. *)
Record Sink : Type := mkSink { file_size : Z }.

Definition D : Type := Dest Sink.

(** The bytes in the window reach the sink. *)
Definition commit (d : D) : D :=
  mkDest (mkWriter (object (dw d)) (pos (dw d)) 0 0)
    (mkSink (Z.max (file_size (sink d)) (pos (dw d)))).

Definition fail (s : Status) (d : D) : D :=
  mkDest (FailWithoutAnnotation s (dw d)) (sink d).

Definition append (n : Z) (d : D) : bool * D :=
  if negb (whealthy (dw d)) then (false, d)
  else
    let d1 := commit d in
    let new_pos := start_pos (dw d1) + n in
    if (n <? 0) || (two64 <=? new_pos)
    then (false, fail (ResourceExhaustedError "Writer position overflow") d1)
    else (true, mkDest (mkWriter (object (dw d1)) new_pos 0 0)
                  (mkSink (Z.max (file_size (sink d1)) new_pos))).

Definition sPush (min_length recommended_length : Z) (d : D) : bool * D :=
  if negb (whealthy (dw d)) then (false, d)
  else
    let d1 := commit d in
    let len := Z.max min_length recommended_length in
    if (len <? 0) || (two64 <=? start_pos (dw d1) + len)
    then (false, fail (ResourceExhaustedError "Writer position overflow") d1)
    else (true, mkDest (mkWriter (object (dw d1)) (start_pos (dw d1)) 0 len) (sink d1)).

Definition sWrite (src : list byte) (d : D) : bool * D := append (size src) d.

Definition sWriteZeros (length : Z) (d : D) : bool * D := append length d.

Definition seek_to (p : Z) (d : D) : D :=
  mkDest (mkWriter (object (dw d)) p 0 0) (sink d).

Definition sSeek (new_pos : Z) (d : D) : bool * D :=
  if negb (whealthy (dw d)) then (false, d)
  else
    let d1 := commit d in
    if (0 <=? new_pos) && (new_pos <=? file_size (sink d1))
    then (true, seek_to new_pos d1)
    else (false, seek_to (file_size (sink d1)) d1).

Definition sSize (d : D) : option Z * D :=
  if negb (whealthy (dw d)) then (None, d)
  else (Some (UnsignedMax (file_size (sink d)) (pos (dw d))), d).

Definition sTruncate (new_size : Z) (d : D) : bool * D :=
  if negb (whealthy (dw d)) then (false, d)
  else
    let d1 := commit d in
    if (0 <=? new_size) && (new_size <=? file_size (sink d1))
    then (true, mkDest (mkWriter (object (dw d1)) new_size 0 0) (mkSink new_size))
    else (false, seek_to (file_size (sink d1)) d1).

(** The sink has no read mode: the call fails the writer. *)
Definition sReadMode (initial_pos : Z) (d : D) : option unit * D :=
  if negb (whealthy (dw d)) then (None, d)
  else (None, fail (mkStatus kUnimplemented "Writer::ReadMode() not supported") d).

(** [Close()] of the sink: the bytes in the window reach the sink and the
    writer is marked closed; the result tells whether it has not failed. *)
Definition sClose (d : D) : bool * D :=
  if negb (is_open (object (dw d))) then (not_failed (object (dw d)), d)
  else
    let d1 := if whealthy (dw d) then commit d else d in
    (not_failed (object (dw d1)),
     mkDest (mkWriter (MarkClosed (object (dw d1))) (pos (dw d1)) 0 0) (sink d1)).

(** The sink held by a pointer, so not owned. *)
Definition methods : Methods Sink unit :=
  mkMethods Sink unit sPush sWrite sWriteZeros sSeek sSize sTruncate sReadMode
    (fun s _ => s) sClose false.

(** An open sink of [n] bytes, positioned at [p]. *)
Definition sink_of (n p : Z) : D := mkDest (mkWriter kOpen p 0 0) (mkSink n).

Definition sink_ok (d : D) : Prop :=
  well_formed (dw d) = true /\ 0 <= file_size (sink d) < two64.

End SizedSink.

(** ** System calls *)
Module Posix.
Import Base.

(** What the kernel answers to one call: the return value, [errno], and for
    [fstat] the [st_size] it stores. *)
Record Reply : Type := mkReply { result : Z; errno : Z; st_size : Z }.

Inductive Whence : Type := SEEK_SET | SEEK_CUR | SEEK_END.

Inductive Syscall : Type :=
| sys_write (fd : Z) (buf : list byte) (count : Z)
| sys_pwrite (fd : Z) (buf : list byte) (count : Z) (offset : Z)
| sys_lseek (fd : Z) (offset : Z) (whence : Whence)
| sys_fstat (fd : Z)
| sys_fsync (fd : Z)
| sys_ftruncate (fd : Z) (length : Z).

Definition EINTR : Z := 4.
Definition ESPIPE : Z := 29.

(** The world outside the process: the answers the kernel is going to give,
    in order, and the calls made so far with what they returned.  A call
    made when no answer is left has not returned. *)
Record World : Type := mkWorld {
  pending : list Reply;
  trace : list (Syscall * Z)
}.

(** What a call returns for an answer: -1 on an error, and a [write] or
    [pwrite] transfers at most [count] bytes. *)
Definition returned (c : Syscall) (r : Reply) : Z :=
  if result r <? 0 then -1
  else
    match c with
    | sys_write _ _ count | sys_pwrite _ _ count _ => Z.min (result r) count
    | _ => result r
    end.

Definition syscall (c : Syscall) (os : World) : option (Z * Reply * World) :=
  match pending os with
  | [] => None
  | r :: rest => Some (returned c r, r, mkWorld rest (trace os ++ [(c, returned c r)]))
  end.

(** An answer that reports an interrupted call. *)
Definition interrupted (r : Reply) : Prop := result r < 0 /\ errno r = EINTR.

(** The bytes a call handed to the kernel. *)
Definition delivered_by (e : Syscall * Z) : list byte :=
  match e with
  | (sys_write _ buf _, n) | (sys_pwrite _ buf _ _, n) =>
      if n <? 0 then [] else take (Z.to_nat n) buf
  | _ => []
  end.

Definition delivered (t : list (Syscall * Z)) : list byte :=
  concat (map delivered_by t).

End Posix.

(** ** The file descriptor writer (fd_writer.cc) *)
Module FdWriter.
Import Base Posix.

(** [FdWriterBase] with its bases [FdWriterCommon] and [BufferedWriter].
    [buffer] holds the bytes written to the buffer and not yet to the file,
    so [written_to_buffer()] is its size. *)
Record FdWriter : Type := mkFd {
  object : Object;
  start_pos : Z;
  buffer : list byte;
  dest_fd : Z;
  filename_ : string;
  supports_random_access_ : bool;
  has_independent_pos_ : bool
}.

Definition written_to_buffer (w : FdWriter) : Z := size (buffer w).
Definition pos (w : FdWriter) : Z := wrap64 (start_pos w + written_to_buffer w).
Definition fhealthy (w : FdWriter) : bool := healthy (object w).

Definition with_object (o : Object) (w : FdWriter) : FdWriter :=
  mkFd o (start_pos w) (buffer w) (dest_fd w) (filename_ w)
    (supports_random_access_ w) (has_independent_pos_ w).

Definition set_start_pos (p : Z) (w : FdWriter) : FdWriter :=
  mkFd (object w) p (buffer w) (dest_fd w) (filename_ w)
    (supports_random_access_ w) (has_independent_pos_ w).

Definition move_start_pos (n : Z) (w : FdWriter) : FdWriter :=
  set_start_pos (wrap64 (start_pos w + n)) w.

Definition clear_buffer (w : FdWriter) : FdWriter :=
  mkFd (object w) (start_pos w) [] (dest_fd w) (filename_ w)
    (supports_random_access_ w) (has_independent_pos_ w).

Section WithStatus.

(** [ErrnoToCanonicalStatus] of errno_mapping.h and [Annotate] of status.h
    are not among the sources. *)
Variable ErrnoToCanonicalStatus : Z -> string -> Status.
Variable Annotate : Status -> string -> Status.

(** [FdWriterCommon::Fail]. *)
Definition Fail (st : Status) (w : FdWriter) : bool * FdWriter :=
  (false,
   with_object (Base.Fail (Annotate st (String.append "writing " (filename_ w))) (object w)) w).

(** [FdWriterCommon::FailOperation], for the value [errno] holds. *)
Definition FailOperation (operation : string) (error_number : Z) (w : FdWriter)
  : bool * FdWriter :=
  Fail (ErrnoToCanonicalStatus error_number (String.append operation " failed")) w.

(** Modelled from the spec: [Writer::FailOverflow()], a resource-exhausted
    failure. *)
Definition FailOverflow (w : FdWriter) : bool * FdWriter :=
  Fail (ResourceExhaustedError "Writer position overflow") w.

Definition write_call (src : list byte) (w : FdWriter) : Syscall :=
  let count := UnsignedMin (size src) ssize_t_max in
  if has_independent_pos_ w
  then sys_pwrite (dest_fd w) src count (start_pos w)
  else sys_write (dest_fd w) src count.

(** The [do ... while] loop of [WriteInternal], one answer of the kernel per
    iteration. *)
Fixpoint WriteLoop (replies : list Reply) (tr : list (Syscall * Z)) (src : list byte)
    (w : FdWriter) : option (bool * FdWriter * World) :=
  match replies with
  | [] => None
  | r :: rest =>
      let c := write_call src w in
      let length_written := returned c r in
      let tr' := tr ++ [(c, length_written)] in
      if length_written <? 0 then
        if errno r =? EINTR then WriteLoop rest tr' src w
        else
          Some (FailOperation (if has_independent_pos_ w then "pwrite()" else "write()")
                  (errno r) w,
                mkWorld rest tr')
      else
        let w' := move_start_pos length_written w in
        match drop (Z.to_nat length_written) src with
        | [] => Some (true, w', mkWorld rest tr')
        | src' => WriteLoop rest tr' src' w'
        end
  end.

Definition WriteInternal (src : list byte) (w : FdWriter) (os : World)
  : option (bool * FdWriter * World) :=
  if size src >? wrap64 (off_t_max - start_pos w) then Some (FailOverflow w, os)
  else WriteLoop (pending os) (trace os) src w.

(** Modelled from the spec: [BufferedWriter::PushInternal()] hands the
    buffered bytes, if any, to [WriteInternal] and empties the buffer. *)
Definition PushInternal (w : FdWriter) (os : World) : option (bool * FdWriter * World) :=
  if negb (fhealthy w) then Some (false, w, os)
  else
    match buffer w with
    | [] => Some (true, w, os)
    | data => WriteInternal data (clear_buffer w) os
    end.

Definition SyncPos (w : FdWriter) (os : World) : option (bool * FdWriter * World) :=
  if negb (has_independent_pos_ w) then
    match syscall (sys_lseek (dest_fd w) (start_pos w) SEEK_SET) os with
    | None => None
    | Some (ret, r, os') =>
        if ret <? 0 then Some (FailOperation "lseek()" (errno r) w, os')
        else Some (true, w, os')
    end
  else Some (true, w, os).

Definition SeekSlow (new_pos : Z) (w : FdWriter) (os : World)
  : option (bool * FdWriter * World) :=
  match PushInternal w os with
  | None => None
  | Some (false, w1, os1) => Some (false, w1, os1)
  | Some (true, w1, os1) =>
      let finish (w2 : FdWriter) (os2 : World) := SyncPos (set_start_pos new_pos w2) os2 in
      if new_pos >=? start_pos w1 then
        match syscall (sys_fstat (dest_fd w1)) os1 with
        | None => None
        | Some (ret, r, os2) =>
            if ret <? 0 then Some (FailOperation "fstat()" (errno r) w1, os2)
            else if new_pos >? st_size r then
              match SyncPos (set_start_pos (st_size r) w1) os2 with
              | None => None
              | Some (_, w3, os3) => Some (false, w3, os3)
              end
            else finish w1 os2
        end
      else finish w1 os1
  end.

Definition Size (w : FdWriter) (os : World) : option (option Z * FdWriter * World) :=
  if negb (fhealthy w) then Some (None, w, os)
  else
    match syscall (sys_fstat (dest_fd w)) os with
    | None => None
    | Some (ret, r, os') =>
        if ret <? 0 then
          Some (None, snd (FailOperation "fstat()" (errno r) w), os')
        else Some (Some (UnsignedMax (st_size r) (pos w)), w, os')
    end.

End WithStatus.

End FdWriter.

(** ** Serializing a message to a writer (message_serialize.cc and .h) *)
Module MessageSerialize.
Import Base.

(** What the code asks of a [google::protobuf::MessageLite]. *)
Record MessageLite : Type := mkMessage {
  IsInitialized : bool;
  GetTypeName : string;
  InitializationErrorString : string;
  ByteSizeLong : Z
}.

Record SerializeOptions : Type := mkOptions { partial : bool; deterministic : bool }.

(** The status of a message beyond the maximum protobuf size. *)
Definition too_large (src : MessageLite) : Status :=
  ResourceExhaustedError
    (String.append "Failed to serialize message of type "
       (String.append (GetTypeName src)
          (String.append " because it exceeds maximum protobuf size of 2GB: "
             (StrCatNum (ByteSizeLong src))))).

Section WithWriter.

(** The destination [Writer], and the protocol-buffer library's
    [SerializePartialToCodedStream] through a [CodedOutputStream] over the
    [WriterOutputStream] adapter of the destination. *)
Variable Writer : Type.
Variable status : Writer -> Status.
Variable Close : Writer -> bool * Writer.
Variable SerializePartialToCodedStream : MessageLite -> bool -> Writer -> bool * Writer.

(** [internal::SerializeToWriterImpl(src, Writer* dest, options)]. *)
Definition SerializeToWriterImpl (src : MessageLite) (dest : Writer)
    (options : SerializeOptions) : Status * Writer :=
  if negb (partial options) && negb (IsInitialized src) then
    (InvalidArgumentError
       (String.append "Failed to serialize message of type "
          (String.append (GetTypeName src)
             (String.append " because it is missing required fields: "
                (InitializationErrorString src)))),
     dest)
  else
    let size := ByteSizeLong src in
    if size >? int_max then (too_large src, dest)
    else
      let (ok, dest') := SerializePartialToCodedStream src (deterministic options) dest in
      if negb ok then (status dest', dest') else (OkStatus, dest').

(** [SerializeToWriter], through the overload of [SerializeToWriterImpl] on a
    [Dependency]: a destination that is owned is closed. *)
Definition SerializeToWriter (is_owning : bool) (src : MessageLite) (dest : Writer)
    (options : SerializeOptions) : Status * Writer :=
  let (st, dest1) := SerializeToWriterImpl src dest options in
  if is_owning then
    let (closed, dest2) := Close dest1 in
    if negb closed then ((if status_ok st then status dest2 else st), dest2)
    else (st, dest2)
  else (st, dest1).

End WithWriter.

End MessageSerialize.

(** ** The framed-Snappy writer (framed_snappy_writer.h) *)
Module FramedSnappyWriter.
Import Base.

Inductive FlushType : Type := kFromObject | kFromProcess | kFromMachine.

Definition is_from_object (t : FlushType) : bool :=
  match t with kFromObject => true | _ => false end.

(** The writer: its [Object] state, the state of [FramedSnappyWriterBase]
    (block buffer, scratch, positions), and whether the [Dependency] owns the
    compressed writer. *)
Record FramedSnappyWriter (BaseState : Type) : Type := mkFramed {
  object : Object;
  base_state : BaseState;
  is_owning : bool
}.
Arguments mkFramed {BaseState} object base_state is_owning.
Arguments object {BaseState} f.
Arguments base_state {BaseState} f.
Arguments is_owning {BaseState} f.

Definition FailWithoutAnnotation {BaseState : Type} (st : Status)
    (w : FramedSnappyWriter BaseState) : FramedSnappyWriter BaseState :=
  mkFramed (Fail st (object w)) (base_state w) (is_owning w).

Section WithDest.

(** The compressed writer [*dest_], and the parts of
    [FramedSnappyWriterBase] that framed_snappy_writer.cc defines. *)
Variable BaseState Dest : Type.
Variable dest_Flush : FlushType -> Dest -> bool * Dest.
Variable dest_status : Dest -> Status.
Variable Base_FlushImpl :
  FlushType -> FramedSnappyWriter BaseState -> Dest
  -> bool * FramedSnappyWriter BaseState * Dest.
Variable AnnotateOverDest : Status -> FramedSnappyWriter BaseState -> Dest -> Status.

(** [FramedSnappyWriter<Dest>::FlushImpl]. *)
Definition FlushImpl (flush_type : FlushType) (w : FramedSnappyWriter BaseState)
    (d : Dest) : bool * FramedSnappyWriter BaseState * Dest :=
  match Base_FlushImpl flush_type w d with
  | (false, w1, d1) => (false, w1, d1)
  | (true, w1, d1) =>
      if negb (is_from_object flush_type) || is_owning w1 then
        let (ok, d2) := dest_Flush flush_type d1 in
        if negb ok
        then (true, FailWithoutAnnotation (AnnotateOverDest (dest_status d2) w1 d2) w1, d2)
        else (true, w1, d2)
      else (true, w1, d1)
  end.

End WithDest.

End FramedSnappyWriter.

(** ** Concrete inputs for the examples *)
Module Samples.
Import Base Writer LimitingWriter SizedSink.

Definition As (n : nat) : list byte := repeat Byte.x41 n.

(** An empty sink, and sinks that already hold 3 and 20 bytes, at position 0. *)
Definition empty_sink : D := sink_of 0 0.
Definition sink3 : D := sink_of 3 0.
Definition sink20 : D := sink_of 20 0.

(** S4 of the specification: [max_pos = 10], exact. *)
Definition exact10 : LimitingWriter := Initialize 10 true empty_sink.

(** A producer that pushes a window, fills three bytes of it, writes two
    more, seeks back to 2 and writes eight zeros: the position is then 10. *)
Definition some_calls : list Call :=
  [CallPush 4 0; CallFill 3; CallWrite (As 2); CallSeek 2; CallWriteZeros 8].

(** Ten bytes written, then one more attempted. *)
Definition overrun_calls : list Call := [CallWrite (As 10); CallWrite (As 1)].

(** A chunk of three records, "ab", "" and "cde", and a parser that refuses
    the empty record. *)
Definition abcde : list byte := String.list_byte_of_string "abcde".

Definition three_records : ChunkDecoder.ChunkDecoder :=
  ChunkDecoder.mkDecoder kOpen [2; 2; 5] (ChunkDecoder.mkReader abcde 0) 0 [] false.

Definition parse_nonempty (filter : unit) (record : list byte) : option (list byte) :=
  match record with [] => None | _ => Some record end.

Definition no_signature (chunk : unit) : bool := false.
Definition decode_three (chunk : unit) : option (list Z * list byte) :=
  Some ([2; 2; 5], abcde).

(** A stand-in for [ErrnoToCanonicalStatus] and for [Annotate]. *)
Definition errno_status (error_number : Z) (m : string) : Status :=
  mkStatus (if error_number =? 2 then kNotFound
            else if error_number =? 13 then kPermissionDenied
            else kUnknown) m.

Definition annotate (st : Status) (detail : string) : Status :=
  mkStatus (code st) (String.append (message st) (String.append "; " detail)).

(** A healthy descriptor writer at position 0 that shares the file offset
    with the descriptor, with a given buffer. *)
Definition fd_writer (buffered : list byte) : FdWriter.FdWriter :=
  FdWriter.mkFd kOpen 0 buffered 3 "/tmp/out" false false.

(** The kernel's answers: success with a value, an interrupted call, an
    error, and a successful [fstat] of a file of [n] bytes. *)
Definition ok_reply (n : Z) : Posix.Reply := Posix.mkReply n 0 0.
Definition eintr_reply : Posix.Reply := Posix.mkReply (-1) Posix.EINTR 0.
Definition error_reply (e : Z) : Posix.Reply := Posix.mkReply (-1) e 0.
Definition fstat_reply (n : Z) : Posix.Reply := Posix.mkReply 0 0 n.

Definition world (replies : list Posix.Reply) : Posix.World := Posix.mkWorld replies [].

(** A destination that records the bytes it was given and whether it is
    open, and a serializer that writes as many bytes as the message says. *)
Record ByteSink : Type := mkByteSink { bytes : list byte; closed : bool }.

Definition byte_sink_status (d : ByteSink) : Status := OkStatus.
Definition byte_sink_close (d : ByteSink) : bool * ByteSink :=
  (true, mkByteSink (bytes d) true).
Definition serialize_As (m : MessageSerialize.MessageLite) (deterministic : bool)
    (d : ByteSink) : bool * ByteSink :=
  (true, mkByteSink (bytes d ++ As (Z.to_nat (MessageSerialize.ByteSizeLong m))) (closed d)).

(** A message of 2^31 bytes that misses a required field, and one that is
    complete. *)
Definition huge_uninitialized : MessageSerialize.MessageLite :=
  MessageSerialize.mkMessage false "M" "f" (2 ^ 31).
Definition huge_initialized : MessageSerialize.MessageLite :=
  MessageSerialize.mkMessage true "M" "" (2 ^ 31).
Definition default_options : MessageSerialize.SerializeOptions :=
  MessageSerialize.mkOptions false false.

(** A compressed writer whose flush fails with a status of its own, under a
    framed-Snappy writer whose own flush succeeds. *)
Record FailingDest : Type := mkFailing { failed_with : option Status }.

Definition failing_flush (t : FramedSnappyWriter.FlushType) (d : FailingDest)
  : bool * FailingDest :=
  (false, mkFailing (Some (mkStatus kUnknown "fsync() failed"))).
Definition failing_status (d : FailingDest) : Status :=
  match failed_with d with Some st => st | None => OkStatus end.
Definition base_flush_ok (t : FramedSnappyWriter.FlushType)
    (w : FramedSnappyWriter.FramedSnappyWriter unit) (d : FailingDest)
  : bool * FramedSnappyWriter.FramedSnappyWriter unit * FailingDest :=
  (true, w, d).
Definition open_framed : FramedSnappyWriter.FramedSnappyWriter unit :=
  FramedSnappyWriter.mkFramed kOpen tt false.
Definition annotate_over_dest (st : Status) (w : FramedSnappyWriter.FramedSnappyWriter unit)
    (d : FailingDest) : Status :=
  annotate st "at uncompressed byte 0".

End Samples.

(** ** More of the file descriptor writer (fd_writer.cc) *)
Module FdWriterOps.
Import Base Posix FdWriter.
Import FramedSnappyWriter(FlushType, kFromObject, kFromProcess, kFromMachine).

(** [absl::StrCat] of an [int]: a sign and the decimal digits. *)
Definition StrCatInt (z : Z) : string :=
  if z <? 0 then String.append "-" (StrCatNum (- z)) else StrCatNum z.

(** [FdWriterCommon::SetFilename]. *)
Definition SetFilename (dest : Z) (w : FdWriter) : FdWriter :=
  mkFd (object w) (start_pos w) (buffer w) (dest_fd w)
    (if dest =? 1 then "/dev/stdout"
     else if dest =? 2 then "/dev/stderr"
     else String.append "/proc/self/fd/" (StrCatInt dest))
    (supports_random_access_ w) (has_independent_pos_ w).

(** [O_APPEND] of fcntl.h on Linux. *)
Definition O_APPEND : Z := 1024.

Definition set_flags (random_access independent : bool) (w : FdWriter) : FdWriter :=
  mkFd (object w) (start_pos w) (buffer w) (dest_fd w) (filename_ w)
    random_access independent.

Section WithStatus.

Variable ErrnoToCanonicalStatus : Z -> string -> Status.
Variable Annotate : Status -> string -> Status.

(** [FdWriterBase::InitializePos(dest, flags, assumed_pos, independent_pos)],
    with the flags of the descriptor already known. *)
Definition InitializePos (dest flags : Z) (assumed_pos independent_pos : option Z)
    (w : FdWriter) (os : World) : option (FdWriter * World) :=
  match assumed_pos with
  | Some p =>
      if p >? off_t_max then Some (snd (FailOverflow Annotate w), os)
      else Some (set_start_pos p w, os)
  | None =>
      match independent_pos with
      | Some p =>
          let w1 := set_flags true true w in
          if p >? off_t_max then Some (snd (FailOverflow Annotate w1), os)
          else Some (set_start_pos p w1, os)
      | None =>
          let w1 := set_flags true (has_independent_pos_ w) w in
          let whence := if Z.land flags O_APPEND =? 0 then SEEK_CUR else SEEK_END in
          match syscall (sys_lseek dest 0 whence) os with
          | None => None
          | Some (file_pos, r, os') =>
              if file_pos <? 0
              then Some (snd (FailOperation ErrnoToCanonicalStatus Annotate
                                "lseek()" (errno r) w1), os')
              else Some (set_start_pos file_pos w1, os')
          end
      end
  end.

(** [FdWriterBase::Flush]. *)
Definition Flush (flush_type : FlushType) (w : FdWriter) (os : World)
  : option (bool * FdWriter * World) :=
  match PushInternal ErrnoToCanonicalStatus Annotate w os with
  | None => None
  | Some (false, w1, os1) => Some (false, w1, os1)
  | Some (true, w1, os1) =>
      match flush_type with
      | kFromObject | kFromProcess => Some (true, w1, os1)
      | kFromMachine =>
          match syscall (sys_fsync (dest_fd w1)) os1 with
          | None => None
          | Some (ret, r, os2) =>
              if ret <? 0
              then Some (FailOperation ErrnoToCanonicalStatus Annotate
                           "fsync()" (errno r) w1, os2)
              else Some (true, w1, os2)
          end
      end
  end.

(** The [again:] loop of [Truncate] around [ftruncate], one answer of the
    kernel per iteration, and what follows it. *)
Fixpoint TruncateLoop (replies : list Reply) (tr : list (Syscall * Z)) (new_size : Z)
    (w : FdWriter) : option (bool * FdWriter * World) :=
  match replies with
  | [] => None
  | r :: rest =>
      let c := sys_ftruncate (dest_fd w) new_size in
      let ret := returned c r in
      let tr' := tr ++ [(c, ret)] in
      if ret <? 0 then
        if errno r =? EINTR then TruncateLoop rest tr' new_size w
        else Some (FailOperation ErrnoToCanonicalStatus Annotate
                     "ftruncate()" (errno r) w, mkWorld rest tr')
      else SyncPos ErrnoToCanonicalStatus Annotate (set_start_pos new_size w)
             (mkWorld rest tr')
  end.

(** [FdWriterBase::Truncate]. *)
Definition Truncate (new_size : Z) (w : FdWriter) (os : World)
  : option (bool * FdWriter * World) :=
  match PushInternal ErrnoToCanonicalStatus Annotate w os with
  | None => None
  | Some (false, w1, os1) => Some (false, w1, os1)
  | Some (true, w1, os1) =>
      let finish (os2 : World) := TruncateLoop (pending os2) (trace os2) new_size w1 in
      if new_size >=? start_pos w1 then
        match syscall (sys_fstat (dest_fd w1)) os1 with
        | None => None
        | Some (ret, r, os2) =>
            if ret <? 0
            then Some (FailOperation ErrnoToCanonicalStatus Annotate
                         "fstat()" (errno r) w1, os2)
            else if new_size >? st_size r then
              match SyncPos ErrnoToCanonicalStatus Annotate
                      (set_start_pos (st_size r) w1) os2 with
              | None => None
              | Some (_, w3, os3) => Some (false, w3, os3)
              end
            else finish os2
        end
      else finish os1
  end.

(** The operations on an initialized writer, and one step of each.
    [OpAppend] is the producer putting bytes in the buffer. *)
Inductive Op : Type :=
| OpAppend (src : list byte)
| OpPush
| OpSeek (new_pos : Z)
| OpSize
| OpTruncate (new_size : Z)
| OpFlush (flush_type : FlushType).

Definition step (op : Op) (w : FdWriter) (os : World) : option (FdWriter * World) :=
  let forget {A : Type} (r : option (A * FdWriter * World)) :=
    match r with
    | Some (_, w', os') => Some (w', os')
    | None => None
    end in
  match op with
  | OpAppend src =>
      Some (mkFd (object w) (start_pos w) (buffer w ++ src) (dest_fd w) (filename_ w)
              (supports_random_access_ w) (has_independent_pos_ w), os)
  | OpPush => forget (PushInternal ErrnoToCanonicalStatus Annotate w os)
  | OpSeek new_pos => forget (SeekSlow ErrnoToCanonicalStatus Annotate new_pos w os)
  | OpSize => forget (Size ErrnoToCanonicalStatus Annotate w os)
  | OpTruncate new_size => forget (Truncate new_size w os)
  | OpFlush flush_type => forget (Flush flush_type w os)
  end.

End WithStatus.

(** The position is a valid file offset, as [IntCast<off_t>(start_pos())]
    needs. *)
Definition valid_pos (w : FdWriter) : bool :=
  (0 <=? start_pos w) && (start_pos w <=? off_t_max).

(** The arguments of a call are [Position] values, and the kernel reports
    file sizes and offsets that fit [off_t]. *)
Definition op_typed (op : Op) : bool :=
  match op with
  | OpSeek new_pos => in_u64 new_pos
  | OpTruncate new_size => in_u64 new_size
  | _ => true
  end.

Definition reply_typed (r : Reply) : bool :=
  (0 <=? st_size r) && (st_size r <=? off_t_max) && (result r <=? off_t_max).

Definition is_ftruncate (c : Syscall) : bool :=
  match c with sys_ftruncate _ _ => true | _ => false end.

End FdWriterOps.

(** ** The stream descriptor writer (fd_writer.cc, [FdStreamWriterBase]) *)
Module FdStreamWriter.
Import Base Posix.
Import FramedSnappyWriter(FlushType, kFromObject, kFromProcess, kFromMachine).

(** [FdStreamWriterBase] with its bases: no random access, and the position
    is only counted. *)
Record FdStreamWriter : Type := mkFdStream {
  object : Object;
  start_pos : Z;
  buffer : list byte;
  dest_fd : Z;
  filename_ : string
}.

Definition fhealthy (w : FdStreamWriter) : bool := healthy (object w).

Definition set_start_pos (p : Z) (w : FdStreamWriter) : FdStreamWriter :=
  mkFdStream (object w) p (buffer w) (dest_fd w) (filename_ w).

Definition move_start_pos (n : Z) (w : FdStreamWriter) : FdStreamWriter :=
  set_start_pos (wrap64 (start_pos w + n)) w.

(** [std::numeric_limits<Position>::max()]. *)
Definition position_max : Z := two64 - 1.

Section WithStatus.

Variable ErrnoToCanonicalStatus : Z -> string -> Status.
Variable Annotate : Status -> string -> Status.

(** [FdWriterCommon::Fail] and [FailOperation], shared with [FdWriterBase]. *)
Definition Fail (st : Status) (w : FdStreamWriter) : bool * FdStreamWriter :=
  (false,
   mkFdStream
     (Base.Fail (Annotate st (String.append "writing " (filename_ w))) (object w))
     (start_pos w) (buffer w) (dest_fd w) (filename_ w)).

Definition FailOperation (operation : string) (error_number : Z) (w : FdStreamWriter)
  : bool * FdStreamWriter :=
  Fail (ErrnoToCanonicalStatus error_number (String.append operation " failed")) w.

Definition FailOverflow (w : FdStreamWriter) : bool * FdStreamWriter :=
  Fail (ResourceExhaustedError "Writer position overflow") w.

Definition write_call (src : list byte) (w : FdStreamWriter) : Syscall :=
  sys_write (dest_fd w) src (UnsignedMin (size src) ssize_t_max).

(** The [do ... while] loop of [FdStreamWriterBase::WriteInternal]. *)
Fixpoint WriteLoop (replies : list Reply) (tr : list (Syscall * Z)) (src : list byte)
    (w : FdStreamWriter) : option (bool * FdStreamWriter * World) :=
  match replies with
  | [] => None
  | r :: rest =>
      let c := write_call src w in
      let length_written := returned c r in
      let tr' := tr ++ [(c, length_written)] in
      if length_written <? 0 then
        if errno r =? EINTR then WriteLoop rest tr' src w
        else Some (FailOperation "write()" (errno r) w, mkWorld rest tr')
      else
        let w' := move_start_pos length_written w in
        match drop (Z.to_nat length_written) src with
        | [] => Some (true, w', mkWorld rest tr')
        | src' => WriteLoop rest tr' src' w'
        end
  end.

Definition WriteInternal (src : list byte) (w : FdStreamWriter) (os : World)
  : option (bool * FdStreamWriter * World) :=
  if size src >? wrap64 (position_max - start_pos w) then Some (FailOverflow w, os)
  else WriteLoop (pending os) (trace os) src w.

(** [FdStreamWriterBase::InitializePos(dest, flags, assumed_pos)], with the
    flags of the descriptor already known. *)
Definition InitializePos (dest flags : Z) (assumed_pos : option Z)
    (w : FdStreamWriter) (os : World) : option (FdStreamWriter * World) :=
  match assumed_pos with
  | Some p => Some (set_start_pos p w, os)
  | None =>
      if Z.land flags FdWriterOps.O_APPEND =? 0 then Some (w, os)
      else
        match syscall (sys_fstat dest) os with
        | None => None
        | Some (ret, r, os') =>
            if ret <? 0 then Some (snd (FailOperation "fstat()" (errno r) w), os')
            else Some (set_start_pos (st_size r) w, os')
        end
  end.

End WithStatus.

End FdStreamWriter.

(** ** The output stream over a writer (message_serialize.cc) *)
Module WriterOutputStream.
Import Base Writer LimitingWriter.

(** [std::numeric_limits<int64_t>::max()]. *)
Definition int64_max : Z := 2 ^ 63 - 1.

(** [SaturatingIntCast<int>] of an unsigned value. *)
Definition SaturatingIntCast_int (z : Z) : Z := Z.min z int_max.

(** [WriterOutputStream]: the writer [*dest_] is passed along, as for the
    limiting writer; the stream itself holds the position it started at. *)
Record WriterOutputStream : Type := mkStream { initial_pos_ : Z }.

Section WithDest.

Context {Sink Reader : Type}.
Variable dest_ : Methods Sink Reader.

(** The constructor. *)
Definition Create (d : Dest Sink) : WriterOutputStream := mkStream (pos (dw d)).

(** [relative_pos()], in 64-bit arithmetic. *)
Definition relative_pos (s : WriterOutputStream) (d : Dest Sink) : Z :=
  wrap64 (pos (dw d) - initial_pos_ s).

(** [Next]: the result is the size of the block handed out, which starts at
    the cursor the writer had after [Push()]; [None] stands for false. *)
Definition Next (s : WriterOutputStream) (d : Dest Sink) : option Z * Dest Sink :=
  let pos := relative_pos s d in
  if pos =? int64_max then (None, d)
  else
    let (ok, d1) := Push dest_ 1 0 d in
    if negb ok then (None, d1)
    else
      let size := SaturatingIntCast_int
                    (UnsignedMin (available (dw d1)) (wrap64 (int64_max - pos))) in
      (Some size, mkDest (move_cursor size (dw d1)) (sink d1)).

(** [BackUp(length)]. *)
Definition BackUp (length : Z) (d : Dest Sink) : Dest Sink :=
  dest_set_cursor (wrap64 (start_to_cursor (dw d) - length)) d.

Definition ByteCount (s : WriterOutputStream) (d : Dest Sink) : Z := relative_pos s d.

(** The invariants the class states: [dest_->pos() >= initial_pos_] and
    [dest_->pos() - initial_pos_ <= int64_max]. *)
Definition stream_invariant (s : WriterOutputStream) (d : Dest Sink) : bool :=
  (initial_pos_ s <=? pos (dw d)) && (pos (dw d) - initial_pos_ s <=? int64_max).

End WithDest.

End WriterOutputStream.

(** ** The writer over a C++ output stream (ostream_writer.cc) *)
Module OstreamWriter.
Import Base.

(** Modelled from the C++ standard library: what the writer sees of a
    [std::ostream].  Each call of [tellp], [seekp] or [write] consumes one
    answer of the stream: whether [fail()] holds after the call, the value
    returned (by [tellp]), and the value the call leaves in [errno] when it
    sets it.  [fail()] itself only reads the state the last call left. *)
Inductive seekdir : Type := beg | end_.

Inductive StreamCall : Type :=
| call_tellp
| call_seekp (off : Z) (dir : seekdir)
| call_write (data : list byte) (count : Z)
| call_clear_failbit.

Record Answer : Type := mkAnswer { fails : bool; value : Z; sets_errno : option Z }.

Record Stream : Type := mkStream {
  failed : bool;
  errno : Z;
  pending : list Answer;
  trace : list StreamCall
}.

Definition errno_after (a : Answer) (err : Z) : Z :=
  match sets_errno a with Some e => e | None => err end.

Definition call (c : StreamCall) (s : Stream) : option (Answer * Stream) :=
  match pending s with
  | [] => None
  | a :: rest => Some (a, mkStream (fails a) (errno_after a (errno s)) rest (trace s ++ [c]))
  end.

(** [errno = 0]. *)
Definition reset_errno (s : Stream) : Stream :=
  mkStream (failed s) 0 (pending s) (trace s).

(** [dest.clear(dest.rdstate() & ~std::ios_base::failbit)]. *)
Definition clear_failbit (s : Stream) : Stream :=
  mkStream false (errno s) (pending s) (trace s ++ [call_clear_failbit]).

(** The bytes a call handed to the stream. *)
Definition written_by (c : StreamCall) : list byte :=
  match c with call_write data _ => data | _ => [] end.

Definition written (t : list StreamCall) : list byte := concat (map written_by t).

(** [std::numeric_limits<T>::max()] of [std::streamoff] and
    [std::streamsize]. *)
Definition streamoff_max : Z := 2 ^ 63 - 1.
Definition streamsize_max : Z := 2 ^ 63 - 1.

Module LazyBoolState.
Inductive t : Type := kFalse | kTrue | kUnknown.
End LazyBoolState.

(** [OstreamWriterBase], behind its buffer. *)
Record OstreamWriter : Type := mkOstream {
  object : Object;
  start_pos : Z;
  supports_random_access_ : LazyBoolState.t;
  supports_read_mode_ : LazyBoolState.t;
  read_mode_ : bool
}.

Definition ohealthy (w : OstreamWriter) : bool := healthy (object w).

Definition set_start_pos (p : Z) (w : OstreamWriter) : OstreamWriter :=
  mkOstream (object w) p (supports_random_access_ w) (supports_read_mode_ w)
    (read_mode_ w).

Definition move_start_pos (n : Z) (w : OstreamWriter) : OstreamWriter :=
  set_start_pos (wrap64 (start_pos w + n)) w.

Definition set_supports_random_access (b : LazyBoolState.t) (w : OstreamWriter)
  : OstreamWriter :=
  mkOstream (object w) (start_pos w) b (supports_read_mode_ w) (read_mode_ w).

Definition set_read_mode (b : bool) (w : OstreamWriter) : OstreamWriter :=
  mkOstream (object w) (start_pos w) (supports_random_access_ w)
    (supports_read_mode_ w) b.

Section WithStatus.

(** [ErrnoToCanonicalStatus] of errno_mapping.h, the annotation
    [Object::Fail] adds to a status, and the versions of [SeekBehindBuffer]
    and [SizeBehindBuffer] in [BufferedWriter], which fail the writer, are
    not among the sources. *)
Variable ErrnoToCanonicalStatus : Z -> string -> Status.
Variable AnnotateStatus : Status -> OstreamWriter -> Status.
Variable Base_SeekBehindBuffer : Z -> OstreamWriter -> bool * OstreamWriter.
Variable Base_SizeBehindBuffer : OstreamWriter -> option Z * OstreamWriter.

Definition Fail (st : Status) (w : OstreamWriter) : bool * OstreamWriter :=
  (false,
   mkOstream (Base.Fail (AnnotateStatus st w) (object w)) (start_pos w)
     (supports_random_access_ w) (supports_read_mode_ w) (read_mode_ w)).

(** [OstreamWriterBase::FailOperation], for the value [errno] holds. *)
Definition FailOperation (operation : string) (w : OstreamWriter) (s : Stream)
  : bool * OstreamWriter :=
  let error_number := errno s in
  let message := String.append operation " failed" in
  Fail (if error_number =? 0 then mkStatus kUnknown message
        else ErrnoToCanonicalStatus error_number message) w.

Definition FailOverflow (w : OstreamWriter) : bool * OstreamWriter :=
  Fail (ResourceExhaustedError "Writer position overflow") w.

(** [OstreamWriterBase::Initialize]. *)
Definition Initialize (assumed_pos : option Z) (w : OstreamWriter) (s : Stream)
  : option (OstreamWriter * Stream) :=
  if failed s then Some (snd (FailOperation "ostream::ostream()" w s), s)
  else
    match assumed_pos with
    | Some p =>
        if p >? streamoff_max then Some (snd (FailOverflow w), s)
        else Some (set_start_pos p w, s)
    | None =>
        match call call_tellp s with
        | None => None
        | Some (a, s1) =>
            if value a <? 0 then Some (w, s1)
            else Some (mkOstream (object w) (value a) LazyBoolState.kUnknown LazyBoolState.kUnknown (read_mode_ w), s1)
        end
    end.

(** [OstreamWriterBase::supports_random_access]. *)
Definition supports_random_access (w : OstreamWriter) (s : Stream)
  : option (bool * OstreamWriter * Stream) :=
  match supports_random_access_ w with
  | LazyBoolState.kFalse => Some (false, w, s)
  | LazyBoolState.kTrue => Some (true, w, s)
  | LazyBoolState.kUnknown =>
      match call (call_seekp 0 end_) s with
      | None => None
      | Some (a, s1) =>
          if fails a
          then Some (false, set_supports_random_access LazyBoolState.kFalse w, clear_failbit s1)
          else
            match call (call_seekp (start_pos w) beg) (reset_errno s1) with
            | None => None
            | Some (a2, s2) =>
                if fails a2
                then Some (false,
                           set_supports_random_access LazyBoolState.kFalse
                             (snd (FailOperation "ostream::seekp()" w s2)), s2)
                else Some (true, set_supports_random_access LazyBoolState.kTrue w, s2)
            end
      end
  end.

(** [OstreamWriterBase::WriteMode]. *)
Definition WriteMode (w : OstreamWriter) (s : Stream)
  : option (bool * OstreamWriter * Stream) :=
  if negb (read_mode_ w) then Some (true, w, s)
  else
    let w1 := set_read_mode false w in
    if negb (ohealthy w1) then Some (false, w1, s)
    else
      match call (call_seekp (start_pos w1) beg) (reset_errno s) with
      | None => None
      | Some (a, s1) =>
          if fails a then Some (FailOperation "ostream::seekp()" w1 s1, s1)
          else Some (true, w1, s1)
      end.

(** The [do ... while] loop of [WriteInternal], one answer of the stream per
    iteration. *)
Fixpoint WriteLoop (answers : list Answer) (tr : list StreamCall) (err : Z)
    (src : list byte) (w : OstreamWriter) : option (bool * OstreamWriter * Stream) :=
  match answers with
  | [] => None
  | a :: rest =>
      let length_to_write := UnsignedMin (size src) streamsize_max in
      let c := call_write (take (Z.to_nat length_to_write) src) length_to_write in
      let s' := mkStream (fails a) (errno_after a err) rest (tr ++ [c]) in
      if fails a then Some (FailOperation "ostream::write()" w s', s')
      else
        let w' := move_start_pos length_to_write w in
        match drop (Z.to_nat length_to_write) src with
        | [] => Some (true, w', s')
        | src' => WriteLoop rest (tr ++ [c]) (errno_after a err) src' w'
        end
  end.

(** [OstreamWriterBase::WriteInternal]. *)
Definition WriteInternal (src : list byte) (w : OstreamWriter) (s : Stream)
  : option (bool * OstreamWriter * Stream) :=
  match WriteMode w s with
  | None => None
  | Some (false, w1, s1) => Some (false, w1, s1)
  | Some (true, w1, s1) =>
      if size src >? wrap64 (streamoff_max - start_pos w1)
      then Some (FailOverflow w1, s1)
      else WriteLoop (pending s1) (trace s1) 0 src w1
  end.

(** [OstreamWriterBase::SeekBehindBuffer]. *)
Definition SeekBehindBuffer (new_pos : Z) (w : OstreamWriter) (s : Stream)
  : option (bool * OstreamWriter * Stream) :=
  match supports_random_access w s with
  | None => None
  | Some (false, w1, s1) => Some (Base_SeekBehindBuffer new_pos w1, s1)
  | Some (true, w1, s1) =>
      if negb (ohealthy w1) then Some (false, w1, s1)
      else
        let finish (s2 : Stream) :=
          match call (call_seekp new_pos beg) s2 with
          | None => None
          | Some (a, s3) =>
              if fails a then Some (FailOperation "ostream::seekp()" w1 s3, s3)
              else Some (true, set_start_pos new_pos w1, s3)
          end in
        if new_pos >? start_pos w1 then
          match call (call_seekp 0 end_) (reset_errno s1) with
          | None => None
          | Some (a, s2) =>
              if fails a then Some (FailOperation "ostream::seekp()" w1 s2, s2)
              else
                match call call_tellp s2 with
                | None => None
                | Some (a2, s3) =>
                    let stream_size := value a2 in
                    if stream_size <? 0
                    then Some (FailOperation "ostream::tellp()" w1 s3, s3)
                    else if new_pos >? stream_size
                    then Some (false, set_start_pos stream_size w1, s3)
                    else finish s3
                end
          end
        else finish (reset_errno s1)
  end.

(** [OstreamWriterBase::SizeBehindBuffer]. *)
Definition SizeBehindBuffer (w : OstreamWriter) (s : Stream)
  : option (option Z * OstreamWriter * Stream) :=
  match supports_random_access w s with
  | None => None
  | Some (false, w1, s1) => Some (Base_SizeBehindBuffer w1, s1)
  | Some (true, w1, s1) =>
      if negb (ohealthy w1) then Some (None, w1, s1)
      else
        match call (call_seekp 0 end_) (reset_errno s1) with
        | None => None
        | Some (a, s2) =>
            if fails a
            then Some (None, snd (FailOperation "ostream::seekp()" w1 s2), s2)
            else
              match call call_tellp s2 with
              | None => None
              | Some (a2, s3) =>
                  let stream_size := value a2 in
                  if stream_size <? 0
                  then Some (None, snd (FailOperation "ostream::tellp()" w1 s3), s3)
                  else
                    match call (call_seekp (start_pos w1) beg) s3 with
                    | None => None
                    | Some (a3, s4) =>
                        if fails a3
                        then Some (None, snd (FailOperation "ostream::seekp()" w1 s4), s4)
                        else Some (Some stream_size, w1, s4)
                    end
              end
        end
  end.

End WithStatus.

(** The same stream with another value in [errno]. *)
Definition with_errno (e : Z) (s : Stream) : Stream :=
  mkStream (failed s) e (pending s) (trace s).

End OstreamWriter.

(** ** More concrete inputs *)
Module MoreSamples.
Import Base Posix Samples.

(** A descriptor writer at position 100 with five bytes in its buffer. *)
Definition fd_writer_at_100 : FdWriter.FdWriter :=
  FdWriter.mkFd kOpen 100 abcde 3 "/tmp/out" true false.

(** A stream writer at position 0. *)
Definition stream_writer : FdStreamWriter.FdStreamWriter :=
  FdStreamWriter.mkFdStream kOpen 0 [] 1 "/dev/stdout".


(** A healthy stream writer over a [std::ostream] at position 0 whose
    random access is not yet resolved, answers of a stream, and a stream
    that has them pending. *)
Definition ostream_writer : OstreamWriter.OstreamWriter :=
  OstreamWriter.mkOstream kOpen 0 OstreamWriter.LazyBoolState.kUnknown
    OstreamWriter.LazyBoolState.kUnknown false.

(** The same writer as its constructor leaves it, before [Initialize]. *)
Definition fresh_ostream_writer : OstreamWriter.OstreamWriter :=
  OstreamWriter.mkOstream kOpen 0 OstreamWriter.LazyBoolState.kFalse
    OstreamWriter.LazyBoolState.kFalse false.

Definition good : OstreamWriter.Answer := OstreamWriter.mkAnswer false 0 None.
Definition good_at (n : Z) : OstreamWriter.Answer := OstreamWriter.mkAnswer false n None.
Definition bad (e : Z) : OstreamWriter.Answer := OstreamWriter.mkAnswer true (-1) (Some e).

Definition stream (answers : list OstreamWriter.Answer) : OstreamWriter.Stream :=
  OstreamWriter.mkStream false 0 answers [].

Definition ostream_annotate (st : Status) (w : OstreamWriter.OstreamWriter) : Status :=
  annotate st (String.append "at byte " (StrCatNum (OstreamWriter.start_pos w))).

Definition base_seek (new_pos : Z) (w : OstreamWriter.OstreamWriter)
  : bool * OstreamWriter.OstreamWriter :=
  OstreamWriter.Fail ostream_annotate
    (mkStatus kUnimplemented "Writer::Seek() not supported") w.

Definition base_size (w : OstreamWriter.OstreamWriter)
  : option Z * OstreamWriter.OstreamWriter :=
  (None, snd (OstreamWriter.Fail ostream_annotate
                (mkStatus kUnimplemented "Writer::Size() not supported") w)).


(** Inner writers for the limiting writer besides [SizedSink.methods]: one
    that annotates a status with its position, one that is owned, and one
    that is owned and whose [Close()] fails. *)
Definition annotating_methods : LimitingWriter.Methods SizedSink.Sink unit :=
  LimitingWriter.mkMethods SizedSink.Sink unit SizedSink.sPush SizedSink.sWrite
    SizedSink.sWriteZeros SizedSink.sSeek SizedSink.sSize SizedSink.sTruncate
    SizedSink.sReadMode
    (fun st d =>
       annotate st (String.append "at byte "
                      (StrCatNum (Writer.pos (LimitingWriter.dw d)))))
    SizedSink.sClose false.

Definition owned_methods : LimitingWriter.Methods SizedSink.Sink unit :=
  LimitingWriter.mkMethods SizedSink.Sink unit SizedSink.sPush SizedSink.sWrite
    SizedSink.sWriteZeros SizedSink.sSeek SizedSink.sSize SizedSink.sTruncate
    SizedSink.sReadMode (fun st _ => st) SizedSink.sClose true.

Definition close_fails (d : SizedSink.D) : bool * SizedSink.D :=
  (false,
   LimitingWriter.mkDest
     (Writer.mkWriter
        (MarkClosed (Fail (mkStatus kUnknown "close() failed")
                       (Writer.object (LimitingWriter.dw d))))
        (Writer.pos (LimitingWriter.dw d)) 0 0)
     (LimitingWriter.sink d)).

Definition failing_close_methods : LimitingWriter.Methods SizedSink.Sink unit :=
  LimitingWriter.mkMethods SizedSink.Sink unit SizedSink.sPush SizedSink.sWrite
    SizedSink.sWriteZeros SizedSink.sSeek SizedSink.sSize SizedSink.sTruncate
    SizedSink.sReadMode (fun st _ => st) close_fails true.

End MoreSamples.

(** * Properties *)

(** ** Facts about the shared definitions *)
Module BaseFacts.
Import Base.

Lemma healthy_Fail s o : healthy (Fail s o) = false.
Proof. unfold healthy, Fail. destruct o as [[|] [f|]]; reflexivity. Qed.

Lemma Fail_healthy s o :
  healthy o = true -> Fail s o = mkObject true (Some s).
Proof.
  unfold healthy, Fail. destruct o as [[|] [f|]]; simpl; intros H;
    try discriminate; reflexivity.
Qed.

Lemma wrap64_small z : 0 <= z < two64 -> wrap64 z = z.
Proof. intros H. unfold wrap64. apply Z.mod_small. exact H. Qed.

Lemma in_u64_spec z : in_u64 z = true <-> 0 <= z < two64.
Proof. unfold in_u64. rewrite andb_true_iff, Z.leb_le, Z.ltb_lt. tauto. Qed.

End BaseFacts.

(** ** The chunk decoder *)
Module ChunkDecoderSpec.
Import Base BaseFacts ChunkDecoder.

Lemma sortedb_head p l i a :
  sortedb p l = true -> l !! i = Some a -> p <= a.
Proof.
  revert p i. induction l as [|x l IH]; intros p i Hs Hl; [discriminate|].
  simpl in Hs. apply andb_true_iff in Hs as [Hpx Hs]. apply Z.leb_le in Hpx.
  destruct i as [|i]; simpl in Hl.
  - injection Hl as <-. exact Hpx.
  - specialize (IH _ _ Hs Hl). lia.
Qed.

Lemma sortedb_mono p l i j a b :
  sortedb p l = true -> (i <= j)%nat ->
  l !! i = Some a -> l !! j = Some b -> a <= b.
Proof.
  revert p i j. induction l as [|x l IH]; intros p i j Hs Hij Ha Hb; [discriminate|].
  simpl in Hs. apply andb_true_iff in Hs as [Hpx Hs].
  destruct i as [|i]; simpl in Ha.
  - injection Ha as <-. destruct j as [|j]; simpl in Hb.
    + injection Hb as <-. lia.
    + eapply sortedb_head; eauto.
  - destruct j as [|j]; [lia|]. simpl in Hb.
    apply (IH x i j Hs); [lia | exact Ha | exact Hb].
Qed.

Lemma last_lookup (l : list Z) i a :
  l !! i = Some a -> List.last l 0 = nth (length l - 1) l 0.
Proof.
  intros _. induction l as [|x l IH]; [reflexivity|].
  destruct l as [|y l]; [reflexivity|].
  change (List.last (x :: y :: l) 0) with (List.last (y :: l) 0).
  rewrite IH. simpl. rewrite Nat.sub_0_r. reflexivity.
Qed.

Lemma sortedb_le_last p (l : list Z) i a :
  sortedb p l = true -> l !! i = Some a -> a <= List.last l 0.
Proof.
  intros Hs Ha. rewrite (last_lookup l i a Ha).
  pose proof (lookup_lt_Some _ _ _ Ha) as Hlt.
  destruct (lookup_lt_is_Some_2 l (length l - 1)) as [b Hb]; [lia|].
  rewrite (nth_lookup_Some _ _ _ _ Hb).
  apply (sortedb_mono p l i (length l - 1) a b Hs); [lia | exact Ha | exact Hb].
Qed.

Lemma invariant_Inv d : invariant d = true <-> Inv d.
Proof.
  unfold invariant. rewrite !andb_true_iff, !in_u64_spec, !Z.leb_le.
  split.
  - intros [[[[[[[Hs Hz] Hn] Hb] Hp] Hi0] Hi1] Hr]. split; auto.
    + intros Hne. destruct (limits_ d); [congruence|]. apply Z.eqb_eq, Hb.
    + unfold eqb_option in Hp. destruct (limit_before d (index_ d)); [|discriminate].
      apply Z.eqb_eq in Hp. congruence.
    + intros Hrec. rewrite Hrec in Hr. simpl in Hr.
      apply negb_true_iff in Hr. exact Hr.
  - intros [Hs Hz Hn Hb Hp Hi Hr]. repeat split; auto; try lia.
    + destruct (limits_ d) eqn:E; [reflexivity|]. apply Z.eqb_eq, Hb. congruence.
    + rewrite Hp. simpl. apply Z.eqb_refl.
    + destruct (recoverable_ d); [|reflexivity]. simpl. rewrite Hr; reflexivity.
Qed.

Lemma slice_shift (values : list byte) from len :
  slice values from (from + len) = take (Z.to_nat len) (drop (Z.to_nat from) values).
Proof. unfold slice. f_equal. f_equal. lia. Qed.

(** One raw read below the end of the chunk: it succeeds, yields the bytes
    of the record at [index], and leaves a decoder that satisfies the
    invariants with [index] advanced by one. *)
Lemma ReadRecord_next k record d :
  Inv d -> dhealthy d = true -> index_ d < num_records d ->
  let i := Z.to_nat (index_ d) in
  let d' := with_read d (index_ d + 1)
              (mkReader (src (values_reader_ d)) (nth i (limits_ d) 0)) in
  ReadRecord k record d
    = Returns (true, record_bytes (limits_ d) (src (values_reader_ d)) i, d')
  /\ Inv d'.
Proof.
  intros [Hs Hz Hn Hb Hp Hi Hr] Hh Hlt i d'.
  assert (Hil : (i < length (limits_ d))%nat) by (unfold num_records in Hlt; subst i; lia).
  destruct (lookup_lt_is_Some_2 _ _ Hil) as [limit Hlim].
  assert (Hnth : nth i (limits_ d) 0 = limit) by (apply nth_lookup_Some with (1 := Hlim)).
  set (start := pos (values_reader_ d)) in *.
  assert (Hstart : start = match i with O => 0 | S j => nth j (limits_ d) 0 end
                   /\ 0 <= start <= limit).
  { unfold limit_before in Hp. destruct (Z.eqb_spec (index_ d) 0) as [E|E].
    - injection Hp as Hp. replace i with O by (subst i; lia). split; [congruence|].
      split; [lia|]. rewrite <- Hp. eapply sortedb_head; eauto.
    - destruct i as [|j] eqn:Ei; [subst i; lia|].
      replace (Z.to_nat (index_ d - 1)) with j in Hp by lia.
      rewrite (nth_lookup_Some _ _ _ _ Hp). split; [reflexivity|]. split.
      + eapply sortedb_head; eauto.
      + apply (sortedb_mono 0 (limits_ d) j (S j) start limit Hs); [lia|exact Hp|exact Hlim]. }
  destruct Hstart as [Hst Hsl].
  assert (Hle : limit <= reader_size (values_reader_ d)).
  { rewrite <- Hb; [eapply sortedb_le_last; eauto|]. intros E. rewrite E in Hlim. discriminate. }
  split.
  - unfold ReadRecord, index, d'. rewrite Hh.
    destruct (Z.eqb_spec (index_ d) (num_records d)) as [E|E]; [lia|]. simpl.
    fold i. rewrite Hlim. fold start.
    rewrite (wrap64_small (limit - start)) by lia.
    rewrite (wrap64_small (index_ d + 1)) by lia.
    unfold Read. fold start.
    destruct (Z.leb_spec (limit - start) (reader_size (values_reader_ d) - start)); [|lia].
    replace (start + (limit - start)) with limit by lia.
    rewrite Hnth. unfold record_bytes. rewrite Hnth, <- Hst.
    destruct k; reflexivity.
  - unfold d'. split; simpl; auto.
    + unfold limit_before. simpl.
      destruct (Z.eqb_spec (index_ d + 1) 0); [lia|].
      replace (Z.to_nat (index_ d + 1 - 1)) with i by (subst i; lia).
      rewrite Hlim, Hnth. reflexivity.
    + unfold num_records in *. simpl. lia.
Qed.

(** At the end of the chunk, or on a failed decoder, a raw read returns
    false and changes nothing. *)
Lemma ReadRecord_end k record d :
  index_ d = num_records d \/ dhealthy d = false ->
  ReadRecord k record d = Returns (false, record, d).
Proof.
  intros H. unfold ReadRecord, index.
  destruct H as [H|H].
  - rewrite H, Z.eqb_refl. reflexivity.
  - rewrite H, orb_true_r. reflexivity.
Qed.

Lemma ReadCalls_end k n record d :
  index_ d = num_records d ->
  ReadCalls k n record d = Returns (repeat (false, record) n, d).
Proof.
  intros H. induction n as [|n IH]; [reflexivity|].
  simpl. rewrite ReadRecord_end by (left; exact H). rewrite IH. reflexivity.
Qed.

Lemma last_cons {A} (x : A) (l : list A) (d : A) :
  List.last (x :: l) d = List.last l x.
Proof.
  revert x d. induction l as [|y l IH]; intros x d; [reflexivity|].
  change (List.last (x :: y :: l) d) with (List.last (y :: l) d).
  rewrite (IH y d), (IH y x). reflexivity.
Qed.

Lemma ReadCalls_from (L : list Z) (V : list byte) k n :
  forall extra record d,
  Inv d -> dhealthy d = true ->
  limits_ d = L -> src (values_reader_ d) = V ->
  (Z.to_nat (index_ d) + n = length L)%nat ->
  let recs := map (record_bytes L V) (seq (Z.to_nat (index_ d)) n) in
  exists d',
    ReadCalls k (n + extra) record d
      = Returns (map (pair true) recs ++ repeat (false, List.last recs record) extra, d')
    /\ Inv d' /\ dhealthy d' = true /\ index_ d' = num_records d
    /\ limits_ d' = L /\ src (values_reader_ d') = V.
Proof.
  induction n as [|n IH]; intros extra record d HI Hh HL HV Hn recs.
  - assert (Hidx : index_ d = num_records d).
    { destruct HI. unfold num_records in *. rewrite HL. lia. }
    exists d. simpl. rewrite ReadCalls_end by exact Hidx. auto 10.
  - assert (Hlt : index_ d < num_records d).
    { destruct HI. unfold num_records in *. rewrite HL. lia. }
    destruct (ReadRecord_next k record d HI Hh Hlt) as [Hread HI'].
    set (d1 := with_read d (index_ d + 1)
                 (mkReader (src (values_reader_ d))
                    (nth (Z.to_nat (index_ d)) (limits_ d) 0))) in *.
    assert (Hi1 : Z.to_nat (index_ d1) = S (Z.to_nat (index_ d))).
    { destruct HI. simpl. lia. }
    destruct (IH extra (record_bytes L V (Z.to_nat (index_ d))) d1 HI' Hh HL HV)
      as (d' & Hcalls & HId' & Hhd' & Hix & HL' & HV'); [lia|].
    exists d'. split; [|auto 10].
    change (S n + extra)%nat with (S (n + extra)).
    cbn [ReadCalls]. rewrite Hread, HL, HV, Hcalls, Hi1.
    subst recs. cbn [seq map]. rewrite last_cons. reflexivity.
Qed.

Lemma records_length L V : length (records L V) = length L.
Proof. unfold records. rewrite length_map, length_seq. reflexivity. Qed.

(** C2. For a valid chunk of N records (the decoder is healthy, satisfies its
    invariants and is at index 0), each raw [ReadRecord] overload succeeds
    exactly N times in order, the i-th read yielding
    [values[limits[i-1] .. limits[i]]] (from 0 for the first); every further
    call returns false, leaves the destination alone, and the decoder stays
    healthy: the end of the chunk is not a failure. *)
Theorem raw_reads_yield_the_records (k : RawKind) (extra : nat) (record : list byte)
    (d : ChunkDecoder) :
  invariant d = true -> dhealthy d = true -> index_ d = 0 ->
  let recs := records (limits_ d) (src (values_reader_ d)) in
  exists d',
    ReadCalls k (length (limits_ d) + extra) record d
      = Returns (map (pair true) recs ++ repeat (false, List.last recs record) extra, d')
    /\ length recs = length (limits_ d)
    /\ dhealthy d' = true
    /\ index_ d' = num_records d
    /\ ReadRecord k (List.last recs record) d' = Returns (false, List.last recs record, d').
Proof.
  intros HI Hh H0 recs. apply invariant_Inv in HI.
  destruct (ReadCalls_from (limits_ d) (src (values_reader_ d)) k (length (limits_ d))
              extra record d HI Hh eq_refl eq_refl) as (d' & Hc & HI' & Hh' & Hix & HL & HV).
  { rewrite H0. reflexivity. }
  rewrite H0 in Hc. exists d'. split; [exact Hc|].
  split; [apply records_length|]. split; [exact Hh'|]. split; [exact Hix|].
  apply ReadRecord_end. left. unfold num_records in *. rewrite HL. exact Hix.
Qed.

Section Transitions.

Context {Chunk Message FieldFilter : Type}.
Variable is_signature_or_padding : Chunk -> bool.
Variable Decode : Chunk -> option (list Z * list byte).
Variable ParseMessage : FieldFilter -> list byte -> option Message.

Lemma Reset_Inv : invariant Reset = true.
Proof. reflexivity. Qed.

Lemma ResetChunk_Inv chunk :
  invariant (snd (ResetChunk is_signature_or_padding Decode chunk)) = true.
Proof.
  unfold ResetChunk.
  destruct (is_signature_or_padding chunk); [reflexivity|].
  destruct (Decode chunk) as [[limits values]|]; [|reflexivity].
  destruct (sortedb 0 limits && in_u64 (size values)
            && in_u64 (Z.of_nat (length limits))
            && (List.last limits 0 =? size values)) eqn:E; [|reflexivity].
  apply andb_true_iff in E as [E E4]. apply andb_true_iff in E as [E E3].
  apply andb_true_iff in E as [E1 E2].
  simpl. apply invariant_Inv. apply in_u64_spec in E2, E3. apply Z.eqb_eq in E4.
  split; simpl; auto; unfold num_records, reader_size; simpl; lia.
Qed.

Lemma ReadRecord_Inv k record d :
  Inv d ->
  exists ok record' d',
    ReadRecord k record d = Returns (ok, record', d') /\ Inv d'
    /\ (ok = true -> dhealthy d' = true /\ recoverable_ d' = recoverable_ d
                      /\ index_ d' = index_ d + 1).
Proof.
  intros HI.
  destruct (dhealthy d) eqn:Hh.
  - destruct (Z.eq_dec (index_ d) (num_records d)) as [E|E].
    + exists false, record, d. rewrite ReadRecord_end by (left; exact E).
      split; [reflexivity|]. split; [exact HI|]. discriminate.
    + assert (Hlt : index_ d < num_records d) by (destruct HI; lia).
      destruct (ReadRecord_next k record d HI Hh Hlt) as [Hr HI'].
      eexists _, _, _. split; [exact Hr|]. split; [exact HI'|].
      intros _. simpl. auto.
  - exists false, record, d. rewrite ReadRecord_end by (right; exact Hh).
    split; [reflexivity|]. split; [exact HI|]. discriminate.
Qed.

Lemma SetIndex_Inv new_index d :
  Inv d -> 0 <= new_index ->
  exists d', SetIndex new_index d = Returns d' /\ Inv d'.
Proof.
  intros HI Hn. pose proof HI as [Hs Hz Hc Hb Hp Hi Hr].
  unfold SetIndex, UnsignedMin.
  set (i := Z.min new_index (num_records d)).
  assert (Hi' : 0 <= i <= num_records d) by (subst i; lia).
  destruct (Z.eqb_spec i 0) as [E|E].
  - unfold Seek. destruct (Z.leb_spec 0 (reader_size (values_reader_ d))); [|lia].
    eexists. split; [reflexivity|].
    split; simpl; auto; try lia. unfold limit_before. simpl. rewrite E. reflexivity.
  - assert (Hlt : (Z.to_nat (i - 1) < length (limits_ d))%nat)
      by (unfold num_records in Hi'; lia).
    destruct (lookup_lt_is_Some_2 _ _ Hlt) as [start Hst]. rewrite Hst.
    assert (Hle : start <= reader_size (values_reader_ d)).
    { rewrite <- Hb; [eapply sortedb_le_last; eauto|].
      intros E'. rewrite E' in Hst. discriminate. }
    unfold Seek. destruct (Z.leb_spec start (reader_size (values_reader_ d))); [|lia].
    eexists. split; [reflexivity|].
    split; simpl; auto; try lia. unfold limit_before. simpl.
    destruct (Z.eqb_spec i 0); [lia|]. exact Hst.
Qed.

Lemma ReadRecordMessage_Inv filter record d :
  Inv d ->
  exists ok record' d',
    ReadRecordMessage ParseMessage filter record d
      = Returns (ok, record', d') /\ Inv d'.
Proof.
  intros HI. unfold ReadRecordMessage.
  destruct (ReadRecord_Inv kStringView [] d HI) as (ok & bytes & d1 & Hr & HI1 & Hok).
  rewrite Hr. destruct ok.
  - destruct (ParseMessage filter bytes) as [m|].
    + eexists _, _, _. split; [reflexivity|exact HI1].
    + eexists _, _, _. split; [reflexivity|].
      destruct HI1. split; simpl; auto.
      intros _. apply healthy_Fail.
  - eexists _, _, _. split; [reflexivity|exact HI1].
Qed.

Lemma Recover_Inv d : Inv d -> Inv (snd (Recover d)).
Proof.
  intros HI. unfold Recover. destruct (recoverable_ d) eqn:E; [|exact HI].
  destruct HI. split; simpl; auto. discriminate.
Qed.

(** C5. Every operation of the decoder ([Reset], [Reset(chunk)], the three
    raw [ReadRecord] overloads, [ReadRecord] into a message, [Recover],
    [SetIndex]) returns and preserves the invariants: [limits] sorted,
    [limits.back()] equal to the size of the values when there is a record,
    the values reader at [index == 0 ? 0 : limits[index-1]],
    [index <= num_records()], and [recoverable] only on a failed decoder. *)
Theorem operations_preserve_invariants
    (op : Op Chunk Message FieldFilter) (d : ChunkDecoder) :
  invariant d = true -> op_typed op = true ->
  exists d',
    step is_signature_or_padding Decode ParseMessage op d
      = Returns d'
    /\ invariant d' = true.
Proof.
  intros HI Hty. apply invariant_Inv in HI.
  destruct op as [|chunk|k record|filter record| |new_index]; simpl.
  - exists Reset. split; [reflexivity|apply Reset_Inv].
  - eexists. split; [reflexivity|apply ResetChunk_Inv].
  - destruct (ReadRecord_Inv k record d HI) as (ok & r' & d' & Hr & HI' & _).
    rewrite Hr. exists d'. split; [reflexivity|apply invariant_Inv, HI'].
  - destruct (ReadRecordMessage_Inv filter record d HI) as (ok & r' & d' & Hr & HI').
    rewrite Hr. exists d'. split; [reflexivity|apply invariant_Inv, HI'].
  - eexists. split; [reflexivity|]. apply invariant_Inv, Recover_Inv, HI.
  - simpl in Hty. apply in_u64_spec in Hty.
    destruct (SetIndex_Inv new_index d HI) as (d' & Hs & HI'); [lia|].
    exists d'. split; [exact Hs|apply invariant_Inv, HI'].
Qed.

End Transitions.

End ChunkDecoderSpec.

(** ** The chunk decoder on a concrete chunk *)
Module ChunkDecoderExamples.
Import Base BaseFacts ChunkDecoder Samples ChunkDecoderSpec.

Example three_records_parsed :
  ResetChunk no_signature decode_three tt = (true, three_records).
Proof. reflexivity. Qed.

Example three_records_read :
  records [2; 2; 5] abcde
  = map String.list_byte_of_string ["ab"; ""; "cde"]%string.
Proof. reflexivity. Qed.

(** S5: the second record does not parse; the read fails with a data-loss
    status, [Recover()] succeeds, and the next read yields the third
    record. *)
Example S5_recovery :
  exists d1 d2 d3 d4,
    ReadRecordMessage parse_nonempty tt None three_records
      = Returns (true, Some (String.list_byte_of_string "ab"), d1)
    /\ ReadRecordMessage parse_nonempty tt None d1 = Returns (false, None, d2)
    /\ dhealthy d2 = false /\ code (status (object d2)) = kDataLoss
    /\ Recover d2 = (true, d3)
    /\ ReadRecordMessage parse_nonempty tt None d3
       = Returns (true, Some (String.list_byte_of_string "cde"), d4).
Proof. eexists _, _, _, _. repeat split; reflexivity. Qed.

Lemma raw_reads_yield_the_records_witness :
  (invariant three_records = true /\ dhealthy three_records = true
   /\ index_ three_records = 0)
  /\ exists d',
       ReadCalls kString 5 [] three_records
       = Returns ([(true, String.list_byte_of_string "ab");
                   (true, []);
                   (true, String.list_byte_of_string "cde");
                   (false, String.list_byte_of_string "cde");
                   (false, String.list_byte_of_string "cde")], d')
       /\ dhealthy d' = true.
Proof.
  split; [repeat split; reflexivity|].
  destruct (raw_reads_yield_the_records kString 2 [] three_records
              eq_refl eq_refl eq_refl) as (d' & Hc & _ & Hh & _).
  exists d'. split; [exact Hc|exact Hh].
Defined.

Lemma operations_preserve_invariants_witness :
  (invariant three_records = true /\ op_typed (@OpSetIndex unit (list byte) unit 2) = true)
  /\ exists d',
       step no_signature decode_three parse_nonempty (OpSetIndex 2) three_records
       = Returns d'
       /\ invariant d' = true.
Proof.
  split; [split; reflexivity|].
  exact (operations_preserve_invariants no_signature decode_three parse_nonempty
           (OpSetIndex 2) three_records eq_refl eq_refl).
Defined.

End ChunkDecoderExamples.

(** ** The limiting writer *)
Module LimitingWriterSpec.
Import Base BaseFacts Writer LimitingWriter.

Lemma well_formed_spec w :
  well_formed w = true <->
  0 <= start_pos w /\ 0 <= start_to_cursor w <= start_to_limit w
  /\ start_pos w + start_to_limit w < two64.
Proof.
  unfold well_formed. rewrite !andb_true_iff, !Z.leb_le, Z.ltb_lt. tauto.
Qed.

Lemma pos_well_formed w :
  well_formed w = true -> pos w = start_pos w + start_to_cursor w.
Proof.
  intros H. apply well_formed_spec in H. unfold pos. apply wrap64_small. lia.
Qed.

Section Contract.

Context {Sink Reader : Type}.
Variable dest_ : Methods Sink Reader.

Variable inv : Dest Sink -> Prop.
Hypothesis laws : Laws dest_ inv.

Lemma Limited_pos l d : Limited inv l d -> lpos l <= max_pos_ l.
Proof.
  intros [Hm Hw Hr _]. unfold lpos. rewrite pos_well_formed by exact Hw.
  apply well_formed_spec in Hw. lia.
Qed.

(** Sync-buffer on a healthy limited writer. *)
Lemma SyncBuffer_Limited l d :
  Limited inv l d -> lhealthy l = true ->
  let d1 := dest_set_cursor (start_to_cursor (base l)) d in
  SyncBuffer l d = (true, l, d1) /\ inv d1 /\ pos (dw d1) = lpos l
  /\ start_pos (dw d1) = start_pos (base l).
Proof.
  intros HL Hh d1. pose proof (Limited_pos l d HL) as Hp.
  destruct HL as [Hm Hw Hr Hs]. destruct (Hs Hh) as (Hi & Hsp & Hsl).
  pose proof Hw as Hw'. apply well_formed_spec in Hw'.
  assert (Hi1 : inv d1) by (apply (law_set_cursor laws); [exact Hi|lia]).
  split; [reflexivity|]. split; [exact Hi1|].
  split; [|simpl; congruence].
  unfold lpos, pos, d1. simpl. rewrite Hsp. reflexivity.
Qed.

(** Make-buffer after an inner call that left the inner position within the
    limit. *)
Lemma MakeBuffer_Limited l d2 :
  0 <= max_pos_ l < two64 ->
  inv d2 -> pos (dw d2) <= max_pos_ l ->
  Limited inv (MakeBuffer l d2) d2 /\ max_pos_ (MakeBuffer l d2) = max_pos_ l.
Proof.
  intros Hm Hi2 Hp2. split; [|reflexivity].
  pose proof (law_wf laws d2 Hi2) as Hw2.
  rewrite pos_well_formed in Hp2 by exact Hw2.
  apply well_formed_spec in Hw2.
  assert (Hroom : wrap64 (max_pos_ l - start_pos (dw d2)) = max_pos_ l - start_pos (dw d2))
    by (apply wrap64_small; lia).
  unfold MakeBuffer, UnsignedMin. rewrite Hroom.
  destruct (whealthy (dw d2)) eqn:Hd2.
  - split; simpl; try exact Hm.
    + apply well_formed_spec. simpl. lia.
    + lia.
    + intros _. split; [exact Hi2|]. split; [reflexivity|lia].
  - split; simpl; try exact Hm.
    + apply well_formed_spec. simpl. lia.
    + lia.
    + unfold lhealthy, whealthy. simpl. rewrite healthy_Fail. discriminate.
Qed.

Lemma unhealthy_Limited l d d' b :
  Limited inv l d ->
  start_pos b = start_pos (base l) -> start_to_cursor b = start_to_cursor (base l) ->
  start_to_limit b = start_to_limit (base l) -> whealthy b = false ->
  Limited inv (with_base b l) d'.
Proof.
  intros [Hm Hw Hr Hs] H1 H2 H3 H4. split; simpl; try exact Hm.
  - apply well_formed_spec. apply well_formed_spec in Hw. rewrite H1, H2, H3. exact Hw.
  - rewrite H1, H3. exact Hr.
  - unfold lhealthy. simpl. rewrite H4. discriminate.
Qed.

(** [FailLimitExceeded] on a synchronized writer within its limit: the
    64-bit subtraction leaves the inner writer at [max_pos]. *)
Lemma FailLimitExceeded_pos l d1 :
  well_formed (base l) = true -> 0 <= max_pos_ l < two64 ->
  lpos l <= max_pos_ l -> start_pos (dw d1) = start_pos (base l) ->
  pos (dw (snd (FailLimitExceeded dest_ l d1))) = max_pos_ l.
Proof.
  intros Hw Hm Hp Hsp. unfold lpos in Hp. rewrite pos_well_formed in Hp by exact Hw.
  unfold FailLimitExceeded, lpos. rewrite (pos_well_formed _ Hw).
  apply well_formed_spec in Hw. simpl. unfold pos, wrap64. simpl.
  rewrite Zminus_mod_idemp_r, Zplus_mod_idemp_r, Hsp.
  replace (start_pos (base l)
           + (start_to_cursor (base l)
              - (start_pos (base l) + start_to_cursor (base l) - max_pos_ l)))
    with (max_pos_ l) by lia.
  apply Z.mod_small. exact Hm.
Qed.

Lemma slow_call_Limited (l : LimitingWriter) (d d2 : Dest Sink) (bound : Z) :
  Limited inv l d -> lhealthy l = true ->
  let d1 := dest_set_cursor (start_to_cursor (base l)) d in
  (inv d1 -> pos (dw d1) = lpos l ->
   inv d2 /\ pos (dw d2) <= Z.max bound (lpos l)) ->
  bound <= max_pos_ l ->
  Limited inv (MakeBuffer l d2) d2 /\ max_pos_ (MakeBuffer l d2) = max_pos_ l.
Proof.
  intros HL Hh d1 Hf Hb.
  destruct (SyncBuffer_Limited l d HL Hh) as (_ & Hi1 & Hp1 & _). fold d1 in Hi1, Hp1.
  destruct (Hf Hi1 Hp1) as [Hi2 Hp2].
  pose proof (Limited_pos l d HL) as Hp.
  apply MakeBuffer_Limited; [destruct HL; assumption|exact Hi2|lia].
Qed.

Lemma room_Limited l d :
  Limited inv l d -> wrap64 (max_pos_ l - lpos l) = max_pos_ l - lpos l.
Proof.
  intros HL. pose proof (Limited_pos l d HL) as Hp. destruct HL as [Hm Hw _ _].
  apply wrap64_small. unfold lpos in *. rewrite pos_well_formed in * by exact Hw.
  apply well_formed_spec in Hw. lia.
Qed.

(** Every call that stays within [call_within] keeps the pair limited. *)
Lemma call_Limited c l d :
  Limited inv l d -> call_within (max_pos_ l) c = true ->
  Limited inv (fst (call dest_ c l d)) (snd (call dest_ c l d))
  /\ max_pos_ (fst (call dest_ c l d)) = max_pos_ l.
Proof.
  intros HL Hc. pose proof (Limited_pos l d HL) as Hp.
  pose proof (room_Limited l d HL) as Hroom.
  destruct c as [n|m r|src|n|p| |n|p|]; simpl.
  - (* the producer fills the window *)
    destruct ((0 <=? n) && (n <=? available (base l))) eqn:E; [|split; [exact HL|reflexivity]].
    apply andb_true_iff in E as [E1 E2]. apply Z.leb_le in E1, E2.
    destruct HL as [Hm Hw Hr Hs]. pose proof Hw as Hw'. apply well_formed_spec in Hw'.
    unfold available in E2. rewrite wrap64_small in E2 by lia.
    split; [|reflexivity]. split; simpl; try exact Hm; try exact Hr.
    + apply well_formed_spec. simpl. rewrite wrap64_small by lia. lia.
    + exact Hs.
  - (* Push *)
    unfold PushSlow. destruct (lhealthy l) eqn:Hh; simpl; [|split; [exact HL|reflexivity]].
    destruct (Push dest_ m r _) as [ok d2] eqn:E. simpl.
    apply (slow_call_Limited l d d2 (lpos l) HL Hh); [|lia]. intros Hi1 Hp1.
    destruct (law_Push laws m r _ Hi1) as [Ha Hb]. rewrite E in Ha, Hb. simpl in *.
    split; [exact Ha|lia].
  - (* Write *)
    unfold WriteInternal. destruct (lhealthy l) eqn:Hh; simpl; [|split; [exact HL|reflexivity]].
    rewrite Hroom.
    destruct (Z.gtb_spec (size src) (max_pos_ l - lpos l)) as [E|E].
    + simpl. split; [|reflexivity]. apply (unhealthy_Limited l d); auto.
      unfold whealthy. simpl. apply healthy_Fail.
    + destruct (Write dest_ src _) as [ok d2] eqn:Ew. simpl.
      apply (slow_call_Limited l d d2 (lpos l + size src) HL Hh); [|lia]. intros Hi1 Hp1.
      destruct (law_Write laws src _ Hi1) as [Ha Hb]. rewrite Ew in Ha, Hb. simpl in *.
      split; [exact Ha|lia].
  - (* WriteZeros *)
    unfold WriteZerosSlow. destruct (lhealthy l) eqn:Hh; simpl; [|split; [exact HL|reflexivity]].
    rewrite Hroom.
    destruct (Z.gtb_spec n (max_pos_ l - lpos l)) as [E|E].
    + simpl. split; [|reflexivity]. apply (unhealthy_Limited l d); auto.
      unfold whealthy. simpl. apply healthy_Fail.
    + destruct (WriteZeros dest_ n _) as [ok d2] eqn:Ew. simpl.
      apply (slow_call_Limited l d d2 (lpos l + Z.max 0 n) HL Hh); [|lia]. intros Hi1 Hp1.
      destruct (law_WriteZeros laws n _ Hi1) as [Ha Hb]. rewrite Ew in Ha, Hb. simpl in *.
      split; [exact Ha|lia].
  - (* Seek *)
    simpl in Hc. apply Z.leb_le in Hc.
    unfold SeekSlow. destruct (lhealthy l) eqn:Hh; simpl; [|split; [exact HL|reflexivity]].
    destruct (Seek dest_ _ _) as [ok d2] eqn:Ew. simpl.
    apply (slow_call_Limited l d d2 (UnsignedMin p (max_pos_ l)) HL Hh);
      [|unfold UnsignedMin; lia]. intros Hi1 Hp1.
    destruct (law_Seek laws (UnsignedMin p (max_pos_ l)) _ Hi1) as [Ha Hb].
    { destruct HL. unfold UnsignedMin. lia. }
    rewrite Ew in Ha, Hb. simpl in *. split; [exact Ha|lia].
  - (* Size *)
    unfold SizeImpl. destruct (lhealthy l) eqn:Hh; simpl; [|split; [exact HL|reflexivity]].
    destruct (Size dest_ _) as [sz d2] eqn:Ew.
    assert (H : Limited inv (MakeBuffer l d2) d2 /\ max_pos_ (MakeBuffer l d2) = max_pos_ l).
    { apply (slow_call_Limited l d d2 (lpos l) HL Hh); [|lia]. intros Hi1 Hp1.
      destruct (law_Size laws _ Hi1) as [Ha Hb]. rewrite Ew in Ha, Hb. simpl in *.
      split; [exact Ha|lia]. }
    destruct sz; exact H.
  - (* Truncate *)
    simpl in Hc. apply andb_true_iff in Hc as [Hc1 Hc2]. apply Z.leb_le in Hc1, Hc2.
    unfold TruncateImpl. destruct (lhealthy l) eqn:Hh; simpl; [|split; [exact HL|reflexivity]].
    destruct (Truncate dest_ _ _) as [ok d2] eqn:Ew. simpl.
    apply (slow_call_Limited l d d2 n HL Hh); [|lia]. intros Hi1 Hp1.
    destruct (law_Truncate laws n _ Hi1 Hc1) as [Ha Hb].
    rewrite Ew in Ha, Hb. simpl in *. split; [exact Ha|lia].
  - (* ReadMode *)
    unfold ReadModeImpl. destruct (lhealthy l) eqn:Hh; simpl; [|split; [exact HL|reflexivity]].
    destruct (ReadMode dest_ _ _) as [rd d2] eqn:Ew. simpl.
    apply (slow_call_Limited l d d2 (lpos l) HL Hh); [|lia]. intros Hi1 Hp1.
    destruct (law_ReadMode laws p _ Hi1) as [Ha Hb]. rewrite Ew in Ha, Hb. simpl in *.
    split; [exact Ha|lia].
  - (* Close *)
    destruct HL as [Hm Hw Hr Hs]. pose proof Hw as Hw'. apply well_formed_spec in Hw'.
    unfold lpos in Hp. rewrite pos_well_formed in Hp by exact Hw.
    unfold Close. destruct (is_open (object (base l))) eqn:Ho; simpl;
      [|split; [split; assumption|reflexivity]].
    unfold DoneDest, Done, SyncBuffer.
    destruct (lhealthy l); simpl;
      destruct (exact_ l && (lpos l <? max_pos_ l)); simpl;
      destruct (dest_is_owning dest_); simpl;
      try (destruct (dest_Close dest_ _) as [[|] d2]; simpl);
      (split; [|reflexivity]);
      (split; simpl; try exact Hm;
       [ apply well_formed_spec; unfold pos; simpl; rewrite wrap64_small by lia; lia
       | unfold pos; simpl; rewrite wrap64_small by lia; lia
       | unfold lhealthy, whealthy, healthy; simpl; discriminate ]).
Qed.

Lemma calls_Limited cs l d :
  Limited inv l d -> forallb (call_within (max_pos_ l)) cs = true ->
  Limited inv (fst (calls dest_ cs l d)) (snd (calls dest_ cs l d))
  /\ max_pos_ (fst (calls dest_ cs l d)) = max_pos_ l.
Proof.
  revert l d. induction cs as [|c cs IH]; intros l d HL Hcs; [split; [exact HL|reflexivity]|].
  simpl in Hcs. apply andb_true_iff in Hcs as [Hc Hcs].
  destruct (call_Limited c l d HL Hc) as [HL' Hm'].
  simpl. destruct (call dest_ c l d) as [l' d']. simpl in *.
  rewrite <- Hm' in Hcs. destruct (IH l' d' HL' Hcs) as [HL'' Hm''].
  split; [exact HL''|congruence].
Qed.

Lemma Initialize_Limited max_pos exact d0 :
  0 <= max_pos < two64 -> inv d0 -> pos (dw d0) <= max_pos ->
  Limited inv (Initialize max_pos exact d0) d0
  /\ max_pos_ (Initialize max_pos exact d0) = max_pos.
Proof. intros Hm Hi Hp. unfold Initialize. apply MakeBuffer_Limited; assumption. Qed.

(** A write beyond the room left, on a healthy limited writer. *)
Lemma WriteInternal_over_limit src l d :
  Limited inv l d -> lhealthy l = true -> size src > max_pos_ l - lpos l ->
  let d1 := dest_set_cursor (start_to_cursor (base l)) d in
  let r := FailLimitExceeded dest_ l d1 in
  WriteInternal dest_ src l d = r
  /\ fst (fst r) = false
  /\ lhealthy (snd (fst r)) = false
  /\ status (object (base (snd (fst r))))
     = AnnotateStatus dest_ (ResourceExhaustedError "Position limit exceeded") (snd r)
  /\ pos (dw (snd r)) = max_pos_ l
  /\ lpos (snd (fst r)) = lpos l.
Proof.
  intros HL Hh Hsz d1 r.
  destruct (SyncBuffer_Limited l d HL Hh) as (_ & _ & _ & Hsp). fold d1 in Hsp.
  pose proof (Limited_pos l d HL) as Hp. pose proof (room_Limited l d HL) as Hroom.
  split.
  - unfold WriteInternal. rewrite Hh. simpl. rewrite Hroom.
    destruct (Z.gtb_spec (size src) (max_pos_ l - lpos l)); [reflexivity|lia].
  - split; [reflexivity|]. split.
    { unfold lhealthy, whealthy. simpl. apply healthy_Fail. }
    split.
    { simpl. unfold lhealthy, whealthy in Hh. rewrite (Fail_healthy _ _ Hh). reflexivity. }
    split; [|reflexivity].
    destruct HL as [Hm Hw _ _]. apply FailLimitExceeded_pos; assumption.
Qed.

(** What the limit does guarantee.  Take a limiting writer constructed over
    an inner writer that honours the position contract, at a position within
    [max_pos], and any sequence of calls in which no [Truncate] is given a
    size beyond [max_pos]. Then [pos() <= max_pos] after the sequence; and if
    the writer is healthy, a [Write] of more than [max_pos - pos()] bytes
    returns false, latches the inner writer's annotation of the
    resource-exhausted status "Position limit exceeded", leaves its own
    position alone, and leaves the inner writer exactly at [max_pos] (so not
    past it). *)
Theorem limit_is_enforced max_pos exact (d0 : Dest Sink) (cs : list Call)
    (src : list byte) :
  0 <= max_pos < two64 -> inv d0 -> pos (dw d0) <= max_pos ->
  forallb (call_within max_pos) cs = true ->
  let l := fst (calls dest_ cs (Initialize max_pos exact d0) d0) in
  let d := snd (calls dest_ cs (Initialize max_pos exact d0) d0) in
  lpos l <= max_pos
  /\ (lhealthy l = true -> size src > max_pos - lpos l ->
      let r := WriteInternal dest_ src l d in
      fst (fst r) = false
      /\ status (object (base (snd (fst r))))
         = AnnotateStatus dest_ (ResourceExhaustedError "Position limit exceeded") (snd r)
      /\ pos (dw (snd r)) = max_pos
      /\ lpos (snd (fst r)) = lpos l).
Proof.
  intros Hm Hi Hp Hcs l d.
  destruct (Initialize_Limited max_pos exact d0 Hm Hi Hp) as [HL0 Hm0].
  destruct (calls_Limited cs _ d0 HL0) as [HL Hmax]; [rewrite Hm0; exact Hcs|].
  fold l d in HL, Hmax. rewrite Hm0 in Hmax.
  split; [rewrite <- Hmax; apply (Limited_pos l d HL)|].
  intros Hh Hsz r. rewrite <- Hmax in Hsz.
  destruct (WriteInternal_over_limit src l d HL Hh Hsz) as (Hr & H1 & H2 & H3 & H4 & H5).
  subst r. rewrite Hr. rewrite <- Hmax. auto.
Qed.

(** C4, amended. On a healthy limiting writer, [Seek(p)] seeks the inner
    writer, once synchronized, to [min(p, max_pos)], and returns true exactly
    when that inner seek succeeds and [p <= max_pos]. *)
Theorem SeekSlow_clamps (new_pos : Z) (l : LimitingWriter) (d : Dest Sink) :
  lhealthy l = true ->
  let d1 := dest_set_cursor (start_to_cursor (base l)) d in
  let r := Seek dest_ (Z.min new_pos (max_pos_ l)) d1 in
  SeekSlow dest_ new_pos l d
    = (fst r && (new_pos <=? max_pos_ l), MakeBuffer l (snd r), snd r)
  /\ (fst (fst (SeekSlow dest_ new_pos l d)) = true
      <-> fst r = true /\ new_pos <= max_pos_ l).
Proof.
  intros Hh d1 r.
  assert (E : SeekSlow dest_ new_pos l d
              = (fst r && (new_pos <=? max_pos_ l), MakeBuffer l (snd r), snd r)).
  { unfold SeekSlow. rewrite Hh. simpl. unfold UnsignedMin. fold d1. fold r.
    destruct r as [ok d2]. simpl. f_equal. f_equal. f_equal.
    destruct (Z.leb_spec new_pos (max_pos_ l)); [apply Z.eqb_eq|apply Z.eqb_neq]; lia. }
  split; [exact E|]. rewrite E. simpl.
  rewrite andb_true_iff, Z.leb_le. tauto.
Qed.

(** C3, amended. Closing a healthy open limiting writer in exact mode.  The
    writer ends closed, and the inner writer, brought to [pos()], is closed
    too when it is owned.  When the position is below [max_pos], [Close()]
    returns false and the status is the inner writer's annotation of the
    invalid-argument status "Not enough data: expected <max_pos>": an
    invalid-argument status when annotation keeps the code, and that very
    status when the inner writer adds nothing.  When the position equals
    [max_pos], [Close()] returns true exactly when the inner writer is not
    owned or its own [Close()] succeeds, and then no failure is latched;
    otherwise the status is the inner writer's. *)
Theorem Close_exact (l : LimitingWriter) (d : Dest Sink) :
  lhealthy l = true -> exact_ l = true ->
  let d1 := dest_set_cursor (start_to_cursor (base l)) d in
  let r := Close dest_ l d in
  let not_enough :=
    InvalidArgumentError
      (String.append "Not enough data: expected " (StrCatNum (max_pos_ l))) in
  is_open (object (base (snd (fst r)))) = false
  /\ snd r = (if dest_is_owning dest_ then snd (dest_Close dest_ d1) else d1)
  /\ (lpos l < max_pos_ l ->
      fst (fst r) = false
      /\ status (object (base (snd (fst r)))) = AnnotateStatus dest_ not_enough d1
      /\ ((forall st d', code (AnnotateStatus dest_ st d') = code st) ->
          code (status (object (base (snd (fst r))))) = kInvalidArgument)
      /\ ((forall st d', AnnotateStatus dest_ st d' = st) ->
          status (object (base (snd (fst r)))) = not_enough))
  /\ (lpos l = max_pos_ l ->
      (fst (fst r) = true
       <-> dest_is_owning dest_ = false \/ fst (dest_Close dest_ d1) = true)
      /\ (fst (fst r) = true -> failure (object (base (snd (fst r)))) = None)
      /\ (fst (fst r) = false ->
          status (object (base (snd (fst r))))
          = status (object (dw (snd (dest_Close dest_ d1)))))).
Proof.
  intros Hh He d1 r not_enough. subst r.
  destruct l as [[[op fl] sp sc sl] mp ex]. simpl in He. subst ex.
  unfold lhealthy, whealthy, healthy in Hh. simpl in Hh.
  destruct op; [|discriminate]. destruct fl; [discriminate|]. clear Hh.
  unfold Close, DoneDest, Done, SyncBuffer, lhealthy, whealthy, healthy, lpos in *.
  cbn [base object is_open failure exact_ max_pos_ start_to_cursor negb andb fst snd] in *.
  fold d1.
  destruct (Z.ltb_spec (pos (mkWriter (mkObject true None) sp sc sl)) mp) as [Hlt|Hge].
  - destruct (dest_is_owning dest_).
    + destruct (dest_Close dest_ d1) as [[|] d2]; cbn;
        (split; [reflexivity|]); (split; [reflexivity|]); (split; [|lia]); intros _;
        (split; [reflexivity|]); (split; [reflexivity|]);
        (split; [intros Hc; apply Hc|intros Ha; apply Ha]).
    + cbn. split; [reflexivity|]. split; [reflexivity|]. split; [|lia]. intros _.
      split; [reflexivity|]. split; [reflexivity|].
      split; [intros Hc; apply Hc|intros Ha; apply Ha].
  - destruct (dest_is_owning dest_).
    + destruct (dest_Close dest_ d1) as [[|] d2]; cbn;
        (split; [reflexivity|]); (split; [reflexivity|]); (split; [lia|]); intros _.
      * split; [split; auto|]. split; [reflexivity|discriminate].
      * split; [split; [discriminate|intros [H|H]; discriminate H]|].
        split; [discriminate|reflexivity].
    + cbn. split; [reflexivity|]. split; [reflexivity|]. split; [lia|]. intros _.
      split; [split; auto|]. split; [reflexivity|discriminate].
Qed.

End Contract.

End LimitingWriterSpec.

(** ** The limiting writer over the concrete inner writer *)
Module LimitingWriterExamples.
Import Base BaseFacts Writer LimitingWriter SizedSink Samples MoreSamples.
Import LimitingWriterSpec.

Lemma sink_ok_spec (d : D) :
  sink_ok d <->
  0 <= start_pos (dw d) /\ 0 <= start_to_cursor (dw d) <= start_to_limit (dw d)
  /\ start_pos (dw d) + start_to_limit (dw d) < two64
  /\ 0 <= file_size (sink d) < two64.
Proof. unfold sink_ok. rewrite well_formed_spec. tauto. Qed.

Lemma sink_pos (d : D) :
  sink_ok d -> pos (dw d) = start_pos (dw d) + start_to_cursor (dw d).
Proof. intros [H _]. apply pos_well_formed, H. Qed.

Ltac sink_case :=
  match goal with
  | |- context [if negb (whealthy ?w) then _ else _] =>
      destruct (whealthy w); simpl
  | |- context [if ?b || ?c then _ else _] =>
      let E := fresh "E" in destruct (b || c) eqn:E; simpl;
      [|apply orb_false_iff in E as [? ?]]
  | |- context [if ?b && ?c then _ else _] =>
      let E := fresh "E" in destruct (b && c) eqn:E; simpl;
      [apply andb_true_iff in E as [? ?]|apply andb_false_iff in E]
  end.

Ltac sink_arith Hw :=
  repeat match goal with
         | H : (_ <=? _) = true |- _ => apply Z.leb_le in H
         | H : (_ <=? _) = false |- _ => apply Z.leb_gt in H
         | H : (_ <? _) = true |- _ => apply Z.ltb_lt in H
         | H : (_ <? _) = false |- _ => apply Z.ltb_ge in H
         | H : _ \/ _ |- _ => destruct H
         end;
  rewrite ?sink_ok_spec; unfold pos; simpl; rewrite ?Hw, ?Z.add_0_r, ?Hw;
  repeat rewrite wrap64_small by lia;
  try lia.

Ltac sink_law d Hd :=
  apply sink_ok_spec in Hd; destruct Hd as (? & ? & ? & ?);
  let Hw := fresh "Hw" in
  assert (Hw : wrap64 (start_pos (dw d) + start_to_cursor (dw d))
               = start_pos (dw d) + start_to_cursor (dw d))
    by (apply wrap64_small; lia);
  unfold pos; simpl; rewrite ?Hw;
  repeat sink_case;
  (split; sink_arith Hw).

(** The concrete inner writer honours the contract [Laws]. *)
Lemma sink_laws : Laws methods sink_ok.
Proof.
  split; simpl.
  - intros d [H _]. exact H.
  - intros d c Hd Hc. apply sink_ok_spec in Hd. apply sink_ok_spec. simpl. lia.
  - intros m r d Hd. unfold sPush, commit, fail. sink_law d Hd.
  - intros src d Hd. unfold sWrite, append, commit, fail.
    assert (0 <= size src) by (unfold size; lia). sink_law d Hd.
  - intros n d Hd. unfold sWriteZeros, append, commit, fail. sink_law d Hd.
  - intros p d Hd Hp. unfold sSeek, seek_to, commit. sink_law d Hd.
  - intros d Hd. unfold sSize. sink_law d Hd.
  - intros n d Hd Hn. unfold sTruncate, seek_to, commit. sink_law d Hd.
  - intros p d Hd. unfold sReadMode, fail. sink_law d Hd.
Qed.

(** S4: ten bytes then close succeeds; nine bytes then close fails with
    "Not enough data: expected 10"; eleven bytes fail and leave the inner
    writer at position 10. *)
Example S4_ten_bytes :
  let '(ok, l, d) := WriteInternal methods (As 10) exact10 empty_sink in
  ok = true /\ fst (fst (Close methods l d)) = true.
Proof. vm_compute. split; reflexivity. Qed.

Example S4_nine_bytes :
  let '(ok, l, d) := WriteInternal methods (As 9) exact10 empty_sink in
  ok = true
  /\ fst (fst (Close methods l d)) = false
  /\ status (object (base (snd (fst (Close methods l d)))))
     = InvalidArgumentError "Not enough data: expected 10".
Proof. vm_compute. repeat split; reflexivity. Qed.

Example S4_eleven_bytes :
  let '(ok, l, d) := WriteInternal methods (As 11) exact10 empty_sink in
  ok = false
  /\ code (status (object (base l))) = kResourceExhausted
  /\ pos (dw d) = 10.
Proof. vm_compute. repeat split; reflexivity. Qed.

(** C1, a defect of the code.  [TruncateImpl] hands the new size to the
    inner writer without clamping it to [max_pos], unlike [SeekSlow]: after
    [Truncate(15)] on a limiting writer with [max_pos = 10] over an inner
    writer that holds 20 bytes, the call has returned true, the writer is
    healthy and [pos()] is 15, beyond [max_pos].  The start of its buffer is
    then beyond [max_pos] too, which [PushSlow] and [WriteInternal] assert
    never to happen ("position already exceeds its limit"). *)
Lemma Truncate_passes_max_pos :
  fst (fst (TruncateImpl methods 15 (Initialize 10 false sink20) sink20)) = true
  /\ lhealthy (fst (calls methods [CallTruncate 15] (Initialize 10 false sink20) sink20))
     = true
  /\ max_pos_ (fst (calls methods [CallTruncate 15] (Initialize 10 false sink20) sink20))
     = 10
  /\ lpos (fst (calls methods [CallTruncate 15] (Initialize 10 false sink20) sink20))
     = 15
  /\ ~ (lpos (fst (calls methods [CallTruncate 15] (Initialize 10 false sink20) sink20))
        <= max_pos_ (fst (calls methods [CallTruncate 15] (Initialize 10 false sink20)
                            sink20)))
  /\ start_pos (base (fst (calls methods [CallTruncate 15] (Initialize 10 false sink20)
                             sink20))) = 15.
Proof.
  assert (Hm : max_pos_ (fst (calls methods [CallTruncate 15]
                                (Initialize 10 false sink20) sink20)) = 10)
    by (vm_compute; reflexivity).
  assert (Hp : lpos (fst (calls methods [CallTruncate 15]
                            (Initialize 10 false sink20) sink20)) = 15)
    by (vm_compute; reflexivity).
  split; [vm_compute; reflexivity|]. split; [vm_compute; reflexivity|].
  split; [exact Hm|]. split; [exact Hp|].
  split; [rewrite Hm, Hp; lia|vm_compute; reflexivity].
Qed.

(** The inner writer's cursor is not rewound when a [Write] is refused below
    [max_pos]: [FailLimitExceeded] moves it forwards.  With [max_pos = 10]
    and seven bytes written, both writers are at position 7 with an empty
    window; a [Write] of four bytes is refused, the limiting writer stays at
    7, and the inner writer's cursor is put three bytes beyond the limit of
    its window, at position 10. *)
Example FailLimitExceeded_moves_forwards :
  let l := fst (calls methods [CallWrite (As 7)] (Initialize 10 false empty_sink)
                  empty_sink) in
  let d := snd (calls methods [CallWrite (As 7)] (Initialize 10 false empty_sink)
                  empty_sink) in
  let r := WriteInternal methods (As 4) l d in
  lhealthy l = true /\ lpos l = 7 /\ pos (dw d) = 7
  /\ start_to_cursor (dw d) = 0 /\ start_to_limit (dw d) = 0
  /\ fst (fst r) = false
  /\ code (status (object (base (snd (fst r))))) = kResourceExhausted
  /\ lpos (snd (fst r)) = 7
  /\ pos (dw (snd r)) = 10
  /\ start_to_cursor (dw (snd r)) = 3 /\ start_to_limit (dw (snd r)) = 0
  /\ well_formed (dw (snd r)) = false.
Proof. vm_compute. repeat split; reflexivity. Qed.

Lemma empty_sink_ok : sink_ok empty_sink.
Proof. split; [reflexivity|]. simpl. unfold two64. lia. Qed.

Lemma limit_is_enforced_witness :
  (0 <= 10 < two64 /\ sink_ok empty_sink /\ pos (dw empty_sink) <= 10
   /\ forallb (call_within 10) some_calls = true)
  /\ lpos (fst (calls methods some_calls exact10 empty_sink)) <= 10
  /\ fst (fst (WriteInternal methods (As 1)
                 (fst (calls methods some_calls exact10 empty_sink))
                 (snd (calls methods some_calls exact10 empty_sink)))) = false
  /\ pos (dw (snd (WriteInternal methods (As 1)
                     (fst (calls methods some_calls exact10 empty_sink))
                     (snd (calls methods some_calls exact10 empty_sink))))) = 10.
Proof.
  assert (H1 : 0 <= 10 < two64) by (unfold two64; lia).
  assert (H3 : pos (dw empty_sink) <= 10) by (vm_compute; discriminate).
  assert (H4 : forallb (call_within 10) some_calls = true) by reflexivity.
  split; [exact (conj H1 (conj empty_sink_ok (conj H3 H4)))|].
  destruct (limit_is_enforced methods sink_ok sink_laws 10 true empty_sink some_calls
              (As 1) H1 empty_sink_ok H3 H4) as [Hpos Hw].
  split; [exact Hpos|].
  destruct Hw as (Hf & _ & Hp & _); [reflexivity|vm_compute; reflexivity|].
  split; [exact Hf|exact Hp].
Defined.

(** C4, as stated, fails: [Seek(5)] with [max_pos = 10] over an inner writer
    that holds 3 bytes returns false although [5 <= max_pos], because the
    inner seek fails; the limiting writer was healthy. *)
Lemma Seek_fails_within_max_pos :
  lhealthy (Initialize 10 false sink3) = true
  /\ fst (fst (SeekSlow methods 5 (Initialize 10 false sink3) sink3)) = false
  /\ ~ (5 > max_pos_ (Initialize 10 false sink3)).
Proof.
  split; [reflexivity|]. split; [vm_compute; reflexivity|]. simpl. lia.
Qed.

Lemma SeekSlow_clamps_witness :
  lhealthy (Initialize 10 false sink20) = true
  /\ SeekSlow methods 5 (Initialize 10 false sink20) sink20
     = (true, MakeBuffer (Initialize 10 false sink20) (snd (sSeek 5 sink20)),
        snd (sSeek 5 sink20))
  /\ SeekSlow methods 12 (Initialize 10 false sink20) sink20
     = (false, MakeBuffer (Initialize 10 false sink20) (snd (sSeek 10 sink20)),
        snd (sSeek 10 sink20)).
Proof.
  split; [reflexivity|]. split.
  - exact (proj1 (SeekSlow_clamps methods 5 (Initialize 10 false sink20) sink20 eq_refl)).
  - exact (proj1 (SeekSlow_clamps methods 12 (Initialize 10 false sink20) sink20 eq_refl)).
Defined.

(** C3, as stated, fails.  On a writer that has already failed: after ten
    bytes and a refused eleventh the position equals [max_pos], yet
    [Close()] returns false, and the status is the earlier
    resource-exhausted one.  Over an inner writer that annotates statuses:
    after nine bytes [Close()] fails, and the message of its status is not
    "Not enough data: expected 10" but that text with the inner writer's
    annotation.  Over an owned inner writer whose [Close()] fails: after ten
    bytes the writer is healthy at [max_pos], yet [Close()] returns false. *)
Lemma Close_after_overrun :
  (exact_ (fst (calls methods overrun_calls exact10 empty_sink)) = true
   /\ lpos (fst (calls methods overrun_calls exact10 empty_sink))
      = max_pos_ (fst (calls methods overrun_calls exact10 empty_sink))
   /\ fst (fst (Close methods (fst (calls methods overrun_calls exact10 empty_sink))
                  (snd (calls methods overrun_calls exact10 empty_sink)))) = false
   /\ code (status (object (base (snd (fst
              (Close methods (fst (calls methods overrun_calls exact10 empty_sink))
                 (snd (calls methods overrun_calls exact10 empty_sink))))))))
      = kResourceExhausted)
  /\ (lhealthy (fst (calls annotating_methods [CallWrite (As 9)] exact10 empty_sink))
      = true
      /\ lpos (fst (calls annotating_methods [CallWrite (As 9)] exact10 empty_sink)) = 9
      /\ status (object (base (snd (fst
             (Close annotating_methods
                (fst (calls annotating_methods [CallWrite (As 9)] exact10 empty_sink))
                (snd (calls annotating_methods [CallWrite (As 9)] exact10 empty_sink)))))))
         = InvalidArgumentError "Not enough data: expected 10; at byte 9"
      /\ message (status (object (base (snd (fst
             (Close annotating_methods
                (fst (calls annotating_methods [CallWrite (As 9)] exact10 empty_sink))
                (snd (calls annotating_methods [CallWrite (As 9)] exact10 empty_sink))))))))
         <> "Not enough data: expected 10"%string)
  /\ (lhealthy (fst (calls failing_close_methods [CallWrite (As 10)] exact10 empty_sink))
      = true
      /\ exact_ (fst (calls failing_close_methods [CallWrite (As 10)] exact10 empty_sink))
         = true
      /\ lpos (fst (calls failing_close_methods [CallWrite (As 10)] exact10 empty_sink))
         = max_pos_
             (fst (calls failing_close_methods [CallWrite (As 10)] exact10 empty_sink))
      /\ fst (fst
            (Close failing_close_methods
               (fst (calls failing_close_methods [CallWrite (As 10)] exact10 empty_sink))
               (snd (calls failing_close_methods [CallWrite (As 10)] exact10 empty_sink))))
         = false).
Proof.
  split; [repeat split; vm_compute; reflexivity|].
  split; [|repeat split; vm_compute; reflexivity].
  split; [vm_compute; reflexivity|]. split; [vm_compute; reflexivity|].
  split; [vm_compute; reflexivity|]. vm_compute. discriminate.
Qed.

(** [Close()] at position 0, below [max_pos], and at [max_pos] over an owned
    inner writer whose [Close()] succeeds. *)
Lemma Close_exact_witness :
  (lhealthy exact10 = true /\ exact_ exact10 = true)
  /\ fst (fst (Close methods exact10 empty_sink)) = false
  /\ status (object (base (snd (fst (Close methods exact10 empty_sink)))))
     = InvalidArgumentError "Not enough data: expected 10"
  /\ code (status (object (base (snd (fst (Close methods exact10 empty_sink))))))
     = kInvalidArgument
  /\ fst (fst (Close owned_methods
                 (fst (calls owned_methods [CallWrite (As 10)] exact10 empty_sink))
                 (snd (calls owned_methods [CallWrite (As 10)] exact10 empty_sink))))
     = true.
Proof.
  split; [split; reflexivity|].
  destruct (Close_exact methods exact10 empty_sink eq_refl eq_refl) as (_ & _ & Hlt & _).
  destruct Hlt as (Hf & _ & Hc & Hs); [vm_compute; reflexivity|].
  split; [exact Hf|]. split; [exact (Hs (fun st d' => eq_refl))|].
  split; [exact (Hc (fun st d' => eq_refl))|].
  destruct (Close_exact owned_methods
              (fst (calls owned_methods [CallWrite (As 10)] exact10 empty_sink))
              (snd (calls owned_methods [CallWrite (As 10)] exact10 empty_sink))
              eq_refl eq_refl) as (_ & _ & _ & Heq).
  destruct Heq as (Hiff & _); [vm_compute; reflexivity|].
  apply Hiff. right. vm_compute. reflexivity.
Defined.

End LimitingWriterExamples.

(** ** The file descriptor writer *)
Module FdWriterSpec.
Import Base BaseFacts Posix FdWriter.

Lemma delivered_app t1 t2 : delivered (t1 ++ t2) = delivered t1 ++ delivered t2.
Proof. unfold delivered. rewrite map_app, concat_app. reflexivity. Qed.

Lemma delivered_one e : delivered [e] = delivered_by e.
Proof. unfold delivered. simpl. apply app_nil_r. Qed.

Lemma write_call_delivered src w n :
  delivered_by (write_call src w, n) = if n <? 0 then [] else take (Z.to_nat n) src.
Proof. unfold write_call. destruct (has_independent_pos_ w); reflexivity. Qed.

Lemma write_call_returned src w r :
  returned (write_call src w) r
  = if result r <? 0 then -1 else Z.min (result r) (UnsignedMin (size src) ssize_t_max).
Proof. unfold write_call, returned. destruct (has_independent_pos_ w); reflexivity. Qed.

Section WithStatus.

Variable ErrnoToCanonicalStatus : Z -> string -> Status.
Variable Annotate : Status -> string -> Status.

Local Abbreviation WriteLoop := (WriteLoop ErrnoToCanonicalStatus Annotate).
Local Abbreviation WriteInternal := (WriteInternal ErrnoToCanonicalStatus Annotate).
Local Abbreviation FailOperation := (FailOperation ErrnoToCanonicalStatus Annotate).
Local Abbreviation PushInternal := (PushInternal ErrnoToCanonicalStatus Annotate).
Local Abbreviation SyncPos := (SyncPos ErrnoToCanonicalStatus Annotate).
Local Abbreviation SeekSlow := (SeekSlow ErrnoToCanonicalStatus Annotate).
Local Abbreviation Size := (Size ErrnoToCanonicalStatus Annotate).

(** The loop, when it returns true, has handed over every byte of [src] and
    advanced [start_pos] by its size, changing nothing else. *)
Lemma WriteLoop_true replies :
  forall tr src w w' os',
  0 <= start_pos w -> start_pos w + size src < two64 ->
  WriteLoop replies tr src w = Some (true, w', os') ->
  delivered (trace os') = delivered tr ++ src
  /\ w' = set_start_pos (start_pos w + size src) w
  /\ exists used, pending os' = drop used replies.
Proof.
  induction replies as [|r rest IH]; intros tr src w w' os' H0 Hlt H; [discriminate|].
  cbn [FdWriter.WriteLoop] in H.
  set (c := write_call src w) in *. set (n := returned c r) in *.
  destruct (Z.ltb_spec n 0) as [Hneg|Hpos].
  - destruct (errno r =? EINTR); [|discriminate].
    destruct (IH _ _ _ _ _ H0 Hlt H) as (Hd & Hw & used & Hu).
    rewrite delivered_app, delivered_one in Hd. unfold c in Hd.
    rewrite write_call_delivered in Hd.
    destruct (Z.ltb_spec n 0); [|lia]. rewrite app_nil_r in Hd.
    split; [exact Hd|]. split; [exact Hw|]. exists (S used). exact Hu.
  - assert (Hn : n <= size src).
    { unfold n, c. rewrite write_call_returned. unfold UnsignedMin, size.
      destruct (result r <? 0); lia. }
    assert (Hsplit : src = take (Z.to_nat n) src ++ drop (Z.to_nat n) src)
      by (symmetry; apply take_drop).
    assert (Hlen : size (drop (Z.to_nat n) src) = size src - n).
    { unfold size in *. rewrite length_drop. lia. }
    assert (Hmv : move_start_pos n w = set_start_pos (start_pos w + n) w).
    { unfold move_start_pos. rewrite wrap64_small; [reflexivity|].
      unfold size in *. lia. }
    rewrite Hmv in H.
    destruct (drop (Z.to_nat n) src) as [|b src'] eqn:Hdrop.
    + injection H as <- <-. simpl.
      rewrite delivered_app, delivered_one. unfold c. rewrite write_call_delivered.
      destruct (Z.ltb_spec n 0); [lia|].
      rewrite app_nil_r in Hsplit. rewrite <- Hsplit.
      split; [reflexivity|]. split.
      * f_equal. unfold size in *. simpl in Hlen. lia.
      * exists 1%nat. reflexivity.
    + assert (H0' : 0 <= start_pos (set_start_pos (start_pos w + n) w)) by (simpl; lia).
      assert (Hlt' : start_pos (set_start_pos (start_pos w + n) w) + size (b :: src') < two64)
        by (rewrite Hlen; simpl; lia).
      destruct (IH _ _ _ _ _ H0' Hlt' H) as (Hd & Hw & used & Hu).
      rewrite delivered_app, delivered_one in Hd. unfold c in Hd.
      rewrite write_call_delivered in Hd. destruct (Z.ltb_spec n 0); [lia|].
      split; [rewrite Hd, <- app_assoc, <- Hsplit; reflexivity|]. split.
      * rewrite Hw, Hlen. unfold set_start_pos. simpl. f_equal. lia.
      * exists (S used). exact Hu.
Qed.

(** The loop only returns false through [FailOperation], for an error other
    than [EINTR], after handing over a prefix of [src]. *)
Lemma WriteLoop_false replies :
  forall tr src w w' os',
  WriteLoop replies tr src w = Some (false, w', os') ->
  exists e w1 op,
    e <> EINTR /\ w' = snd (FailOperation op e w1).
Proof.
  induction replies as [|r rest IH]; intros tr src w w' os' H; [discriminate|].
  cbn [FdWriter.WriteLoop] in H.
  destruct (returned (write_call src w) r <? 0).
  - destruct (Z.eqb_spec (errno r) EINTR) as [E|E]; [eapply IH; exact H|].
    injection H as H _. eexists _, _, _. split; [exact E|].
    rewrite <- H. reflexivity.
  - destruct (drop _ src); [discriminate|]. eapply IH; exact H.
Qed.

(** An interrupted call is retried: the loop goes on with the next answer,
    for the same bytes and the same writer. *)
Lemma WriteLoop_interrupted r rest tr src w :
  interrupted r ->
  WriteLoop (r :: rest) tr src w
  = WriteLoop rest (tr ++ [(write_call src w, -1)]) src w.
Proof.
  intros [Hr He]. cbn [FdWriter.WriteLoop]. rewrite write_call_returned.
  destruct (Z.ltb_spec (result r) 0); [|lia]. simpl. rewrite He. reflexivity.
Qed.

Lemma WriteLoop_interrupts rs r rest tr src w :
  Forall interrupted rs ->
  0 < size src <= result r -> size src <= ssize_t_max -> start_pos w + size src < two64 ->
  0 <= start_pos w ->
  exists tr',
    WriteLoop (rs ++ r :: rest) tr src w
    = Some (true, set_start_pos (start_pos w + size src) w, mkWorld rest tr').
Proof.
  intros Hrs Hsz Hmax Hlt H0. revert tr.
  induction Hrs as [|r0 rs Hr0 _ IH]; intros tr.
  - simpl app. cbn [FdWriter.WriteLoop]. rewrite write_call_returned.
    destruct (Z.ltb_spec (result r) 0); [lia|].
    unfold UnsignedMin. replace (Z.min (result r) (Z.min (size src) ssize_t_max))
      with (size src) by lia.
    destruct (Z.ltb_spec (size src) 0); [lia|].
    replace (drop (Z.to_nat (size src)) src) with (@nil byte)
      by (unfold size; rewrite Nat2Z.id, drop_all; reflexivity).
    unfold move_start_pos. rewrite wrap64_small by lia. eexists. reflexivity.
  - simpl app. rewrite WriteLoop_interrupted by exact Hr0. apply IH.
Qed.

Lemma WriteLoop_true_fields replies :
  forall tr src w w' os',
  WriteLoop replies tr src w = Some (true, w', os') ->
  object w' = object w /\ buffer w' = buffer w
  /\ has_independent_pos_ w' = has_independent_pos_ w /\ dest_fd w' = dest_fd w.
Proof.
  induction replies as [|r rest IH]; intros tr src w w' os' H; [discriminate|].
  cbn [FdWriter.WriteLoop] in H.
  destruct (returned (write_call src w) r <? 0).
  - destruct (errno r =? EINTR); [|discriminate]. eapply IH; exact H.
  - destruct (drop _ src).
    + injection H as <- _. auto.
    + apply IH in H. simpl in H. exact H.
Qed.

Lemma PushInternal_true w os w1 os1 :
  PushInternal w os = Some (true, w1, os1) ->
  object w1 = object w /\ buffer w1 = []
  /\ has_independent_pos_ w1 = has_independent_pos_ w.
Proof.
  unfold FdWriter.PushInternal. destruct (fhealthy w); simpl; [|discriminate].
  destruct (buffer w) as [|b data] eqn:Hb.
  - intros H. injection H as <- _. auto.
  - unfold FdWriter.WriteInternal, FailOverflow, Fail.
    destruct (_ >? _); [discriminate|]. intros H.
    apply WriteLoop_true_fields in H as (Ho & Hbuf & Hi & _).
    rewrite Ho, Hbuf, Hi. auto.
Qed.

(** A call that takes only some of the bytes: the loop goes on with the
    bytes that are left, from the position advanced by what was taken. *)
Lemma WriteLoop_short r rest tr src w :
  0 < result r < size src -> size src <= ssize_t_max ->
  0 <= start_pos w -> start_pos w + size src < two64 ->
  WriteLoop (r :: rest) tr src w
  = WriteLoop rest (tr ++ [(write_call src w, result r)])
      (drop (Z.to_nat (result r)) src) (set_start_pos (start_pos w + result r) w).
Proof.
  intros Hr Hmax H0 Hlt. cbn [FdWriter.WriteLoop]. rewrite write_call_returned.
  destruct (Z.ltb_spec (result r) 0); [lia|].
  unfold UnsignedMin.
  replace (Z.min (result r) (Z.min (size src) ssize_t_max)) with (result r) by lia.
  destruct (Z.ltb_spec (result r) 0); [lia|].
  unfold move_start_pos. rewrite wrap64_small by lia.
  destruct (drop (Z.to_nat (result r)) src) as [|b src'] eqn:Hdrop; [|reflexivity].
  exfalso.
  assert (Hlen : length (drop (Z.to_nat (result r)) src) = 0%nat)
    by (rewrite Hdrop; reflexivity).
  rewrite length_drop in Hlen. unfold size in Hr. lia.
Qed.

(** The answers that transfer at least one byte. *)
Lemma WriteLoop_completes replies :
  forall tr src w,
  Forall (fun r => interrupted r \/ 1 <= result r) replies ->
  0 < size src <= Z.of_nat (length (List.filter (fun r => 1 <=? result r) replies)) ->
  0 <= start_pos w -> start_pos w + size src < two64 ->
  exists w' os', WriteLoop replies tr src w = Some (true, w', os').
Proof.
  induction replies as [|r rest IH]; intros tr src w Hrs Hsz H0 Hlt.
  { simpl in Hsz. lia. }
  apply Forall_cons in Hrs as [Hr Hrest].
  destruct Hr as [Hr|Hr].
  - rewrite WriteLoop_interrupted by exact Hr. apply IH; try assumption.
    destruct Hr as [Hneg _]. simpl in Hsz.
    destruct (Z.leb_spec 1 (result r)); [lia|exact Hsz].
  - cbn [FdWriter.WriteLoop]. rewrite write_call_returned.
    destruct (Z.ltb_spec (result r) 0); [lia|].
    set (n := Z.min (result r) (UnsignedMin (size src) ssize_t_max)).
    assert (Hn : 1 <= n <= size src).
    { unfold n, UnsignedMin, ssize_t_max. lia. }
    destruct (Z.ltb_spec n 0); [lia|].
    destruct (drop (Z.to_nat n) src) as [|b src'] eqn:Hdrop.
    + eexists _, _. reflexivity.
    + assert (Hlen : size (b :: src') = size src - n).
      { rewrite <- Hdrop. unfold size in *. rewrite length_drop. lia. }
      unfold move_start_pos. rewrite wrap64_small by lia.
      apply IH.
      * exact Hrest.
      * assert (Hpos : 0 < size (b :: src')) by (unfold size; simpl; lia).
        rewrite Hlen in *. simpl in Hsz.
        destruct (Z.leb_spec 1 (result r)); [|lia].
        simpl in Hsz. lia.
      * simpl. lia.
      * rewrite Hlen. simpl. lia.
Qed.

(** C6. For a writer whose position is a valid file offset: if
    [WriteInternal(src)] returns true, the bytes handed to [write] or
    [pwrite] during the call are exactly [src], and [start_pos] has advanced
    by exactly [src.size()], nothing else of the writer having changed; a call
    interrupted by [EINTR] is retried, so it changes nothing but the trace; a
    call that takes only some of the bytes is followed by a call for the
    bytes that are left, at the position advanced by what was taken; a false
    result is an overflow or a [FailOperation] for an error other than
    [EINTR]; after any number of interrupted calls, a call that takes all the
    bytes makes it return true; and whenever the kernel answers each call by
    an interruption or by taking at least one byte, often enough to take
    them all, [WriteInternal] returns true with every byte handed over and
    [start_pos] advanced by [src.size()]. *)
Theorem WriteInternal_delivers (src : list byte) (w : FdWriter) (os : World) :
  0 <= start_pos w <= off_t_max ->
  (forall w' os',
     WriteInternal src w os = Some (true, w', os') ->
     delivered (trace os') = delivered (trace os) ++ src
     /\ w' = set_start_pos (start_pos w + size src) w
     /\ start_pos w' = start_pos w + size src
     /\ object w' = object w /\ buffer w' = buffer w /\ dest_fd w' = dest_fd w
     /\ filename_ w' = filename_ w
     /\ supports_random_access_ w' = supports_random_access_ w
     /\ has_independent_pos_ w' = has_independent_pos_ w)
  /\ (forall r rest,
        interrupted r -> pending os = r :: rest ->
        size src <= off_t_max - start_pos w ->
        WriteInternal src w os
        = WriteInternal src w (mkWorld rest (trace os ++ [(write_call src w, -1)])))
  /\ (forall w' os',
        WriteInternal src w os = Some (false, w', os') ->
        w' = snd (FailOverflow Annotate w)
        \/ exists e w1 op, e <> EINTR /\ w' = snd (FailOperation op e w1))
  /\ (forall rs r rest,
        Forall interrupted rs -> pending os = rs ++ r :: rest ->
        0 < size src <= result r -> size src <= off_t_max - start_pos w ->
        exists os',
          WriteInternal src w os
          = Some (true, set_start_pos (start_pos w + size src) w, os'))
  /\ (forall r rest,
        pending os = r :: rest -> 0 < result r < size src ->
        size src <= off_t_max - start_pos w ->
        WriteInternal src w os
        = WriteInternal (drop (Z.to_nat (result r)) src)
            (set_start_pos (start_pos w + result r) w)
            (mkWorld rest (trace os ++ [(write_call src w, result r)])))
  /\ (Forall (fun r => interrupted r \/ 1 <= result r) (pending os) ->
      0 < size src
        <= Z.of_nat (length (List.filter (fun r => 1 <=? result r) (pending os))) ->
      size src <= off_t_max - start_pos w ->
      exists w' os',
        WriteInternal src w os = Some (true, w', os')
        /\ start_pos w' = start_pos w + size src
        /\ delivered (trace os') = delivered (trace os) ++ src).
Proof.
  intros Hsp.
  assert (Hroom : wrap64 (off_t_max - start_pos w) = off_t_max - start_pos w).
  { apply wrap64_small. unfold off_t_max, two64 in *. lia. }
  assert (Htrue : forall w' os',
            WriteLoop (pending os) (trace os) src w = Some (true, w', os') ->
            size src <= off_t_max - start_pos w ->
            delivered (trace os') = delivered (trace os) ++ src
            /\ w' = set_start_pos (start_pos w + size src) w).
  { intros w' os' H Hfit.
    apply WriteLoop_true in H as (Hd & Hw & _); [auto|lia|].
    unfold off_t_max, two64 in *. lia. }
  unfold FdWriter.WriteInternal. rewrite Hroom.
  split; [|split; [|split; [|split; [|split]]]].
  - intros w' os' H.
    destruct (Z.gtb_spec (size src) (off_t_max - start_pos w)); [discriminate|].
    destruct (Htrue w' os' H) as [Hd Hw]; [lia|].
    split; [exact Hd|]. split; [exact Hw|]. rewrite Hw. simpl. auto 10.
  - intros r rest Hr Hp Hfit. simpl. rewrite Hp.
    destruct (Z.gtb_spec (size src) (off_t_max - start_pos w)); [lia|].
    apply WriteLoop_interrupted. exact Hr.
  - intros w' os' H.
    destruct (Z.gtb_spec (size src) (off_t_max - start_pos w)).
    + left. injection H as H _. rewrite <- H. reflexivity.
    + right. eapply WriteLoop_false. exact H.
  - intros rs r rest Hrs Hp Hsz Hfit. rewrite Hp.
    destruct (Z.gtb_spec (size src) (off_t_max - start_pos w)); [lia|].
    destruct (WriteLoop_interrupts rs r rest (trace os) src w Hrs Hsz) as [tr' Ht].
    + unfold ssize_t_max, off_t_max in *. lia.
    + unfold off_t_max, two64 in *. lia.
    + lia.
    + eexists. exact Ht.
  - intros r rest Hp Hr Hfit. rewrite Hp.
    destruct (Z.gtb_spec (size src) (off_t_max - start_pos w)); [lia|].
    assert (Hlen : size (drop (Z.to_nat (result r)) src) = size src - result r).
    { unfold size in *. rewrite length_drop. lia. }
    cbn [start_pos set_start_pos pending trace]. rewrite Hlen.
    rewrite (wrap64_small (off_t_max - (start_pos w + result r)))
      by (unfold off_t_max, two64 in *; lia).
    destruct (Z.gtb_spec (size src - result r) (off_t_max - (start_pos w + result r)));
      [lia|].
    apply WriteLoop_short.
    + exact Hr.
    + unfold ssize_t_max, off_t_max in *. lia.
    + lia.
    + unfold off_t_max, two64 in *. lia.
  - intros Hrs Hsz Hfit.
    destruct (Z.gtb_spec (size src) (off_t_max - start_pos w)); [lia|].
    destruct (WriteLoop_completes (pending os) (trace os) src w Hrs Hsz)
      as (w' & os' & Hrun).
    + lia.
    + unfold off_t_max, two64 in *. lia.
    + exists w', os'. split; [exact Hrun|].
      destruct (Htrue w' os' Hrun) as [Hd Hw]; [lia|].
      split; [rewrite Hw; reflexivity|exact Hd].
Qed.

(** C9, amended. Seeking a healthy writer forwards past the end of the
    file, when the buffered bytes, if any, were written out and [fstat]
    succeeded and reported a size below the position asked for: [SeekSlow]
    returns false and leaves the position at the file size, with nothing in
    the buffer; the writer is still healthy, no failure having been latched,
    provided it has an independent position or the [lseek] that moves the
    descriptor there succeeds. *)
Theorem SeekSlow_past_end (new_pos : Z) (w w1 : FdWriter) (os os1 : World)
    (r : Reply) (rest : list Reply) :
  fhealthy w = true ->
  PushInternal w os = Some (true, w1, os1) ->
  start_pos w1 <= new_pos ->
  pending os1 = r :: rest -> 0 <= result r ->
  0 <= st_size r <= off_t_max -> st_size r < new_pos ->
  has_independent_pos_ w1 = true
  \/ (exists r2 rest2, rest = r2 :: rest2 /\ 0 <= result r2) ->
  exists os',
    SeekSlow new_pos w os = Some (false, set_start_pos (st_size r) w1, os')
    /\ fhealthy (set_start_pos (st_size r) w1) = true
    /\ pos (set_start_pos (st_size r) w1) = st_size r
    /\ start_pos (set_start_pos (st_size r) w1) = st_size r
    /\ buffer (set_start_pos (st_size r) w1) = []
    /\ object (set_start_pos (st_size r) w1) = object w.
Proof.
  intros Hw Hpush Hfw Hp Hr Hsz Hlt Hsync.
  destruct (PushInternal_true _ _ _ _ Hpush) as (Ho & Hb & _).
  assert (Hh : fhealthy w1 = true) by (unfold fhealthy in *; rewrite Ho; exact Hw).
  unfold FdWriter.SeekSlow. rewrite Hpush.
  destruct (Z.geb_spec new_pos (start_pos w1)); [|lia].
  unfold syscall. rewrite Hp. unfold returned.
  destruct (Z.ltb_spec (result r) 0); [lia|].
  destruct (Z.ltb_spec (result r) 0); [lia|].
  destruct (Z.gtb_spec new_pos (st_size r)); [|lia].
  assert (Hpos : pos (set_start_pos (st_size r) w1) = st_size r).
  { unfold pos, written_to_buffer. simpl. rewrite Hb. unfold size. simpl.
    rewrite Z.add_0_r. apply wrap64_small. unfold off_t_max, two64 in *. lia. }
  unfold FdWriter.SyncPos. simpl.
  destruct Hsync as [Hi|(r2 & rest2 & -> & Hr2)].
  - rewrite Hi. simpl. eexists. split; [reflexivity|]. split; [exact Hh|]. split; [exact Hpos|].
      split; [reflexivity|]. split; [exact Hb|exact Ho].
  - destruct (has_independent_pos_ w1); simpl.
    + eexists. split; [reflexivity|]. split; [exact Hh|]. split; [exact Hpos|].
      split; [reflexivity|]. split; [exact Hb|exact Ho].
    + unfold syscall. simpl. unfold returned.
      destruct (Z.ltb_spec (result r2) 0); [lia|].
      destruct (Z.ltb_spec (result r2) 0); [lia|].
      eexists. split; [reflexivity|]. split; [exact Hh|]. split; [exact Hpos|].
      split; [reflexivity|]. split; [exact Hb|exact Ho].
Qed.

(** C10. On a healthy writer, when [fstat] succeeds, [Size()] returns the
    larger of the file's size and [pos()], which counts the bytes still in
    the buffer; so the result is never below [pos()]. *)
Theorem Size_is_max (w : FdWriter) (os : World) (r : Reply) (rest : list Reply) :
  fhealthy w = true -> pending os = r :: rest -> 0 <= result r ->
  exists os',
    Size w os = Some (Some (Z.max (st_size r) (pos w)), w, os')
    /\ pos w <= Z.max (st_size r) (pos w)
    /\ st_size r <= Z.max (st_size r) (pos w)
    /\ pos w = wrap64 (start_pos w + size (buffer w)).
Proof.
  intros Hh Hp Hr. unfold FdWriter.Size, syscall. rewrite Hh, Hp. simpl.
  unfold returned. destruct (Z.ltb_spec (result r) 0); [lia|].
  destruct (Z.ltb_spec (result r) 0); [lia|].
  eexists. split; [reflexivity|]. split; [lia|]. split; [lia|reflexivity].
Qed.

End WithStatus.

End FdWriterSpec.

(** ** The file descriptor writer on concrete answers of the kernel *)
Module FdWriterExamples.
Import Base BaseFacts Posix FdWriter Samples FdWriterSpec.

(** A short write, an interrupted call and the rest: the three bytes are
    delivered and the position advances by three. *)
Example WriteInternal_short_write :
  exists os',
    WriteInternal errno_status annotate (As 3) (fd_writer [])
      (world [ok_reply 1; eintr_reply; ok_reply 2])
    = Some (true, set_start_pos 3 (fd_writer []), os')
    /\ delivered (trace os') = As 3.
Proof. eexists. split; reflexivity. Qed.

(** An error other than [EINTR] is reported. *)
Example WriteInternal_error :
  exists w' os',
    WriteInternal errno_status annotate (As 3) (fd_writer [])
      (world [ok_reply 1; error_reply 13])
    = Some (false, w', os')
    /\ code (status (object w')) = kPermissionDenied.
Proof. eexists _, _. split; reflexivity. Qed.

(** Five bytes, taken two, none (an interrupted call), one and two at a
    time. *)
Lemma WriteInternal_delivers_witness :
  0 <= start_pos (fd_writer []) <= off_t_max
  /\ exists w' os',
       WriteInternal errno_status annotate abcde (fd_writer [])
         (world [ok_reply 2; eintr_reply; ok_reply 1; ok_reply 2])
       = Some (true, w', os')
       /\ start_pos w' = 5
       /\ delivered (trace os') = abcde
       /\ length (trace os') = 4%nat
       /\ pending os' = [].
Proof.
  assert (H : 0 <= start_pos (fd_writer []) <= off_t_max) by (simpl; unfold off_t_max; lia).
  split; [exact H|].
  eexists _, _. split; [reflexivity|].
  destruct (WriteInternal_delivers errno_status annotate abcde (fd_writer [])
              (world [ok_reply 2; eintr_reply; ok_reply 1; ok_reply 2]) H)
    as (Htrue & _).
  destruct (Htrue _ _ eq_refl) as (Hd & _ & Hp & _).
  split; [exact Hp|]. split; [exact Hd|]. split; reflexivity.
Defined.

(** C9, as stated, fails.  A writer that shares the file offset seeks to
    100 in a file of 10 bytes and the [lseek] to the end fails: [SeekSlow]
    returns false, and the writer is no longer healthy.  Nor is the position
    the file size when the seek stops earlier: when the buffered bytes
    cannot be written out, or when [fstat] fails, [SeekSlow] returns false
    with the failure latched and the position where it was. *)
Lemma SeekSlow_past_end_can_fail :
  fhealthy (fd_writer []) = true /\ fhealthy (fd_writer abcde) = true
  /\ (exists w' os',
        SeekSlow errno_status annotate 100 (fd_writer [])
          (world [fstat_reply 10; error_reply ESPIPE])
        = Some (false, w', os')
        /\ start_pos w' = 10
        /\ fhealthy w' = false)
  /\ (exists w' os',
        SeekSlow errno_status annotate 100 (fd_writer abcde)
          (world [error_reply 13; fstat_reply 10; ok_reply 10])
        = Some (false, w', os')
        /\ start_pos w' = 0
        /\ fhealthy w' = false
        /\ status (object w') = mkStatus kPermissionDenied "write() failed; writing /tmp/out")
  /\ (exists w' os',
        SeekSlow errno_status annotate 100 (fd_writer [])
          (world [error_reply 13; ok_reply 10])
        = Some (false, w', os')
        /\ start_pos w' = 0
        /\ fhealthy w' = false
        /\ status (object w') = mkStatus kPermissionDenied "fstat() failed; writing /tmp/out").
Proof.
  split; [reflexivity|]. split; [reflexivity|].
  split; [|split]; eexists _, _; repeat split; reflexivity.
Qed.

(** Five buffered bytes are written out, then the file is found to hold ten
    bytes and the descriptor is moved there. *)
Lemma SeekSlow_past_end_witness :
  exists os',
    SeekSlow errno_status annotate 100 (fd_writer abcde)
      (world [ok_reply 5; fstat_reply 10; ok_reply 10])
    = Some (false, set_start_pos 10 (fd_writer []), os')
    /\ fhealthy (set_start_pos 10 (fd_writer [])) = true
    /\ pos (set_start_pos 10 (fd_writer [])) = 10
    /\ map fst (trace os')
       = [sys_write 3 abcde 5; sys_fstat 3; sys_lseek 3 10 SEEK_SET].
Proof.
  destruct (SeekSlow_past_end errno_status annotate 100 (fd_writer abcde)
              (set_start_pos 5 (fd_writer []))
              (world [ok_reply 5; fstat_reply 10; ok_reply 10])
              (mkWorld [fstat_reply 10; ok_reply 10] [(sys_write 3 abcde 5, 5)])
              (fstat_reply 10) [ok_reply 10])
    as (os' & Hrun & Hh & Hp & _).
  - reflexivity.
  - reflexivity.
  - simpl. lia.
  - reflexivity.
  - simpl. lia.
  - simpl. unfold off_t_max. lia.
  - simpl. lia.
  - right. exists (ok_reply 10), []. split; [reflexivity|simpl; lia].
  - exists os'. split; [exact Hrun|]. split; [exact Hh|]. split; [exact Hp|].
    assert (E : Some (false, set_start_pos 10 (fd_writer []), os')
                = SeekSlow errno_status annotate 100 (fd_writer abcde)
                    (world [ok_reply 5; fstat_reply 10; ok_reply 10]))
      by (symmetry; exact Hrun).
    vm_compute in E. injection E as ->. reflexivity.
Defined.

Lemma Size_is_max_witness :
  exists os',
    Size errno_status annotate (fd_writer (As 5)) (world [fstat_reply 2])
    = Some (Some 5, fd_writer (As 5), os').
Proof.
  destruct (Size_is_max errno_status annotate (fd_writer (As 5)) (world [fstat_reply 2])
              (fstat_reply 2) [] eq_refl eq_refl) as (os' & H & _).
  - simpl. lia.
  - exists os'. exact H.
Defined.

End FdWriterExamples.

(** ** Serializing a message *)
Module MessageSerializeSpec.
Import Base BaseFacts MessageSerialize Samples.

Section WithWriter.

Variable Writer : Type.
Variable status : Writer -> Status.
Variable Close : Writer -> bool * Writer.
Variable SerializePartialToCodedStream : MessageLite -> bool -> Writer -> bool * Writer.

(** C7, amended. For a message that is initialized, or serialized with the
    partial option: when its size exceeds 2^31 - 1 bytes, [SerializeToWriter]
    returns the resource-exhausted status and the destination is untouched
    (only closed, when it is owned), whatever the serializer would do; when
    its size is at most 2^31 - 1, the result is that of serializing into the
    destination. *)
Theorem SerializeToWriter_size_limit (is_owning : bool) (src : MessageLite)
    (dest : Writer) (options : SerializeOptions) :
  partial options = true \/ IsInitialized src = true ->
  (ByteSizeLong src > 2 ^ 31 - 1 ->
   SerializeToWriterImpl Writer status SerializePartialToCodedStream src dest options
   = (too_large src, dest)
   /\ SerializeToWriter Writer status Close SerializePartialToCodedStream
        is_owning src dest options
      = (too_large src, if is_owning then snd (Close dest) else dest)
   /\ code (too_large src) = kResourceExhausted)
  /\ (ByteSizeLong src <= 2 ^ 31 - 1 ->
      let r := SerializePartialToCodedStream src (deterministic options) dest in
      SerializeToWriterImpl Writer status SerializePartialToCodedStream src dest options
      = (if fst r then OkStatus else status (snd r), snd r)).
Proof.
  intros Hinit.
  assert (Hguard : negb (partial options) && negb (IsInitialized src) = false).
  { destruct Hinit as [-> | ->]; [reflexivity|apply andb_false_r]. }
  split.
  - intros Hbig.
    assert (E : SerializeToWriterImpl Writer status SerializePartialToCodedStream
                  src dest options = (too_large src, dest)).
    { unfold SerializeToWriterImpl. rewrite Hguard.
      destruct (Z.gtb_spec (ByteSizeLong src) int_max) as [_|Hle]; [reflexivity|].
      unfold int_max in Hle. lia. }
    split; [exact E|]. split; [|reflexivity].
    unfold SerializeToWriter. rewrite E. destruct is_owning; [|reflexivity].
    destruct (Close dest) as [[|] dest2]; reflexivity.
  - intros Hsmall r. unfold SerializeToWriterImpl. rewrite Hguard.
    destruct (Z.gtb_spec (ByteSizeLong src) int_max) as [Hgt|_].
    { unfold int_max in Hgt. lia. }
    subst r. destruct (SerializePartialToCodedStream _ _ _) as [[|] dest']; reflexivity.
Qed.

End WithWriter.

(** C7, as stated, fails: a message of 2^31 bytes that misses a required
    field, serialized without the partial option, is refused with an
    invalid-argument status, not a resource-exhausted one. *)
Lemma uninitialized_is_not_resource_exhausted :
  ByteSizeLong huge_uninitialized > 2 ^ 31 - 1
  /\ code (fst (SerializeToWriter ByteSink byte_sink_status byte_sink_close serialize_As
                  false huge_uninitialized (mkByteSink [] false) default_options))
     = kInvalidArgument.
Proof. split; [reflexivity|reflexivity]. Qed.

Lemma SerializeToWriter_size_limit_witness :
  (partial default_options = true \/ IsInitialized huge_initialized = true)
  /\ SerializeToWriter ByteSink byte_sink_status byte_sink_close serialize_As
       false huge_initialized (mkByteSink [] false) default_options
     = (too_large huge_initialized, mkByteSink [] false).
Proof.
  assert (H : partial default_options = true \/ IsInitialized huge_initialized = true)
    by (right; reflexivity).
  split; [exact H|].
  destruct (SerializeToWriter_size_limit ByteSink byte_sink_status byte_sink_close
              serialize_As false huge_initialized (mkByteSink [] false) default_options H)
    as [Hbig _].
  destruct Hbig as (_ & E & _); [reflexivity|]. exact E.
Defined.

End MessageSerializeSpec.

(** ** The framed-Snappy writer *)
Module FramedSnappyWriterSpec.
Import Base BaseFacts FramedSnappyWriter Samples.

Section WithDest.

Variable BaseState Dest : Type.
Variable dest_Flush : FlushType -> Dest -> bool * Dest.
Variable dest_status : Dest -> Status.
Variable Base_FlushImpl :
  FlushType -> FramedSnappyWriter BaseState -> Dest
  -> bool * FramedSnappyWriter BaseState * Dest.
Variable AnnotateOverDest : Status -> FramedSnappyWriter BaseState -> Dest -> Status.

(** C8. When the writer's own flush succeeds and the flush of the compressed
    writer (made for a flush type beyond from-object, or when the compressed
    writer is owned) fails, [FlushImpl] returns true; the failure is latched
    by [FailWithoutAnnotation], so the writer is not healthy afterwards, and
    if it was healthy its status is the annotated status of the compressed
    writer. *)
Theorem FlushImpl_true_but_failed (flush_type : FlushType)
    (w w1 : FramedSnappyWriter BaseState) (d d1 d2 : Dest) :
  Base_FlushImpl flush_type w d = (true, w1, d1) ->
  flush_type <> kFromObject \/ is_owning w1 = true ->
  dest_Flush flush_type d1 = (false, d2) ->
  let r := FlushImpl BaseState Dest dest_Flush dest_status Base_FlushImpl AnnotateOverDest
             flush_type w d in
  fst (fst r) = true
  /\ healthy (object (snd (fst r))) = false
  /\ snd r = d2
  /\ (healthy (object w1) = true ->
      status (object (snd (fst r))) = AnnotateOverDest (dest_status d2) w1 d2).
Proof.
  intros Hbase Hscope Hflush r. subst r. unfold FlushImpl. rewrite Hbase.
  assert (Hcond : negb (is_from_object flush_type) || is_owning w1 = true).
  { destruct Hscope as [Hne | ->]; [|apply orb_true_r].
    destruct flush_type; [congruence|reflexivity|reflexivity]. }
  rewrite Hcond, Hflush. simpl.
  split; [reflexivity|]. split; [apply healthy_Fail|]. split; [reflexivity|].
  intros Hh. rewrite (Fail_healthy _ _ Hh). reflexivity.
Qed.

End WithDest.

Lemma FlushImpl_true_but_failed_witness :
  fst (fst (FlushImpl unit FailingDest failing_flush failing_status base_flush_ok
              annotate_over_dest kFromMachine open_framed (mkFailing None))) = true
  /\ healthy (object (snd (fst
       (FlushImpl unit FailingDest failing_flush failing_status base_flush_ok
          annotate_over_dest kFromMachine open_framed (mkFailing None))))) = false.
Proof.
  assert (Hne : kFromMachine <> kFromObject) by discriminate.
  destruct (FlushImpl_true_but_failed unit FailingDest failing_flush failing_status
              base_flush_ok annotate_over_dest kFromMachine open_framed open_framed
              (mkFailing None) (mkFailing None)
              (mkFailing (Some (mkStatus kUnknown "fsync() failed")))
              eq_refl (or_introl Hne) eq_refl)
    as (H1 & H2 & _).
  split; [exact H1|exact H2].
Defined.

End FramedSnappyWriterSpec.

(** * Further properties *)

(** ** The chunk decoder: random access, and the records as a partition *)
Module ChunkDecoderAccess.
Import Base BaseFacts ChunkDecoder Samples ChunkDecoderSpec.

(** The first [k] records, concatenated, are the values up to the end of
    record [k - 1]. *)
Lemma records_prefix (L : list Z) (V : list byte) (k : nat) :
  sortedb 0 L = true -> (k <= length L)%nat ->
  concat (map (record_bytes L V) (seq 0 k))
  = take (Z.to_nat (match k with O => 0 | S j => nth j L 0 end)) V.
Proof.
  intros Hs. induction k as [|k IH]; intros Hk; [reflexivity|].
  rewrite seq_S, map_app, concat_app, IH by lia. simpl. rewrite app_nil_r.
  destruct (lookup_lt_is_Some_2 L k) as [b Hb]; [lia|].
  assert (Hlo : 0 <= match k with O => 0 | S j => nth j L 0 end <= b).
  { destruct k as [|j]; simpl.
    - split; [lia|]. eapply sortedb_head; eauto.
    - destruct (lookup_lt_is_Some_2 L j) as [a Ha]; [lia|].
      rewrite (nth_lookup_Some _ _ _ _ Ha). split.
      + eapply sortedb_head; eauto.
      + apply (sortedb_mono 0 L j (S j) a b Hs); [lia|exact Ha|exact Hb]. }
  unfold record_bytes. rewrite (nth_lookup_Some _ _ _ _ Hb).
  unfold slice. rewrite take_take_drop. f_equal. lia.
Qed.

(** X1. Reading a valid chunk from its start to its end with any raw
    [ReadRecord] overload and concatenating what was read gives back the
    values buffer: the records partition it, nothing is skipped and nothing
    is read twice. *)
Theorem records_partition_the_values (k : RawKind) (record : list byte)
    (d : ChunkDecoder) :
  invariant d = true -> dhealthy d = true -> index_ d = 0 ->
  List.last (limits_ d) 0 = reader_size (values_reader_ d) ->
  exists log d',
    ReadCalls k (length (limits_ d)) record d = Returns (log, d')
    /\ Forall (fun e => fst e = true) log
    /\ concat (map snd log) = src (values_reader_ d).
Proof.
  intros HI Hh H0 Hlast. apply invariant_Inv in HI.
  destruct (ReadCalls_from (limits_ d) (src (values_reader_ d)) k (length (limits_ d))
              0 record d HI Hh eq_refl eq_refl) as (d' & Hc & _).
  { rewrite H0. reflexivity. }
  rewrite H0, Nat.add_0_r in Hc. simpl in Hc. rewrite app_nil_r in Hc.
  eexists _, d'. split; [exact Hc|]. split.
  - apply List.Forall_forall. intros e He. apply in_map_iff in He as (x & <- & _). reflexivity.
  - rewrite map_map. simpl. rewrite map_id.
    destruct HI as [Hs Hz _ _ _ _ _].
    rewrite records_prefix by (exact Hs || lia).
    destruct (length (limits_ d)) as [|n] eqn:El.
    + destruct (limits_ d); [|discriminate]. simpl in *. unfold reader_size, size in Hlast.
      destruct (src (values_reader_ d)); [reflexivity|simpl in Hlast; lia].
    + destruct (lookup_lt_is_Some_2 (limits_ d) n) as [b Hb]; [lia|].
      rewrite (last_lookup _ _ _ Hb), El in Hlast. simpl in Hlast.
      rewrite Nat.sub_0_r in Hlast. rewrite Hlast.
      unfold reader_size, size. rewrite Nat2Z.id. apply firstn_all.
Qed.

Lemma records_partition_the_values_witness :
  (invariant three_records = true /\ dhealthy three_records = true
   /\ index_ three_records = 0
   /\ List.last (limits_ three_records) 0 = reader_size (values_reader_ three_records))
  /\ exists log d',
       ReadCalls kChain 3 [] three_records = Returns (log, d')
       /\ concat (map snd log) = abcde.
Proof.
  split; [repeat split; reflexivity|].
  destruct (records_partition_the_values kChain [] three_records
              eq_refl eq_refl eq_refl eq_refl) as (log & d' & Hc & _ & Hcat).
  exists log, d'. split; [exact Hc|exact Hcat].
Defined.

(** What [SetIndex] leaves on a decoder that satisfies the invariants. *)
Lemma SetIndex_result new_index d :
  Inv d -> 0 <= new_index ->
  exists d', SetIndex new_index d = Returns d' /\ Inv d'
    /\ index_ d' = Z.min new_index (num_records d)
    /\ limits_ d' = limits_ d /\ src (values_reader_ d') = src (values_reader_ d)
    /\ object d' = object d.
Proof.
  intros HI Hn. destruct (SetIndex_Inv new_index d HI Hn) as (d' & Hs & HI').
  exists d'. split; [exact Hs|]. split; [exact HI'|].
  unfold SetIndex, UnsignedMin in Hs.
  destruct (if Z.min new_index (num_records d) =? 0 then Some 0
            else limits_ d !! Z.to_nat (Z.min new_index (num_records d) - 1));
    [|discriminate].
  unfold Seek in Hs. destruct (z <=? reader_size (values_reader_ d)); [|discriminate].
  injection Hs as <-. simpl. auto.
Qed.

(** X2. Random access: on a healthy valid chunk, [SetIndex(i)] with
    [i < num_records()] makes the next raw [ReadRecord] return record [i],
    whatever was read before, and leaves [index() = i + 1]. *)
Theorem SetIndex_then_ReadRecord (k : RawKind) (record : list byte) (i : Z)
    (d : ChunkDecoder) :
  invariant d = true -> dhealthy d = true -> 0 <= i < num_records d ->
  exists d1 d2,
    SetIndex i d = Returns d1
    /\ ReadRecord k record d1
       = Returns (true, record_bytes (limits_ d) (src (values_reader_ d)) (Z.to_nat i), d2)
    /\ index d2 = i + 1.
Proof.
  intros HI Hh Hi. apply invariant_Inv in HI.
  destruct (SetIndex_result i d HI) as (d1 & Hs & HI1 & Hix & HL & HV & Ho); [lia|].
  assert (Hix' : index_ d1 = i) by lia.
  assert (Hh1 : dhealthy d1 = true) by (unfold dhealthy; rewrite Ho; exact Hh).
  assert (Hlt : index_ d1 < num_records d1) by (unfold num_records in *; rewrite HL; lia).
  destruct (ReadRecord_next k record d1 HI1 Hh1 Hlt) as [Hr _].
  rewrite HL, HV, Hix' in Hr.
  eexists d1, _. split; [exact Hs|]. split; [exact Hr|]. reflexivity.
Qed.

Lemma SetIndex_then_ReadRecord_witness :
  (invariant three_records = true /\ dhealthy three_records = true
   /\ 0 <= 2 < num_records three_records)
  /\ exists d1 d2,
       SetIndex 2 three_records = Returns d1
       /\ ReadRecord kStringView [] d1
          = Returns (true, String.list_byte_of_string "cde", d2)
       /\ index d2 = 3.
Proof.
  split; [split; [reflexivity|split; [reflexivity|]]; change (0 <= 2 < 3); lia|].
  apply (SetIndex_then_ReadRecord kStringView [] 2 three_records eq_refl eq_refl).
  change (0 <= 2 < 3). lia.
Defined.

(** X3. [SetIndex(i)] with [i >= num_records()] clamps the index to
    [num_records()]: the decoder is at the end of the chunk, stays healthy,
    and the next raw [ReadRecord] returns false without touching the
    destination. *)
Theorem SetIndex_past_the_end (k : RawKind) (record : list byte) (i : Z)
    (d : ChunkDecoder) :
  invariant d = true -> dhealthy d = true -> num_records d <= i ->
  exists d1,
    SetIndex i d = Returns d1
    /\ index d1 = num_records d
    /\ dhealthy d1 = true
    /\ ReadRecord k record d1 = Returns (false, record, d1).
Proof.
  intros HI Hh Hi. apply invariant_Inv in HI.
  assert (H0 : 0 <= num_records d) by (unfold num_records; lia).
  destruct (SetIndex_result i d HI) as (d1 & Hs & HI1 & Hix & HL & HV & Ho); [lia|].
  exists d1. split; [exact Hs|]. split; [unfold index; lia|].
  split; [unfold dhealthy; rewrite Ho; exact Hh|].
  apply ReadRecord_end. left. unfold num_records in *. rewrite HL. lia.
Qed.

Lemma SetIndex_past_the_end_witness :
  (invariant three_records = true /\ dhealthy three_records = true
   /\ num_records three_records <= 7)
  /\ exists d1,
       SetIndex 7 three_records = Returns d1
       /\ index d1 = 3
       /\ dhealthy d1 = true
       /\ ReadRecord kString [] d1 = Returns (false, [], d1).
Proof.
  split; [split; [reflexivity|split; [reflexivity|]]; change (3 <= 7); lia|].
  apply (SetIndex_past_the_end kString [] 7 three_records eq_refl eq_refl).
  change (3 <= 7). lia.
Defined.

End ChunkDecoderAccess.

(** ** The limiting writer: failures, writes within the limit, closing *)
Module LimitingWriterCalls.
Import Base BaseFacts Writer LimitingWriter SizedSink Samples MoreSamples.
Import LimitingWriterSpec LimitingWriterExamples.

Section Contract.

Context {Sink Reader : Type}.
Variable dest_ : Methods Sink Reader.

Variable inv : Dest Sink -> Prop.
Hypothesis laws : Laws dest_ inv.

(** A limiting writer constructed within its limit and driven by calls that
    stay within [call_within] is limited. *)
Lemma reachable_Limited max_pos exact (d0 : Dest Sink) (cs : list Call) :
  0 <= max_pos < two64 -> inv d0 -> pos (dw d0) <= max_pos ->
  forallb (call_within max_pos) cs = true ->
  Limited inv (fst (calls dest_ cs (Initialize max_pos exact d0) d0))
    (snd (calls dest_ cs (Initialize max_pos exact d0) d0))
  /\ max_pos_ (fst (calls dest_ cs (Initialize max_pos exact d0) d0)) = max_pos.
Proof.
  intros Hm Hi Hp Hcs.
  destruct (Initialize_Limited dest_ inv laws max_pos exact d0 Hm Hi Hp) as [HL0 Hm0].
  destruct (calls_Limited dest_ inv laws cs _ d0 HL0) as [HL Hmax];
    [rewrite Hm0; exact Hcs|].
  split; [exact HL|congruence].
Qed.




(** X5. [WriteZeros] obeys the limit as [Write] does: on a healthy limiting
    writer reached within its limit, [WriteZeros] of more than
    [max_pos - pos()] bytes returns false, latches the annotated
    resource-exhausted status "Position limit exceeded", leaves the inner
    writer exactly at [max_pos] and keeps its own position. *)
Theorem WriteZeros_obeys_the_limit max_pos exact (d0 : Dest Sink) (cs : list Call)
    (length : Z) :
  0 <= max_pos < two64 -> inv d0 -> pos (dw d0) <= max_pos ->
  forallb (call_within max_pos) cs = true ->
  let l := fst (calls dest_ cs (Initialize max_pos exact d0) d0) in
  let d := snd (calls dest_ cs (Initialize max_pos exact d0) d0) in
  lhealthy l = true -> length > max_pos - lpos l ->
  let r := WriteZerosSlow dest_ length l d in
  fst (fst r) = false
  /\ status (object (base (snd (fst r))))
     = AnnotateStatus dest_ (ResourceExhaustedError "Position limit exceeded") (snd r)
  /\ pos (dw (snd r)) = max_pos
  /\ lpos (snd (fst r)) = lpos l.
Proof.
  intros Hm Hi Hp Hcs l d Hh Hlen r.
  destruct (reachable_Limited max_pos exact d0 cs Hm Hi Hp Hcs) as [HL Hmax].
  fold l d in HL, Hmax.
  destruct (SyncBuffer_Limited dest_ inv laws l d HL Hh) as (_ & _ & _ & Hsp).
  pose proof (Limited_pos inv l d HL) as Hpos.
  pose proof (room_Limited inv l d HL) as Hroom.
  assert (E : r = FailLimitExceeded dest_ l
                    (dest_set_cursor (start_to_cursor (base l)) d)).
  { subst r. unfold WriteZerosSlow. rewrite Hh. simpl. rewrite Hroom.
    destruct (Z.gtb_spec length (max_pos_ l - lpos l)); [reflexivity|lia]. }
  rewrite E. split; [reflexivity|]. split.
  { simpl. unfold lhealthy, whealthy in Hh. rewrite (Fail_healthy _ _ Hh). reflexivity. }
  split; [|reflexivity].
  rewrite <- Hmax. destruct HL as [Hm' Hw _ _].
  apply FailLimitExceeded_pos; assumption.
Qed.

(** X6. Within the limit the limiting writer is transparent: on a healthy
    limiting writer reached within its limit, a [Write] of at most
    [max_pos - pos()] bytes first brings the inner writer to [pos()], hands
    the bytes to the inner [Write] and returns its result; afterwards the
    two writers report the same position, still within [max_pos], and the
    limiting writer is healthy exactly when the inner writer is. *)
Theorem Write_within_limit_is_forwarded max_pos exact (d0 : Dest Sink)
    (cs : list Call) (src : list byte) :
  0 <= max_pos < two64 -> inv d0 -> pos (dw d0) <= max_pos ->
  forallb (call_within max_pos) cs = true ->
  let l := fst (calls dest_ cs (Initialize max_pos exact d0) d0) in
  let d := snd (calls dest_ cs (Initialize max_pos exact d0) d0) in
  lhealthy l = true -> size src <= max_pos - lpos l ->
  let d1 := dest_set_cursor (start_to_cursor (base l)) d in
  let r := WriteInternal dest_ src l d in
  pos (dw d1) = lpos l
  /\ fst (fst r) = fst (Write dest_ src d1)
  /\ snd r = snd (Write dest_ src d1)
  /\ lpos (snd (fst r)) = pos (dw (snd r))
  /\ lpos (snd (fst r)) <= max_pos
  /\ lhealthy (snd (fst r)) = whealthy (dw (snd r)).
Proof.
  intros Hm Hi Hp Hcs l d Hh Hsz d1 r.
  destruct (reachable_Limited max_pos exact d0 cs Hm Hi Hp Hcs) as [HL Hmax].
  fold l d in HL, Hmax.
  destruct (SyncBuffer_Limited dest_ inv laws l d HL Hh) as (_ & Hi1 & Hp1 & _).
  fold d1 in Hi1, Hp1.
  pose proof (room_Limited inv l d HL) as Hroom.
  destruct (law_Write laws src d1 Hi1) as [Hi2 Hp2].
  assert (E : r = (fst (Write dest_ src d1), MakeBuffer l (snd (Write dest_ src d1)),
                   snd (Write dest_ src d1))).
  { subst r. unfold WriteInternal. rewrite Hh. simpl. rewrite Hroom. fold d1.
    destruct (Z.gtb_spec (size src) (max_pos_ l - lpos l)); [lia|].
    destruct (Write dest_ src d1); reflexivity. }
  rewrite E. simpl.
  set (d2 := snd (Write dest_ src d1)) in *.
  assert (Hsame : lpos (MakeBuffer l d2) = pos (dw d2)).
  { unfold MakeBuffer, lpos, pos. destruct (whealthy (dw d2)); reflexivity. }
  split; [exact Hp1|]. split; [reflexivity|]. split; [reflexivity|].
  split; [exact Hsame|]. split; [rewrite Hsame; lia|].
  unfold MakeBuffer. destruct (whealthy (dw d2)) eqn:Hd2; unfold lhealthy, whealthy; simpl.
  - exact Hh.
  - apply healthy_Fail.
Qed.


(** X8. Closing a healthy limiting writer that is not in exact mode does
    not depend on the position: [Close()] first hands the buffered bytes to
    the inner writer, whose position becomes [pos()], and the writer ends
    closed at the position it had.  An inner writer that is not owned is
    left open, as synchronizing left it, and [Close()] returns true without
    a failure.  An inner writer that is owned is closed: [Close()] returns
    what the inner [Close()] returned, and when that failed the status is
    the inner writer's. *)
Theorem Close_not_exact (l : LimitingWriter) (d : Dest Sink) :
  Limited inv l d -> lhealthy l = true -> exact_ l = false ->
  let d1 := dest_set_cursor (start_to_cursor (base l)) d in
  let r := Close dest_ l d in
  is_open (object (base (snd (fst r)))) = false
  /\ lpos (snd (fst r)) = lpos l
  /\ pos (dw d1) = lpos l
  /\ (dest_is_owning dest_ = false ->
      fst (fst r) = true
      /\ failure (object (base (snd (fst r)))) = None
      /\ snd r = d1
      /\ object (dw (snd r)) = object (dw d))
  /\ (dest_is_owning dest_ = true ->
      snd r = snd (dest_Close dest_ d1)
      /\ fst (fst r) = fst (dest_Close dest_ d1)
      /\ (fst (dest_Close dest_ d1) = true ->
          failure (object (base (snd (fst r)))) = None)
      /\ (fst (dest_Close dest_ d1) = false ->
          status (object (base (snd (fst r))))
          = status (object (dw (snd (dest_Close dest_ d1)))))).
Proof.
  intros HL Hh He d1 r. subst r.
  destruct (SyncBuffer_Limited dest_ inv laws l d HL Hh) as (_ & _ & Hp1 & _).
  fold d1 in Hp1.
  assert (Hrange : 0 <= start_pos (base l) + start_to_cursor (base l) < two64).
  { destruct HL as [_ Hw _ _]. apply well_formed_spec in Hw. lia. }
  clear HL.
  destruct l as [[[op fl] sp sc sl] mp ex]. simpl in He, Hrange. subst ex.
  unfold lhealthy, whealthy, healthy in Hh. simpl in Hh.
  destruct op; [|discriminate]. destruct fl; [discriminate|]. clear Hh.
  assert (Hpos : wrap64 (wrap64 (sp + sc) + 0) = wrap64 (sp + sc)).
  { rewrite Z.add_0_r, (wrap64_small (sp + sc)) by exact Hrange.
    apply wrap64_small, Hrange. }
  subst d1. unfold lpos, pos in Hp1.
  cbn [base object is_open failure exact_ max_pos_ start_pos start_to_cursor]
    in Hp1 |- *.
  unfold Close, DoneDest, Done, SyncBuffer, lhealthy, whealthy, healthy, lpos, pos.
  cbn [base object is_open failure exact_ max_pos_ start_pos start_to_cursor
       negb andb fst snd].
  set (d1 := dest_set_cursor sc d) in *.
  destruct (dest_is_owning dest_).
  - destruct (dest_Close dest_ d1) as [[|] d2]; cbn;
      (split; [reflexivity|]); (split; [exact Hpos|]); (split; [exact Hp1|]);
      (split; [discriminate|]); intros _;
      (split; [reflexivity|]); (split; [reflexivity|]);
      (split; [try reflexivity; discriminate|try reflexivity; discriminate]).
  - cbn. split; [reflexivity|]. split; [exact Hpos|]. split; [exact Hp1|].
    split; [|discriminate]. intros _. repeat split; reflexivity.
Qed.

End Contract.


Lemma WriteZeros_obeys_the_limit_witness :
  (0 <= 10 < two64 /\ sink_ok empty_sink /\ pos (dw empty_sink) <= 10
   /\ forallb (call_within 10) [CallWrite (As 7)] = true
   /\ lhealthy (fst (calls methods [CallWrite (As 7)] exact10 empty_sink)) = true
   /\ 4 > 10 - lpos (fst (calls methods [CallWrite (As 7)] exact10 empty_sink)))
  /\ fst (fst (WriteZerosSlow methods 4
                 (fst (calls methods [CallWrite (As 7)] exact10 empty_sink))
                 (snd (calls methods [CallWrite (As 7)] exact10 empty_sink)))) = false
  /\ pos (dw (snd (WriteZerosSlow methods 4
                     (fst (calls methods [CallWrite (As 7)] exact10 empty_sink))
                     (snd (calls methods [CallWrite (As 7)] exact10 empty_sink))))) = 10.
Proof.
  assert (H1 : 0 <= 10 < two64) by (unfold two64; lia).
  assert (H3 : pos (dw empty_sink) <= 10) by (vm_compute; discriminate).
  assert (H6 : 4 > 10 - lpos (fst (calls methods [CallWrite (As 7)] exact10 empty_sink)))
    by (vm_compute; reflexivity).
  split; [exact (conj H1 (conj empty_sink_ok (conj H3 (conj eq_refl (conj eq_refl H6)))))|].
  destruct (WriteZeros_obeys_the_limit methods sink_ok sink_laws 10 true empty_sink
              [CallWrite (As 7)] 4 H1 empty_sink_ok H3 eq_refl eq_refl H6)
    as (Hf & _ & Hp & _).
  split; [exact Hf|exact Hp].
Defined.

Lemma Write_within_limit_is_forwarded_witness :
  (0 <= 10 < two64 /\ sink_ok empty_sink /\ pos (dw empty_sink) <= 10
   /\ forallb (call_within 10) [CallWrite (As 7)] = true
   /\ lhealthy (fst (calls methods [CallWrite (As 7)] exact10 empty_sink)) = true
   /\ size (As 3) <= 10 - lpos (fst (calls methods [CallWrite (As 7)] exact10 empty_sink)))
  /\ fst (fst (WriteInternal methods (As 3)
                 (fst (calls methods [CallWrite (As 7)] exact10 empty_sink))
                 (snd (calls methods [CallWrite (As 7)] exact10 empty_sink)))) = true
  /\ lpos (snd (fst (WriteInternal methods (As 3)
                 (fst (calls methods [CallWrite (As 7)] exact10 empty_sink))
                 (snd (calls methods [CallWrite (As 7)] exact10 empty_sink))))) <= 10.
Proof.
  assert (H1 : 0 <= 10 < two64) by (unfold two64; lia).
  assert (H3 : pos (dw empty_sink) <= 10) by (vm_compute; discriminate).
  assert (H6 : size (As 3)
               <= 10 - lpos (fst (calls methods [CallWrite (As 7)] exact10 empty_sink)))
    by (vm_compute; discriminate).
  split; [exact (conj H1 (conj empty_sink_ok (conj H3 (conj eq_refl (conj eq_refl H6)))))|].
  destruct (Write_within_limit_is_forwarded methods sink_ok sink_laws 10 true empty_sink
              [CallWrite (As 7)] (As 3) H1 empty_sink_ok H3 eq_refl eq_refl H6)
    as (_ & Hf & _ & _ & Hp & _).
  split; [exact (eq_trans Hf eq_refl)|exact Hp].
Defined.


Lemma owned_laws : Laws owned_methods sink_ok.
Proof. destruct sink_laws. constructor; assumption. Qed.

(** Three bytes in the buffer of a limiting writer that is not exact, over
    an inner writer that is not owned and over one that is. *)
Lemma Close_not_exact_witness :
  let cs := [CallPush 4 0; CallFill 3] in
  let l := fst (calls methods cs (Initialize 10 false empty_sink) empty_sink) in
  let d := snd (calls methods cs (Initialize 10 false empty_sink) empty_sink) in
  let l' := fst (calls owned_methods cs (Initialize 10 false empty_sink) empty_sink) in
  let d' := snd (calls owned_methods cs (Initialize 10 false empty_sink) empty_sink) in
  (lhealthy l = true /\ exact_ l = false /\ lpos l = 3 /\ pos (dw d) = 0)
  /\ (fst (fst (Close methods l d)) = true
      /\ lpos (snd (fst (Close methods l d))) = 3
      /\ pos (dw (snd (Close methods l d))) = 3
      /\ is_open (object (dw (snd (Close methods l d)))) = true)
  /\ (fst (fst (Close owned_methods l' d')) = true
      /\ pos (dw (snd (Close owned_methods l' d'))) = 3
      /\ is_open (object (dw (snd (Close owned_methods l' d')))) = false).
Proof.
  intros cs l d l' d'.
  assert (H1 : 0 <= 10 < two64) by (unfold two64; lia).
  assert (H3 : pos (dw empty_sink) <= 10) by (vm_compute; discriminate).
  split; [repeat split; reflexivity|].
  split.
  - destruct (Close_not_exact methods sink_ok sink_laws l d
                (proj1 (reachable_Limited methods sink_ok sink_laws 10 false empty_sink
                          cs H1 empty_sink_ok H3 eq_refl))
                eq_refl eq_refl) as (_ & Hp & Hq & Hn & _).
    destruct (Hn eq_refl) as (Hf & _ & Hd & Ho).
    split; [exact Hf|]. split; [exact (eq_trans Hp eq_refl)|].
    split; [rewrite Hd; exact (eq_trans Hq eq_refl)|].
    rewrite Ho. reflexivity.
  - destruct (Close_not_exact owned_methods sink_ok owned_laws l' d'
                (proj1 (reachable_Limited owned_methods sink_ok owned_laws 10 false
                          empty_sink cs H1 empty_sink_ok H3 eq_refl))
                eq_refl eq_refl) as (_ & _ & _ & _ & Hy).
    destruct (Hy eq_refl) as (Hd & Hf & _ & _).
    split; [rewrite Hf; reflexivity|].
    rewrite Hd. split; reflexivity.
Defined.

End LimitingWriterCalls.

(** ** The file descriptor writer: flushing, seeking, truncating *)
Module FdWriterOpsSpec.
Import Base BaseFacts Posix FdWriter FdWriterOps Samples MoreSamples FdWriterSpec.
Import FramedSnappyWriter(FlushType, kFromObject, kFromProcess, kFromMachine).

Lemma valid_pos_spec w : valid_pos w = true <-> 0 <= start_pos w <= off_t_max.
Proof. unfold valid_pos. rewrite andb_true_iff, !Z.leb_le. tauto. Qed.

Lemma reply_typed_spec r :
  reply_typed r = true <-> 0 <= st_size r <= off_t_max /\ result r <= off_t_max.
Proof. unfold reply_typed. rewrite !andb_true_iff, !Z.leb_le. tauto. Qed.

(** A call that is not a write: what it leaves of the world. *)
Lemma syscall_returned c os ret r os' :
  syscall c os = Some (ret, r, os') ->
  ret = returned c r /\ pending os = r :: pending os'
  /\ trace os' = trace os ++ [(c, ret)].
Proof.
  unfold syscall. destruct (pending os) as [|r0 rest]; [discriminate|].
  intros H. injection H as <- <- <-. auto.
Qed.

Lemma delivered_snoc tr c n :
  delivered_by (c, n) = [] -> delivered (tr ++ [(c, n)]) = delivered tr.
Proof. intros H. rewrite delivered_app, delivered_one, H. apply app_nil_r. Qed.

Section WithStatus.

Variable ErrnoToCanonicalStatus : Z -> string -> Status.
Variable Annotate : Status -> string -> Status.

Local Abbreviation WriteLoop := (WriteLoop ErrnoToCanonicalStatus Annotate).
Local Abbreviation WriteInternal := (WriteInternal ErrnoToCanonicalStatus Annotate).
Local Abbreviation FailOperation := (FailOperation ErrnoToCanonicalStatus Annotate).
Local Abbreviation PushInternal := (PushInternal ErrnoToCanonicalStatus Annotate).
Local Abbreviation SyncPos := (SyncPos ErrnoToCanonicalStatus Annotate).
Local Abbreviation SeekSlow := (SeekSlow ErrnoToCanonicalStatus Annotate).
Local Abbreviation Size := (Size ErrnoToCanonicalStatus Annotate).
Local Abbreviation Flush := (Flush ErrnoToCanonicalStatus Annotate).
Local Abbreviation TruncateLoop := (TruncateLoop ErrnoToCanonicalStatus Annotate).
Local Abbreviation Truncate := (Truncate ErrnoToCanonicalStatus Annotate).
Local Abbreviation InitializePos := (InitializePos ErrnoToCanonicalStatus Annotate).
Local Abbreviation step := (step ErrnoToCanonicalStatus Annotate).

(** Whatever the loop returns, the position has moved forwards by no more
    than the size of [src], and the answers left are a suffix of those it
    was given. *)
Lemma WriteLoop_range replies :
  forall tr src w b w' os',
  0 <= start_pos w -> start_pos w + size src < two64 ->
  WriteLoop replies tr src w = Some (b, w', os') ->
  start_pos w <= start_pos w' <= start_pos w + size src
  /\ exists used, pending os' = drop used replies.
Proof.
  induction replies as [|r rest IH]; intros tr src w b w' os' H0 Hlt H; [discriminate|].
  cbn [FdWriter.WriteLoop] in H.
  set (c := write_call src w) in *. set (n := returned c r) in *.
  assert (Hsz : 0 <= size src) by (unfold size; lia).
  destruct (Z.ltb_spec n 0) as [Hneg|Hpos].
  - destruct (errno r =? EINTR).
    + destruct (IH _ _ _ _ _ _ H0 Hlt H) as (Hr & used & Hu).
      split; [exact Hr|]. exists (S used). exact Hu.
    + injection H as <- <- <-. simpl. split; [lia|]. exists 1%nat. reflexivity.
  - assert (Hn : n <= size src).
    { unfold n, c. rewrite write_call_returned. unfold UnsignedMin, size.
      destruct (result r <? 0); lia. }
    assert (Hlen : size (drop (Z.to_nat n) src) = size src - n).
    { unfold size in *. rewrite length_drop. lia. }
    assert (Hmv : move_start_pos n w = set_start_pos (start_pos w + n) w).
    { unfold move_start_pos. rewrite wrap64_small; [reflexivity|]. lia. }
    rewrite Hmv in H.
    destruct (drop (Z.to_nat n) src) as [|b0 src'] eqn:Hdrop.
    + injection H as <- <- <-. simpl. split; [lia|]. exists 1%nat. reflexivity.
    + assert (H0' : 0 <= start_pos (set_start_pos (start_pos w + n) w)) by (simpl; lia).
      assert (Hlt' : start_pos (set_start_pos (start_pos w + n) w) + size (b0 :: src') < two64)
        by (rewrite Hlen; simpl; lia).
      destruct (IH _ _ _ _ _ _ H0' Hlt' H) as (Hr & used & Hu).
      rewrite Hlen in Hr. simpl in Hr. split; [lia|]. exists (S used). exact Hu.
Qed.

(** [PushInternal] that returns true has handed the buffered bytes to the
    kernel, emptied the buffer and advanced [start_pos] over them. *)
Lemma PushInternal_delivers w os w1 os1 :
  valid_pos w = true ->
  PushInternal w os = Some (true, w1, os1) ->
  fhealthy w = true
  /\ delivered (trace os1) = delivered (trace os) ++ buffer w
  /\ start_pos w1 = start_pos w + size (buffer w)
  /\ start_pos w1 <= off_t_max
  /\ buffer w1 = [] /\ object w1 = object w /\ dest_fd w1 = dest_fd w
  /\ has_independent_pos_ w1 = has_independent_pos_ w
  /\ exists used, pending os1 = drop used (pending os).
Proof.
  intros Hv H. apply valid_pos_spec in Hv.
  unfold FdWriter.PushInternal in H.
  destruct (fhealthy w) eqn:Hh; simpl in H; [|discriminate].
  split; [reflexivity|].
  destruct (buffer w) as [|b data] eqn:Hb.
  - injection H as <- <-. rewrite app_nil_r, Hb. unfold size. simpl.
    rewrite Z.add_0_r. repeat split; try reflexivity; try lia.
    exists 0%nat. reflexivity.
  - unfold FdWriter.WriteInternal in H.
    assert (Hroom : wrap64 (off_t_max - start_pos (clear_buffer w))
                    = off_t_max - start_pos w).
    { simpl. apply wrap64_small. unfold off_t_max, two64 in *. lia. }
    rewrite Hroom in H.
    destruct (Z.gtb_spec (size (b :: data)) (off_t_max - start_pos w)); [discriminate|].
    apply WriteLoop_true in H as (Hd & Hw & Hu);
      [|simpl; lia|simpl; unfold off_t_max, two64 in *; lia].
    subst w1. simpl in *. repeat split; try reflexivity; try assumption; lia.
Qed.

(** [PushInternal], whatever it returns, keeps the position a valid file
    offset. *)
Lemma PushInternal_valid w os b w1 os1 :
  valid_pos w = true ->
  PushInternal w os = Some (b, w1, os1) ->
  valid_pos w1 = true /\ exists used, pending os1 = drop used (pending os).
Proof.
  intros Hv H. pose proof Hv as Hv'. apply valid_pos_spec in Hv'.
  unfold FdWriter.PushInternal in H.
  destruct (fhealthy w); simpl in H.
  2:{ injection H as <- <- <-. split; [exact Hv|]. exists 0%nat. reflexivity. }
  destruct (buffer w) as [|b0 data] eqn:Hb.
  { injection H as <- <- <-. split; [exact Hv|]. exists 0%nat. reflexivity. }
  unfold FdWriter.WriteInternal in H.
  assert (Hroom : wrap64 (off_t_max - start_pos (clear_buffer w))
                  = off_t_max - start_pos w).
  { simpl. apply wrap64_small. unfold off_t_max, two64 in *. lia. }
  rewrite Hroom in H.
  destruct (Z.gtb_spec (size (b0 :: data)) (off_t_max - start_pos w)).
  - injection H as <- <- <-. split; [exact Hv|]. exists 0%nat. reflexivity.
  - apply WriteLoop_range in H as (Hr & Hu);
      [|simpl; lia|simpl; unfold off_t_max, two64 in *; lia].
    simpl in Hr. split; [apply valid_pos_spec; lia|exact Hu].
Qed.

(** [SyncPos] never moves the writer, and hands no bytes to the kernel. *)
Lemma SyncPos_result w os b w' os' :
  SyncPos w os = Some (b, w', os') ->
  start_pos w' = start_pos w /\ buffer w' = buffer w
  /\ delivered (trace os') = delivered (trace os)
  /\ (b = true -> w' = w)
  /\ (exists calls, trace os' = trace os ++ calls
                    /\ Forall (fun e => is_ftruncate (fst e) = false) calls)
  /\ exists used, pending os' = drop used (pending os).
Proof.
  unfold FdWriter.SyncPos. destruct (has_independent_pos_ w); simpl.
  - intros H. injection H as <- <- <-. repeat split; auto.
    + exists []. rewrite app_nil_r. split; [reflexivity|constructor].
    + exists 0%nat. reflexivity.
  - destruct (syscall _ os) as [[[ret r] os1]|] eqn:Hs; [|discriminate].
    apply syscall_returned in Hs as (_ & Hp & Ht).
    assert (Hd : delivered (trace os1) = delivered (trace os))
      by (rewrite Ht; apply delivered_snoc; reflexivity).
    assert (Hc : exists calls, trace os1 = trace os ++ calls
                   /\ Forall (fun e => is_ftruncate (fst e) = false) calls)
      by (eexists; split; [exact Ht|repeat constructor]).
    assert (Hu : exists used, pending os1 = drop used (pending os))
      by (exists 1%nat; rewrite Hp; reflexivity).
    destruct (ret <? 0); intros H; injection H as <- <- <-; simpl; auto 10.
    repeat split; auto. discriminate.
Qed.

(** X9. A flush that returns true has handed every buffered byte to the
    kernel, in order and after what was written before: the buffer is empty,
    [start_pos] has advanced over the bytes, and the writer is healthy.  For
    [kFromMachine] the last call made is an [fsync] of the descriptor that
    succeeded. *)
Theorem Flush_true_delivers (flush_type : FlushType) (w w' : FdWriter) (os os' : World) :
  valid_pos w = true ->
  Flush flush_type w os = Some (true, w', os') ->
  delivered (trace os') = delivered (trace os) ++ buffer w
  /\ buffer w' = []
  /\ start_pos w' = start_pos w + size (buffer w)
  /\ fhealthy w' = true
  /\ (flush_type = kFromMachine ->
      exists tr n, trace os' = tr ++ [(sys_fsync (dest_fd w), n)] /\ 0 <= n).
Proof.
  intros Hv H. unfold FdWriterOps.Flush in H.
  destruct (PushInternal w os) as [[[[|] w1] os1]|] eqn:Hpush; try discriminate.
  destruct (PushInternal_delivers w os w1 os1 Hv Hpush)
    as (Hh & Hd & Hsp & _ & Hb & Ho & Hfd & _).
  assert (Hh1 : fhealthy w1 = true) by (unfold fhealthy in *; rewrite Ho; exact Hh).
  destruct flush_type.
  - injection H as <- <-. repeat split; auto. discriminate.
  - injection H as <- <-. repeat split; auto. discriminate.
  - destruct (syscall _ os1) as [[[ret r] os2]|] eqn:Hs; [|discriminate].
    apply syscall_returned in Hs as (_ & _ & Ht).
    destruct (Z.ltb_spec ret 0); [discriminate|].
    injection H as <- <-. rewrite Ht, delivered_snoc by reflexivity.
    repeat split; auto. intros _. exists (trace os1), ret. rewrite Hfd. auto.
Qed.

(** X10. An [fsync] that fails is not retried, whatever [errno] says, unlike
    [write] and [ftruncate]: when the buffer was written out and [fsync]
    returns -1, also for [EINTR], [Flush(kFromMachine)] returns false after
    that single call and the writer has failed. *)
Theorem Flush_fsync_is_not_retried (w w1 : FdWriter) (os os1 : World)
    (r : Reply) (rest : list Reply) :
  PushInternal w os = Some (true, w1, os1) ->
  pending os1 = r :: rest -> result r < 0 ->
  Flush kFromMachine w os
  = Some (FailOperation "fsync()" (errno r) w1,
          mkWorld rest (trace os1 ++ [(sys_fsync (dest_fd w1), -1)]))
  /\ fst (FailOperation "fsync()" (errno r) w1) = false
  /\ fhealthy (snd (FailOperation "fsync()" (errno r) w1)) = false.
Proof.
  intros Hpush Hp Hr. unfold FdWriterOps.Flush. rewrite Hpush.
  unfold syscall. rewrite Hp. unfold returned.
  destruct (Z.ltb_spec (result r) 0); [|lia]. simpl.
  split; [reflexivity|]. split; [reflexivity|]. apply healthy_Fail.
Qed.

(** X11. A seek that returns true has first written out the buffered bytes,
    after what was written before, and then moved: the writer is healthy,
    its buffer is empty and [start_pos] is the position asked for. *)
Theorem SeekSlow_true (new_pos : Z) (w w' : FdWriter) (os os' : World) :
  valid_pos w = true ->
  SeekSlow new_pos w os = Some (true, w', os') ->
  start_pos w' = new_pos
  /\ buffer w' = []
  /\ fhealthy w' = true
  /\ delivered (trace os') = delivered (trace os) ++ buffer w.
Proof.
  intros Hv H. unfold FdWriter.SeekSlow in H.
  destruct (PushInternal w os) as [[[[|] w1] os1]|] eqn:Hpush; try discriminate.
  destruct (PushInternal_delivers w os w1 os1 Hv Hpush)
    as (Hh & Hd & Hsp & _ & Hb & Ho & Hfd & _).
  assert (Hh1 : fhealthy w1 = true) by (unfold fhealthy in *; rewrite Ho; exact Hh).
  assert (Hfin : forall os2,
            delivered (trace os2) = delivered (trace os1) ->
            SyncPos (set_start_pos new_pos w1) os2 = Some (true, w', os') ->
            start_pos w' = new_pos /\ buffer w' = [] /\ fhealthy w' = true
            /\ delivered (trace os') = delivered (trace os) ++ buffer w).
  { intros os2 Hd2 Hs. apply SyncPos_result in Hs as (_ & _ & Hd3 & Hw & _).
    rewrite (Hw eq_refl). simpl. rewrite Hd3, Hd2. auto. }
  destruct (new_pos >=? start_pos w1).
  - destruct (syscall _ os1) as [[[ret r] os2]|] eqn:Hs; [|discriminate].
    apply syscall_returned in Hs as (_ & _ & Ht).
    destruct (ret <? 0); [discriminate|].
    destruct (new_pos >? st_size r).
    + destruct (SyncPos _ os2) as [[[? ?] ?]|]; discriminate.
    + apply (Hfin os2); [|exact H]. rewrite Ht. apply delivered_snoc. reflexivity.
  - apply (Hfin os1); [reflexivity|exact H].
Qed.

(** The loop around [ftruncate]: when it returns true, a call of
    [ftruncate(dest, new_size)] has succeeded, and the writer is at
    [new_size]. *)
Lemma TruncateLoop_true replies :
  forall tr new_size w w' os',
  TruncateLoop replies tr new_size w = Some (true, w', os') ->
  w' = set_start_pos new_size w
  /\ delivered (trace os') = delivered tr
  /\ exists n, 0 <= n /\ In (sys_ftruncate (dest_fd w) new_size, n) (trace os').
Proof.
  induction replies as [|r rest IH]; intros tr new_size w w' os' H; [discriminate|].
  cbn [FdWriterOps.TruncateLoop] in H.
  set (c := sys_ftruncate (dest_fd w) new_size) in *.
  destruct (Z.ltb_spec (returned c r) 0) as [Hneg|Hpos].
  - destruct (errno r =? EINTR); [|discriminate].
    apply IH in H as (Hw & Hd & n & Hn & Hin). split; [exact Hw|].
    split; [|exists n; auto].
    rewrite Hd. apply delivered_snoc. reflexivity.
  - apply SyncPos_result in H as (_ & _ & Hd & Hw & (calls & Ht & _) & _).
    split; [apply Hw; reflexivity|]. simpl in Hd, Ht.
    split; [rewrite Hd; apply delivered_snoc; reflexivity|].
    exists (returned c r). split; [lia|]. rewrite Ht.
    apply in_or_app. left. apply in_or_app. right. left. reflexivity.
Qed.

(** X12. A truncation that returns true has first written out the buffered
    bytes, then made a call of [ftruncate(dest, new_size)] that succeeded
    (calls interrupted by [EINTR] being retried), and left the writer
    healthy, with an empty buffer, at [new_size]. *)
Theorem Truncate_true (new_size : Z) (w w' : FdWriter) (os os' : World) :
  valid_pos w = true ->
  Truncate new_size w os = Some (true, w', os') ->
  start_pos w' = new_size
  /\ buffer w' = []
  /\ fhealthy w' = true
  /\ delivered (trace os') = delivered (trace os) ++ buffer w
  /\ exists n, 0 <= n /\ In (sys_ftruncate (dest_fd w) new_size, n) (trace os').
Proof.
  intros Hv H. unfold FdWriterOps.Truncate in H.
  destruct (PushInternal w os) as [[[[|] w1] os1]|] eqn:Hpush; try discriminate.
  destruct (PushInternal_delivers w os w1 os1 Hv Hpush)
    as (Hh & Hd & Hsp & _ & Hb & Ho & Hfd & _).
  assert (Hh1 : fhealthy w1 = true) by (unfold fhealthy in *; rewrite Ho; exact Hh).
  assert (Hfin : forall os2,
            delivered (trace os2) = delivered (trace os1) ->
            TruncateLoop (pending os2) (trace os2) new_size w1 = Some (true, w', os') ->
            start_pos w' = new_size /\ buffer w' = [] /\ fhealthy w' = true
            /\ delivered (trace os') = delivered (trace os) ++ buffer w
            /\ exists n, 0 <= n
                 /\ In (sys_ftruncate (dest_fd w) new_size, n) (trace os')).
  { intros os2 Hd2 Hs. apply TruncateLoop_true in Hs as (Hw & Hd3 & Hin).
    rewrite Hw. simpl. rewrite Hd3, Hd2, <- Hfd. auto 10. }
  destruct (new_size >=? start_pos w1).
  - destruct (syscall _ os1) as [[[ret r] os2]|] eqn:Hs; [|discriminate].
    apply syscall_returned in Hs as (_ & _ & Ht).
    destruct (ret <? 0); [discriminate|].
    destruct (new_size >? st_size r).
    + destruct (FdWriter.SyncPos _ _ _ os2) as [[[? ?] ?]|]; discriminate.
    + apply (Hfin os2); [|exact H]. rewrite Ht. apply delivered_snoc. reflexivity.
  - apply (Hfin os1); [reflexivity|exact H].
Qed.

(** X13. Truncating to a size beyond the end of the file does not touch the
    file: once the buffer is written out and [fstat] reports a size below
    [new_size], [Truncate] returns false, leaves the position at the file
    size, and none of the calls it made is an [ftruncate]. *)
Theorem Truncate_past_end (new_size : Z) (w w1 : FdWriter) (os os1 : World)
    (r : Reply) (rest : list Reply) :
  PushInternal w os = Some (true, w1, os1) ->
  start_pos w1 <= new_size ->
  pending os1 = r :: rest -> 0 <= result r -> st_size r < new_size ->
  has_independent_pos_ w1 = true \/ rest <> [] ->
  exists w' os' calls,
    Truncate new_size w os = Some (false, w', os')
    /\ start_pos w' = st_size r
    /\ trace os' = trace os1 ++ calls
    /\ Forall (fun e => is_ftruncate (fst e) = false) calls.
Proof.
  intros Hpush Hfw Hp Hr Hlt Hsync.
  unfold FdWriterOps.Truncate. rewrite Hpush.
  destruct (Z.geb_spec new_size (start_pos w1)); [|lia].
  unfold syscall at 1. rewrite Hp. unfold returned.
  destruct (Z.ltb_spec (result r) 0); [lia|].
  destruct (Z.ltb_spec (result r) 0); [lia|].
  destruct (Z.gtb_spec new_size (st_size r)); [|lia].
  set (os2 := mkWorld rest (trace os1 ++ [(sys_fstat (dest_fd w1), result r)])).
  assert (Hret : exists b w3 os3,
             SyncPos (set_start_pos (st_size r) w1) os2 = Some (b, w3, os3)).
  { unfold FdWriter.SyncPos. simpl.
    destruct (has_independent_pos_ w1) eqn:Hi; simpl; [eauto|].
    destruct Hsync as [?|Hne]; [discriminate|].
    unfold syscall. simpl. destruct rest as [|r2 rest2]; [congruence|].
    destruct (_ <? 0); eauto. }
  destruct Hret as (b & w3 & os3 & Hs). rewrite Hs.
  apply SyncPos_result in Hs as (Hsp & _ & _ & _ & (calls & Ht & Hc) & _).
  exists w3, os3, ((sys_fstat (dest_fd w1), result r) :: calls).
  split; [reflexivity|]. split; [exact Hsp|].
  split; [rewrite Ht; simpl; rewrite <- app_assoc; reflexivity|].
  constructor; [reflexivity|exact Hc].
Qed.

Local Abbreviation typed os := (Forall (fun r => reply_typed r = true) (pending os)).

Lemma suffix_trans (a b c : World) :
  (exists n, pending b = drop n (pending a)) ->
  (exists m, pending c = drop m (pending b)) ->
  exists k, pending c = drop k (pending a).
Proof.
  intros [n Hn] [m Hm]. exists (n + m)%nat. rewrite Hm, Hn. apply drop_drop.
Qed.

Lemma typed_suffix (a b : World) :
  typed a -> (exists n, pending b = drop n (pending a)) -> typed b.
Proof. intros Ha [n Hn]. rewrite Hn. apply Forall_drop, Ha. Qed.

Lemma syscall_suffix c os ret r os' :
  syscall c os = Some (ret, r, os') ->
  (exists n, pending os' = drop n (pending os))
  /\ (typed os -> reply_typed r = true).
Proof.
  intros H. apply syscall_returned in H as (_ & Hp & _). split.
  - exists 1%nat. rewrite Hp. reflexivity.
  - intros Ht. rewrite Hp in Ht. inversion Ht; assumption.
Qed.

Lemma SyncPos_valid w os b w' os' :
  SyncPos w os = Some (b, w', os') ->
  valid_pos w' = valid_pos w /\ exists n, pending os' = drop n (pending os).
Proof.
  intros H. apply SyncPos_result in H as (Hsp & _ & _ & _ & _ & Hu).
  split; [unfold valid_pos; rewrite Hsp; reflexivity|exact Hu].
Qed.

Lemma SeekSlow_valid new_pos w os b w' os' :
  valid_pos w = true -> 0 <= new_pos -> typed os ->
  SeekSlow new_pos w os = Some (b, w', os') ->
  valid_pos w' = true /\ exists n, pending os' = drop n (pending os).
Proof.
  intros Hv Hn Ht H. unfold FdWriter.SeekSlow in H.
  destruct (PushInternal w os) as [[[b1 w1] os1]|] eqn:Hpush; [|discriminate].
  destruct (PushInternal_valid w os b1 w1 os1 Hv Hpush) as [Hv1 Hu1].
  pose proof (typed_suffix os os1 Ht Hu1) as Ht1.
  destruct b1.
  2:{ injection H as <- <- <-. auto. }
  pose proof Hv1 as Hv1'. apply valid_pos_spec in Hv1'.
  destruct (Z.geb_spec new_pos (start_pos w1)).
  - destruct (syscall _ os1) as [[[ret r] os2]|] eqn:Hs; [|discriminate].
    apply syscall_suffix in Hs as [Hu2 Hr]. specialize (Hr Ht1).
    apply reply_typed_spec in Hr.
    pose proof (suffix_trans os os1 os2 Hu1 Hu2) as Hu12.
    destruct (ret <? 0).
    { injection H as <- <- <-. auto. }
    destruct (Z.gtb_spec new_pos (st_size r)).
    + destruct (SyncPos _ os2) as [[[b3 w3] os3]|] eqn:Hs3; [|discriminate].
      injection H as <- <- <-.
      apply SyncPos_valid in Hs3 as [Hv3 Hu3]. rewrite Hv3. split.
      * apply valid_pos_spec. simpl. lia.
      * apply (suffix_trans os os2 os3 Hu12 Hu3).
    + apply SyncPos_valid in H as [Hv3 Hu3]. rewrite Hv3. split.
      * apply valid_pos_spec. simpl. lia.
      * apply (suffix_trans os os2 os' Hu12 Hu3).
  - apply SyncPos_valid in H as [Hv3 Hu3]. rewrite Hv3. split.
    + apply valid_pos_spec. simpl. lia.
    + apply (suffix_trans os os1 os' Hu1 Hu3).
Qed.

Lemma TruncateLoop_valid replies :
  forall tr new_size w b w' os',
  valid_pos w = true -> 0 <= new_size <= off_t_max ->
  TruncateLoop replies tr new_size w = Some (b, w', os') ->
  valid_pos w' = true /\ exists n, pending os' = drop n replies.
Proof.
  induction replies as [|r rest IH]; intros tr new_size w b w' os' Hv Hn H; [discriminate|].
  cbn [FdWriterOps.TruncateLoop] in H.
  destruct (returned _ r <? 0).
  - destruct (errno r =? EINTR).
    + apply IH in H as [Hv' [n Hu]]; [|exact Hv|exact Hn].
      split; [exact Hv'|]. exists (S n). exact Hu.
    + injection H as <- <- <-. split; [exact Hv|]. exists 1%nat. reflexivity.
  - apply SyncPos_valid in H as [Hv3 [n Hu]]. rewrite Hv3. split.
    + apply valid_pos_spec. simpl. lia.
    + exists (S n). exact Hu.
Qed.

Lemma Truncate_valid new_size w os b w' os' :
  valid_pos w = true -> 0 <= new_size -> typed os ->
  Truncate new_size w os = Some (b, w', os') ->
  valid_pos w' = true /\ exists n, pending os' = drop n (pending os).
Proof.
  intros Hv Hn Ht H. unfold FdWriterOps.Truncate in H.
  destruct (PushInternal w os) as [[[b1 w1] os1]|] eqn:Hpush; [|discriminate].
  destruct (PushInternal_valid w os b1 w1 os1 Hv Hpush) as [Hv1 Hu1].
  pose proof (typed_suffix os os1 Ht Hu1) as Ht1.
  destruct b1.
  2:{ injection H as <- <- <-. auto. }
  pose proof Hv1 as Hv1'. apply valid_pos_spec in Hv1'.
  destruct (Z.geb_spec new_size (start_pos w1)).
  - destruct (syscall _ os1) as [[[ret r] os2]|] eqn:Hs; [|discriminate].
    apply syscall_suffix in Hs as [Hu2 Hr]. specialize (Hr Ht1).
    apply reply_typed_spec in Hr.
    pose proof (suffix_trans os os1 os2 Hu1 Hu2) as Hu12.
    destruct (ret <? 0).
    { injection H as <- <- <-. auto. }
    destruct (Z.gtb_spec new_size (st_size r)).
    + destruct (FdWriter.SyncPos _ _ _ os2) as [[[b3 w3] os3]|] eqn:Hs3; [|discriminate].
      injection H as <- <- <-.
      apply SyncPos_valid in Hs3 as [Hv3 Hu3]. rewrite Hv3. split.
      * apply valid_pos_spec. simpl. lia.
      * apply (suffix_trans os os2 os3 Hu12 Hu3).
    + apply TruncateLoop_valid in H as [Hv3 Hu3]; [|exact Hv1|lia].
      split; [exact Hv3|]. apply (suffix_trans os os2 os' Hu12 Hu3).
  - apply TruncateLoop_valid in H as [Hv3 Hu3]; [|exact Hv1|lia].
    split; [exact Hv3|]. apply (suffix_trans os os1 os' Hu1 Hu3).
Qed.

(** X14. Every operation of an initialized writer that returns (bytes put
    in the buffer, [PushInternal], [Seek], [Size], [Truncate], [Flush]),
    whether it succeeds or fails, keeps [start_pos] a valid file offset,
    [0 <= start_pos <= off_t max], which is what the casts
    [IntCast<off_t>(start_pos())] in [pwrite] and [lseek] rely on; the
    kernel is taken to report file sizes that fit [off_t]. *)
Theorem operations_keep_the_position_valid (op : Op) (w w' : FdWriter)
    (os os' : World) :
  valid_pos w = true -> op_typed op = true ->
  Forall (fun r => reply_typed r = true) (pending os) ->
  step op w os = Some (w', os') ->
  valid_pos w' = true /\ Forall (fun r => reply_typed r = true) (pending os').
Proof.
  intros Hv Hty Ht H.
  assert (Hgoal : valid_pos w' = true /\ exists n, pending os' = drop n (pending os)).
  { destruct op as [src| |new_pos| |new_size|flush_type]; simpl in H.
    - injection H as <- <-. split; [exact Hv|]. exists 0%nat. reflexivity.
    - destruct (PushInternal w os) as [[[b w1] os1]|] eqn:Hp; [|discriminate].
      injection H as <- <-. apply (PushInternal_valid w os b w1 os1 Hv Hp).
    - destruct (SeekSlow new_pos w os) as [[[b w1] os1]|] eqn:Hs; [|discriminate].
      injection H as <- <-. simpl in Hty. apply in_u64_spec in Hty.
      apply (SeekSlow_valid new_pos w os b w1 os1 Hv); [lia|exact Ht|exact Hs].
    - destruct (Size w os) as [[[b w1] os1]|] eqn:Hs; [|discriminate].
      injection H as <- <-. unfold FdWriter.Size in Hs.
      destruct (fhealthy w); simpl in Hs.
      2:{ injection Hs as _ <- <-. split; [exact Hv|]. exists 0%nat. reflexivity. }
      destruct (syscall _ os) as [[[ret r] os2]|] eqn:Hc; [|discriminate].
      apply syscall_suffix in Hc as [Hu _].
      destruct (ret <? 0); injection Hs as _ <- <-; auto.
    - destruct (Truncate new_size w os) as [[[b w1] os1]|] eqn:Hs; [|discriminate].
      injection H as <- <-. simpl in Hty. apply in_u64_spec in Hty.
      apply (Truncate_valid new_size w os b w1 os1 Hv); [lia|exact Ht|exact Hs].
    - destruct (Flush flush_type w os) as [[[b w1] os1]|] eqn:Hs; [|discriminate].
      injection H as <- <-. unfold FdWriterOps.Flush in Hs.
      destruct (PushInternal w os) as [[[b1 w2] os2]|] eqn:Hp; [|discriminate].
      destruct (PushInternal_valid w os b1 w2 os2 Hv Hp) as [Hv2 Hu2].
      destruct b1.
      2:{ injection Hs as _ <- <-. auto. }
      destruct flush_type; try (injection Hs as _ <- <-; auto; fail).
      destruct (syscall _ os2) as [[[ret r] os3]|] eqn:Hc; [|discriminate].
      apply syscall_suffix in Hc as [Hu3 _].
      pose proof (suffix_trans os os2 os3 Hu2 Hu3) as Hu.
      destruct (ret <? 0); injection Hs as _ <- <-; auto. }
  destruct Hgoal as [Hv' Hu]. split; [exact Hv'|]. apply (typed_suffix os os' Ht Hu).
Qed.

(** X15. [InitializePos] on a fresh healthy writer either fails it or
    leaves [start_pos] a valid file offset: a position given beyond
    [off_t max], or an [lseek] that fails (as on a pipe), fails the writer;
    otherwise the position is the one given, or the one [lseek] reported.
    Random access is supported unless a position was assumed, and the
    position is independent of the descriptor's only when asked. *)
Theorem InitializePos_establishes (dest flags : Z)
    (assumed_pos independent_pos : option Z) (w w' : FdWriter) (os os' : World) :
  fhealthy w = true ->
  supports_random_access_ w = false -> has_independent_pos_ w = false ->
  (forall p, assumed_pos = Some p -> 0 <= p) ->
  (forall p, independent_pos = Some p -> 0 <= p) ->
  Forall (fun r => reply_typed r = true) (pending os) ->
  InitializePos dest flags assumed_pos independent_pos w os = Some (w', os') ->
  (fhealthy w' = true ->
   valid_pos w' = true
   /\ match assumed_pos, independent_pos with
      | Some p, _ => start_pos w' = p /\ os' = os
      | None, Some p => start_pos w' = p /\ os' = os
      | None, None =>
          exists whence,
            trace os' = trace os ++ [(sys_lseek dest 0 whence, start_pos w')]
            /\ (whence = SEEK_END <-> Z.land flags O_APPEND <> 0)
      end)
  /\ supports_random_access_ w'
     = match assumed_pos with Some _ => false | None => true end
  /\ has_independent_pos_ w'
     = match assumed_pos, independent_pos with None, Some _ => true | _, _ => false end.
Proof.
  intros Hh Hra Hip Ha Hi Ht H. unfold FdWriterOps.InitializePos in H.
  destruct assumed_pos as [p|].
  - specialize (Ha p eq_refl).
    destruct (Z.gtb_spec p off_t_max); injection H as <- <-; simpl.
    + split; [|auto]. unfold fhealthy. simpl. rewrite healthy_Fail. discriminate.
    + split; [|auto]. intros _. split; [apply valid_pos_spec; simpl; lia|auto].
  - destruct independent_pos as [p|].
    + specialize (Hi p eq_refl).
      destruct (Z.gtb_spec p off_t_max); injection H as <- <-; simpl.
      * split; [|auto]. unfold fhealthy. simpl. rewrite healthy_Fail. discriminate.
      * split; [|auto]. intros _. split; [apply valid_pos_spec; simpl; lia|auto].
    + destruct (syscall _ os) as [[[ret r] os1]|] eqn:Hs; [|discriminate].
      pose proof (syscall_suffix _ _ _ _ _ Hs) as [_ Hr]. specialize (Hr Ht).
      apply reply_typed_spec in Hr.
      apply syscall_returned in Hs as (Hret & _ & Htr).
      destruct (Z.ltb_spec ret 0); injection H as <- <-; simpl.
      * split; [|auto]. unfold fhealthy. simpl. rewrite healthy_Fail. discriminate.
      * split; [|auto]. intros _. split.
        { apply valid_pos_spec. simpl. split; [lia|].
          rewrite Hret. unfold returned. destruct (result r <? 0); lia. }
        eexists. split; [exact Htr|].
        destruct (Z.eqb_spec (Z.land flags O_APPEND) 0); split; congruence.
Qed.

End WithStatus.

Lemma Flush_true_delivers_witness :
  valid_pos fd_writer_at_100 = true
  /\ exists w' os',
       Flush errno_status annotate kFromMachine fd_writer_at_100
         (world [ok_reply 5; ok_reply 0]) = Some (true, w', os')
       /\ delivered (trace os') = abcde
       /\ buffer w' = []
       /\ start_pos w' = 105.
Proof.
  split; [reflexivity|]. eexists _, _. split; [reflexivity|].
  destruct (Flush_true_delivers errno_status annotate kFromMachine fd_writer_at_100 _
              (world [ok_reply 5; ok_reply 0]) _ eq_refl eq_refl)
    as (Hd & Hb & Hs & _).
  split; [exact Hd|]. split; [exact Hb|exact Hs].
Defined.

Lemma Flush_fsync_is_not_retried_witness :
  (PushInternal errno_status annotate (fd_writer []) (world [eintr_reply])
   = Some (true, fd_writer [], world [eintr_reply])
   /\ result eintr_reply < 0 /\ errno eintr_reply = EINTR)
  /\ exists w' tr,
       Flush errno_status annotate kFromMachine (fd_writer []) (world [eintr_reply])
       = Some (false, w', mkWorld [] tr)
       /\ fhealthy w' = false.
Proof.
  assert (Hr : result eintr_reply < 0) by (change (-1 < 0); lia).
  split; [split; [reflexivity|split; [exact Hr|reflexivity]]|].
  destruct (Flush_fsync_is_not_retried errno_status annotate (fd_writer []) (fd_writer [])
              (world [eintr_reply]) (world [eintr_reply]) eintr_reply [] eq_refl eq_refl Hr)
    as (Hf & _ & Hh).
  eexists _, _. split; [exact Hf|exact Hh].
Defined.

Lemma SeekSlow_true_witness :
  valid_pos fd_writer_at_100 = true
  /\ exists w' os',
       SeekSlow errno_status annotate 2 fd_writer_at_100 (world [ok_reply 5; ok_reply 2])
       = Some (true, w', os')
       /\ start_pos w' = 2
       /\ delivered (trace os') = abcde.
Proof.
  split; [reflexivity|]. eexists _, _. split; [reflexivity|].
  destruct (SeekSlow_true errno_status annotate 2 fd_writer_at_100 _
              (world [ok_reply 5; ok_reply 2]) _ eq_refl eq_refl)
    as (Hs & _ & _ & Hd).
  split; [exact Hs|exact Hd].
Defined.

Lemma Truncate_true_witness :
  valid_pos fd_writer_at_100 = true
  /\ exists w' os',
       Truncate errno_status annotate 50 fd_writer_at_100
         (world [ok_reply 5; eintr_reply; ok_reply 0; ok_reply 50])
       = Some (true, w', os')
       /\ start_pos w' = 50
       /\ delivered (trace os') = abcde.
Proof.
  split; [reflexivity|]. eexists _, _. split; [reflexivity|].
  destruct (Truncate_true errno_status annotate 50 fd_writer_at_100 _
              (world [ok_reply 5; eintr_reply; ok_reply 0; ok_reply 50]) _
              eq_refl eq_refl)
    as (Hs & _ & _ & Hd & _).
  split; [exact Hs|exact Hd].
Defined.

Lemma Truncate_past_end_witness :
  (PushInternal errno_status annotate (fd_writer [])
     (world [fstat_reply 200; ok_reply 200])
   = Some (true, fd_writer [], world [fstat_reply 200; ok_reply 200])
   /\ start_pos (fd_writer []) <= 500
   /\ 0 <= result (fstat_reply 200) /\ st_size (fstat_reply 200) < 500)
  /\ exists w' os',
       Truncate errno_status annotate 500 (fd_writer [])
         (world [fstat_reply 200; ok_reply 200]) = Some (false, w', os')
       /\ start_pos w' = 200.
Proof.
  assert (H1 : start_pos (fd_writer []) <= 500) by (change (0 <= 500); lia).
  assert (H2 : 0 <= result (fstat_reply 200)) by (change (0 <= 0); lia).
  assert (H3 : st_size (fstat_reply 200) < 500) by (change (200 < 500); lia).
  assert (H4 : has_independent_pos_ (fd_writer []) = true \/ [ok_reply 200] <> [])
    by (right; discriminate).
  split; [exact (conj eq_refl (conj H1 (conj H2 H3)))|].
  destruct (Truncate_past_end errno_status annotate 500 (fd_writer []) (fd_writer [])
              (world [fstat_reply 200; ok_reply 200])
              (world [fstat_reply 200; ok_reply 200])
              (fstat_reply 200) [ok_reply 200] eq_refl H1 eq_refl H2 H3 H4)
    as (w' & os' & calls & Ht & Hs & _).
  exists w', os'. split; [exact Ht|exact Hs].
Defined.

Lemma operations_keep_the_position_valid_witness :
  (valid_pos fd_writer_at_100 = true
   /\ op_typed (OpTruncate 50) = true
   /\ Forall (fun r => reply_typed r = true)
        [ok_reply 5; eintr_reply; ok_reply 0; ok_reply 50])
  /\ exists w' os',
       step errno_status annotate (OpTruncate 50) fd_writer_at_100
         (world [ok_reply 5; eintr_reply; ok_reply 0; ok_reply 50]) = Some (w', os')
       /\ valid_pos w' = true.
Proof.
  assert (Ht : Forall (fun r => reply_typed r = true)
                 [ok_reply 5; eintr_reply; ok_reply 0; ok_reply 50])
    by (repeat constructor).
  split; [exact (conj eq_refl (conj eq_refl Ht))|].
  eexists _, _. split; [reflexivity|].
  exact (proj1 (operations_keep_the_position_valid errno_status annotate (OpTruncate 50)
                  fd_writer_at_100 _
                  (world [ok_reply 5; eintr_reply; ok_reply 0; ok_reply 50]) _
                  eq_refl eq_refl Ht eq_refl)).
Defined.

Lemma InitializePos_establishes_witness :
  (fhealthy (fd_writer []) = true
   /\ supports_random_access_ (fd_writer []) = false
   /\ has_independent_pos_ (fd_writer []) = false
   /\ Forall (fun r => reply_typed r = true) [ok_reply 42])
  /\ exists w' os',
       InitializePos errno_status annotate 3 O_APPEND None None (fd_writer [])
         (world [ok_reply 42]) = Some (w', os')
       /\ start_pos w' = 42
       /\ trace os' = [(sys_lseek 3 0 SEEK_END, 42)]
       /\ supports_random_access_ w' = true.
Proof.
  assert (Ht : Forall (fun r => reply_typed r = true) [ok_reply 42])
    by (repeat constructor).
  assert (Hn : forall p : Z, @None Z = Some p -> 0 <= p) by (intros p H; discriminate H).
  split; [exact (conj eq_refl (conj eq_refl (conj eq_refl Ht)))|].
  eexists _, _. split; [reflexivity|].
  destruct (InitializePos_establishes errno_status annotate 3 O_APPEND None None
              (fd_writer []) _ (world [ok_reply 42]) _
              eq_refl eq_refl eq_refl Hn Hn Ht eq_refl) as (_ & Hra & _).
  split; [reflexivity|]. split; [reflexivity|exact Hra].
Defined.

End FdWriterOpsSpec.

(** ** The stream descriptor writer *)
Module FdStreamWriterSpec.
Import Base BaseFacts Posix FdStreamWriter Samples MoreSamples FdWriterSpec.

Lemma stream_write_delivered src w n :
  delivered_by (write_call src w, n) = if n <? 0 then [] else take (Z.to_nat n) src.
Proof. reflexivity. Qed.

Lemma stream_write_returned src w r :
  returned (write_call src w) r
  = if result r <? 0 then -1 else Z.min (result r) (UnsignedMin (size src) ssize_t_max).
Proof. reflexivity. Qed.

Section WithStatus.

Variable ErrnoToCanonicalStatus : Z -> string -> Status.
Variable Annotate : Status -> string -> Status.

Local Abbreviation WriteLoop := (WriteLoop ErrnoToCanonicalStatus Annotate).
Local Abbreviation WriteInternal := (WriteInternal ErrnoToCanonicalStatus Annotate).

Lemma stream_WriteLoop_true replies :
  forall tr src w w' os',
  0 <= start_pos w -> start_pos w + size src < two64 ->
  WriteLoop replies tr src w = Some (true, w', os') ->
  delivered (trace os') = delivered tr ++ src
  /\ w' = set_start_pos (start_pos w + size src) w.
Proof.
  induction replies as [|r rest IH]; intros tr src w w' os' H0 Hlt H; [discriminate|].
  cbn [FdStreamWriter.WriteLoop] in H.
  set (c := write_call src w) in *. set (n := returned c r) in *.
  destruct (Z.ltb_spec n 0) as [Hneg|Hpos].
  - destruct (errno r =? EINTR); [|discriminate].
    destruct (IH _ _ _ _ _ H0 Hlt H) as (Hd & Hw).
    rewrite delivered_app, delivered_one in Hd. unfold c in Hd.
    rewrite stream_write_delivered in Hd.
    destruct (Z.ltb_spec n 0); [|lia]. rewrite app_nil_r in Hd. auto.
  - assert (Hn : n <= size src).
    { unfold n, c. rewrite stream_write_returned. unfold UnsignedMin, size.
      destruct (result r <? 0); lia. }
    assert (Hsplit : src = take (Z.to_nat n) src ++ drop (Z.to_nat n) src)
      by (symmetry; apply take_drop).
    assert (Hlen : size (drop (Z.to_nat n) src) = size src - n).
    { unfold size in *. rewrite length_drop. lia. }
    assert (Hmv : move_start_pos n w = set_start_pos (start_pos w + n) w).
    { unfold move_start_pos. rewrite wrap64_small; [reflexivity|].
      unfold size in *. lia. }
    rewrite Hmv in H.
    destruct (drop (Z.to_nat n) src) as [|b src'] eqn:Hdrop.
    + injection H as <- <-. simpl.
      rewrite delivered_app, delivered_one. unfold c. rewrite stream_write_delivered.
      destruct (Z.ltb_spec n 0); [lia|].
      rewrite app_nil_r in Hsplit. rewrite <- Hsplit.
      split; [reflexivity|]. f_equal. unfold size in *. simpl in Hlen. lia.
    + assert (H0' : 0 <= start_pos (set_start_pos (start_pos w + n) w)) by (simpl; lia).
      assert (Hlt' : start_pos (set_start_pos (start_pos w + n) w) + size (b :: src') < two64)
        by (rewrite Hlen; simpl; lia).
      destruct (IH _ _ _ _ _ H0' Hlt' H) as (Hd & Hw).
      rewrite delivered_app, delivered_one in Hd. unfold c in Hd.
      rewrite stream_write_delivered in Hd. destruct (Z.ltb_spec n 0); [lia|].
      split; [rewrite Hd, <- app_assoc, <- Hsplit; reflexivity|].
      rewrite Hw, Hlen. unfold set_start_pos. simpl. f_equal. lia.
Qed.

(** X16. The stream writer counts its position in all of [Position]: when
    [FdStreamWriterBase::WriteInternal(src)] returns true, the bytes handed
    to [write] during the call are exactly [src], in order, and [start_pos]
    has advanced by [src.size()] without wrapping around; a write that
    would take the position beyond [2^64 - 1] is refused with a
    resource-exhausted failure before any call is made. *)
Theorem stream_write_hands_over_src (src : list byte) (w : FdStreamWriter)
    (os : World) :
  0 <= start_pos w < two64 ->
  (forall w' os',
     WriteInternal src w os = Some (true, w', os') ->
     delivered (trace os') = delivered (trace os) ++ src
     /\ w' = set_start_pos (start_pos w + size src) w
     /\ start_pos w' < two64)
  /\ (start_pos w + size src > position_max ->
      WriteInternal src w os = Some (FailOverflow Annotate w, os)
      /\ fhealthy (snd (FailOverflow Annotate w)) = false
      /\ (fhealthy w = true ->
          status (object (snd (FailOverflow Annotate w)))
          = Annotate (ResourceExhaustedError "Writer position overflow")
              (String.append "writing " (filename_ w)))).
Proof.
  intros Hsp.
  assert (Hroom : wrap64 (position_max - start_pos w) = position_max - start_pos w).
  { apply wrap64_small. unfold position_max. lia. }
  unfold FdStreamWriter.WriteInternal. rewrite Hroom. split.
  - intros w' os' H.
    destruct (Z.gtb_spec (size src) (position_max - start_pos w)); [discriminate|].
    unfold position_max in *.
    apply stream_WriteLoop_true in H as (Hd & Hw); [|lia|lia].
    split; [exact Hd|]. split; [exact Hw|]. rewrite Hw. simpl. lia.
  - intros Hover.
    destruct (Z.gtb_spec (size src) (position_max - start_pos w)); [|lia].
    split; [reflexivity|]. split; [apply healthy_Fail|].
    intros Hh. simpl. rewrite (Fail_healthy _ _ Hh). reflexivity.
Qed.


(** X27. The stream writer counts from where [InitializePos] starts it: on
    a fresh writer the position assumed if one is given, else the size of
    the file when the descriptor is in append mode, else 0.  A write that
    then returns true has handed exactly [src] to the kernel and left
    [start_pos] at that start plus [src.size()]. *)
Theorem stream_InitializePos_then_write (dest flags : Z) (assumed_pos : option Z)
    (src : list byte) (w w1 w2 : FdStreamWriter) (os os1 os2 : World) :
  start_pos w = 0 ->
  (forall p, assumed_pos = Some p -> 0 <= p < two64) ->
  Forall (fun r => FdWriterOps.reply_typed r = true) (pending os) ->
  InitializePos ErrnoToCanonicalStatus Annotate dest flags assumed_pos w os
  = Some (w1, os1) ->
  fhealthy w = true -> fhealthy w1 = true ->
  WriteInternal src w1 os1 = Some (true, w2, os2) ->
  let start :=
    match assumed_pos with
    | Some p => p
    | None =>
        if Z.land flags FdWriterOps.O_APPEND =? 0 then 0
        else match pending os with r :: _ => st_size r | [] => 0 end
    end in
  start_pos w1 = start
  /\ start_pos w2 = start + size src
  /\ delivered (trace os2) = delivered (trace os) ++ src.
Proof.
  intros H0 Ha Ht Hinit Hh Hh1 Hw start.
  assert (Hi : start_pos w1 = start
               /\ 0 <= start_pos w1 < two64
               /\ delivered (trace os1) = delivered (trace os)).
  { unfold FdStreamWriter.InitializePos in Hinit. subst start.
    destruct assumed_pos as [p|].
    - injection Hinit as <- <-. simpl. specialize (Ha p eq_refl). auto.
    - destruct (Z.land flags FdWriterOps.O_APPEND =? 0).
      + injection Hinit as <- <-. rewrite H0. unfold two64. repeat split; lia.
      + unfold syscall in Hinit. destruct (pending os) as [|r rest]; [discriminate|].
        inversion Ht as [|? ? Hr _]; subst.
        apply FdWriterOpsSpec.reply_typed_spec in Hr.
        destruct (returned _ r <? 0).
        * injection Hinit as <- <-. unfold fhealthy in Hh1. simpl in Hh1.
          rewrite healthy_Fail in Hh1. discriminate.
        * injection Hinit as <- <-. simpl.
          rewrite delivered_app, delivered_one. simpl. rewrite app_nil_r.
          unfold off_t_max, two64 in *. repeat split; lia. }
  destruct Hi as (Hs & Hr & Hd).
  unfold FdStreamWriter.WriteInternal in Hw.
  rewrite (wrap64_small (position_max - start_pos w1)) in Hw
    by (unfold position_max; lia).
  destruct (Z.gtb_spec (size src) (position_max - start_pos w1)); [discriminate|].
  unfold position_max in *.
  apply stream_WriteLoop_true in Hw as (Hd2 & Hw2); [|lia|lia].
  split; [exact Hs|]. split; [rewrite Hw2; simpl; lia|].
  rewrite Hd2, Hd. reflexivity.
Qed.

End WithStatus.

Lemma stream_write_hands_over_src_witness :
  0 <= start_pos stream_writer < two64
  /\ exists w' os',
       WriteInternal errno_status annotate abcde stream_writer
         (world [ok_reply 2; eintr_reply; ok_reply 3]) = Some (true, w', os')
       /\ delivered (trace os') = abcde
       /\ start_pos w' = 5.
Proof.
  assert (H : 0 <= start_pos stream_writer < two64)
    by (change (0 <= 0 < two64); unfold two64; lia).
  split; [exact H|]. eexists _, _. split; [reflexivity|].
  destruct (proj1 (stream_write_hands_over_src errno_status annotate abcde stream_writer
                     (world [ok_reply 2; eintr_reply; ok_reply 3]) H) _ _ eq_refl)
    as (Hd & _ & _).
  split; [exact Hd|reflexivity].
Defined.

Lemma stream_InitializePos_then_write_witness :
  (start_pos stream_writer = 0
   /\ Forall (fun r => FdWriterOps.reply_typed r = true) [fstat_reply 100; ok_reply 5]
   /\ fhealthy stream_writer = true)
  /\ exists w1 os1 w2 os2,
       InitializePos errno_status annotate 1 FdWriterOps.O_APPEND None stream_writer
         (world [fstat_reply 100; ok_reply 5]) = Some (w1, os1)
       /\ WriteInternal errno_status annotate abcde w1 os1 = Some (true, w2, os2)
       /\ start_pos w1 = 100
       /\ start_pos w2 = 105.
Proof.
  assert (Ht : Forall (fun r => FdWriterOps.reply_typed r = true)
                 [fstat_reply 100; ok_reply 5]) by (repeat constructor).
  assert (Hn : forall p : Z, @None Z = Some p -> 0 <= p < two64)
    by (intros p H; discriminate H).
  split; [exact (conj eq_refl (conj Ht eq_refl))|].
  eexists _, _, _, _. split; [reflexivity|]. split; [reflexivity|].
  destruct (stream_InitializePos_then_write errno_status annotate 1 FdWriterOps.O_APPEND
              None abcde stream_writer _ _ (world [fstat_reply 100; ok_reply 5]) _ _
              eq_refl Hn Ht eq_refl eq_refl eq_refl eq_refl) as (H1 & H2 & _).
  split; [exact H1|exact H2].
Defined.

End FdStreamWriterSpec.

(** ** File names of descriptors *)
Module SetFilenameSpec.
Import Base BaseFacts FdWriter FdWriterOps.

Lemma to_uint_not_Nil (n : N) : N.to_uint n <> Decimal.Nil.
Proof.
  rewrite <- (DecimalN.Unsigned.of_to n), DecimalN.Unsigned.to_of.
  unfold Decimal.unorm. destruct (Decimal.nzhead _); discriminate.
Qed.

Lemma StrCatNum_digits (z : Z) :
  NilZero.uint_of_string (StrCatNum z) = Some (N.to_uint (Z.to_N z)).
Proof. unfold StrCatNum. apply NilZero.usu, to_uint_not_Nil. Qed.

Lemma StrCatNum_inj (a b : Z) :
  0 <= a -> 0 <= b -> StrCatNum a = StrCatNum b -> a = b.
Proof.
  intros Ha Hb H. apply (f_equal NilZero.uint_of_string) in H.
  rewrite !StrCatNum_digits in H. injection H as E.
  apply DecimalN.Unsigned.to_uint_inj in E. lia.
Qed.

Lemma sign_is_no_digit (s : string) :
  NilZero.uint_of_string (String.append "-" s) = None.
Proof. simpl. destruct (NilEmpty.uint_of_string s); reflexivity. Qed.

Lemma StrCatInt_inj (a b : Z) : StrCatInt a = StrCatInt b -> a = b.
Proof.
  unfold StrCatInt.
  destruct (Z.ltb_spec a 0) as [Ha|Ha], (Z.ltb_spec b 0) as [Hb|Hb]; intros Heq.
  - simpl in Heq. injection Heq as E. apply StrCatNum_inj in E; lia.
  - apply (f_equal NilZero.uint_of_string) in Heq.
    rewrite StrCatNum_digits, sign_is_no_digit in Heq. discriminate Heq.
  - apply (f_equal NilZero.uint_of_string) in Heq.
    rewrite StrCatNum_digits, sign_is_no_digit in Heq. discriminate Heq.
  - apply StrCatNum_inj; assumption.
Qed.

Lemma SetFilename_inj (a b : Z) (w1 w2 : FdWriter) :
  filename_ (SetFilename a w1) = filename_ (SetFilename b w2) -> a = b.
Proof.
  unfold SetFilename. simpl.
  destruct (Z.eqb_spec a 1) as [->|Ha1], (Z.eqb_spec b 1) as [->|Hb1];
    try reflexivity;
    [destruct (Z.eqb_spec b 2); intros H; discriminate H | |].
  - destruct (Z.eqb_spec a 2); intros H; discriminate H.
  - destruct (Z.eqb_spec a 2) as [->|Ha2], (Z.eqb_spec b 2) as [->|Hb2];
      try reflexivity; intros H; try discriminate H.
    injection H as E. apply StrCatInt_inj, E.
Qed.

(** X17. The file name [SetFilename] derives from a descriptor, which is
    what the annotation "writing <filename>" of every failure carries,
    determines the descriptor: two different descriptors never get the same
    name. *)
Theorem SetFilename_names_the_descriptor (a b : Z) (w1 w2 : FdWriter) :
  a <> b -> filename_ (SetFilename a w1) <> filename_ (SetFilename b w2).
Proof. intros Hab H. apply Hab, (SetFilename_inj a b w1 w2 H). Qed.

Lemma SetFilename_names_the_descriptor_witness :
  1 <> 12
  /\ filename_ (SetFilename 12 (Samples.fd_writer [])) = "/proc/self/fd/12"%string
  /\ filename_ (SetFilename 1 (Samples.fd_writer []))
     <> filename_ (SetFilename 12 (Samples.fd_writer [])).
Proof.
  assert (H : 1 <> 12) by lia.
  split; [exact H|]. split; [reflexivity|].
  exact (SetFilename_names_the_descriptor 1 12 (Samples.fd_writer [])
           (Samples.fd_writer []) H).
Defined.

End SetFilenameSpec.

(** ** The output stream over a writer *)
Module WriterOutputStreamSpec.
Import Base BaseFacts Writer LimitingWriter WriterOutputStream SizedSink Samples.
Import LimitingWriterSpec LimitingWriterExamples.

Section Contract.

Context {Sink Reader : Type}.
Variable dest_ : Methods Sink Reader.

Variable inv : Dest Sink -> Prop.
Hypothesis laws : Laws dest_ inv.

(** What [Writer::Push(min_length)] promises when it returns true. *)
Hypothesis Push_available : forall m r d,
  inv d -> fst (Push dest_ m r d) = true ->
  m <= available (dw (snd (Push dest_ m r d))).

Lemma stream_invariant_spec s (d : Dest Sink) :
  stream_invariant s d = true
  <-> initial_pos_ s <= pos (dw d) /\ pos (dw d) - initial_pos_ s <= int64_max.
Proof. unfold stream_invariant. rewrite andb_true_iff, !Z.leb_le. tauto. Qed.

Lemma relative_pos_spec s (d : Dest Sink) :
  stream_invariant s d = true ->
  relative_pos s d = pos (dw d) - initial_pos_ s.
Proof.
  intros H. apply stream_invariant_spec in H. unfold relative_pos.
  apply wrap64_small. unfold int64_max, two64 in *. lia.
Qed.

(** X18. [Next] keeps the invariants of the stream, so the assertions of
    [relative_pos()] hold at every call.  When it returns true the block
    handed out has between 1 and [INT_MAX] bytes and [ByteCount()] grows by
    exactly its size, never beyond [int64 max]; when it returns false
    [ByteCount()] is unchanged. *)
Theorem Next_advances_ByteCount (s : WriterOutputStream) (d : Dest Sink) :
  inv d -> stream_invariant s d = true ->
  let r := Next dest_ s d in
  inv (snd r)
  /\ stream_invariant s (snd r) = true
  /\ match fst r with
     | Some size =>
         1 <= size <= int_max
         /\ ByteCount s (snd r) = ByteCount s d + size
         /\ ByteCount s (snd r) <= int64_max
     | None => ByteCount s (snd r) = ByteCount s d
     end.
Proof.
  intros Hi Hs r. subst r. unfold Next, ByteCount.
  pose proof (relative_pos_spec s d Hs) as Hrel.
  pose proof Hs as Hs'. apply stream_invariant_spec in Hs'.
  destruct (Z.eqb_spec (relative_pos s d) int64_max) as [E|E]; [simpl; auto|].
  destruct (law_Push laws 1 0 d Hi) as [Hi1 Hp1].
  pose proof (Push_available 1 0 d Hi) as Hav.
  destruct (Push dest_ 1 0 d) as [ok d1]. simpl in Hi1, Hp1, Hav.
  assert (Hs1 : stream_invariant s d1 = true)
    by (apply stream_invariant_spec; rewrite Hp1; exact Hs').
  assert (Hrel1 : relative_pos s d1 = relative_pos s d)
    by (unfold relative_pos; rewrite Hp1; reflexivity).
  destruct ok; simpl; [|auto].
  specialize (Hav eq_refl).
  pose proof (law_wf laws d1 Hi1) as Hw1.
  pose proof (pos_well_formed _ Hw1) as Hpw1.
  apply well_formed_spec in Hw1.
  assert (Hroom : wrap64 (int64_max - relative_pos s d) = int64_max - relative_pos s d).
  { apply wrap64_small. rewrite Hrel. unfold int64_max, two64 in *. lia. }
  assert (Hava : available (dw d1) = start_to_limit (dw d1) - start_to_cursor (dw d1)).
  { unfold available. apply wrap64_small. lia. }
  set (size := SaturatingIntCast_int
                 (UnsignedMin (available (dw d1)) (wrap64 (int64_max - relative_pos s d)))).
  assert (Hsize : 1 <= size <= int_max /\ size <= available (dw d1)
                  /\ size <= int64_max - relative_pos s d).
  { subst size. unfold SaturatingIntCast_int, UnsignedMin. rewrite Hroom.
    rewrite Hrel in *. unfold int_max, int64_max in *. lia. }
  destruct Hsize as (Hsz1 & Hsz2 & Hsz3).
  assert (Hmove : move_cursor size (dw d1)
                  = set_cursor (start_to_cursor (dw d1) + size) (dw d1)).
  { unfold move_cursor. rewrite wrap64_small by lia. reflexivity. }
  rewrite Hmove.
  assert (Hi2 : inv (mkDest (set_cursor (start_to_cursor (dw d1) + size) (dw d1)) (sink d1))).
  { apply (law_set_cursor laws d1 (start_to_cursor (dw d1) + size) Hi1). lia. }
  pose proof (pos_well_formed _ (law_wf laws _ Hi2)) as Hpw2. simpl in Hpw2.
  assert (Hs2 : stream_invariant s
                  (mkDest (set_cursor (start_to_cursor (dw d1) + size) (dw d1)) (sink d1))
                = true).
  { apply stream_invariant_spec. simpl. rewrite Hpw2. rewrite Hrel in Hsz3. lia. }
  split; [exact Hi2|]. split; [exact Hs2|]. split; [exact Hsz1|].
  rewrite (relative_pos_spec _ _ Hs2), Hrel. simpl. rewrite Hpw2.
  rewrite Hrel in Hsz3. lia.
Qed.

(** X19. [BackUp] gives back the unused end of the last block: after a
    [Next] that handed out [size] bytes, [BackUp(n)] with [0 <= n <= size]
    leaves [ByteCount()] at its value before [Next] plus [size - n], and
    keeps the invariants of the stream. *)
Theorem BackUp_returns_the_unused (s : WriterOutputStream) (d d1 : Dest Sink)
    (size n : Z) :
  inv d -> stream_invariant s d = true ->
  Next dest_ s d = (Some size, d1) -> 0 <= n <= size ->
  inv (BackUp n d1)
  /\ stream_invariant s (BackUp n d1) = true
  /\ ByteCount s (BackUp n d1) = ByteCount s d + size - n
  /\ n <= start_to_cursor (dw d1).
Proof.
  intros Hi Hs HN Hn.
  pose proof (relative_pos_spec s d Hs) as Hrel.
  pose proof Hs as Hs'. apply stream_invariant_spec in Hs'.
  unfold Next in HN.
  destruct (Z.eqb_spec (relative_pos s d) int64_max) as [E|E]; [discriminate|].
  destruct (law_Push laws 1 0 d Hi) as [Hi1 Hp1].
  pose proof (Push_available 1 0 d Hi) as Hav.
  destruct (Push dest_ 1 0 d) as [ok d0]. simpl in Hi1, Hp1, Hav.
  destruct ok; simpl in HN; [|discriminate].
  specialize (Hav eq_refl).
  pose proof (law_wf laws d0 Hi1) as Hw1.
  pose proof (pos_well_formed _ Hw1) as Hpw1.
  apply well_formed_spec in Hw1.
  assert (Hroom : wrap64 (int64_max - relative_pos s d) = int64_max - relative_pos s d).
  { apply wrap64_small. rewrite Hrel. unfold int64_max, two64 in *. lia. }
  assert (Hava : available (dw d0) = start_to_limit (dw d0) - start_to_cursor (dw d0)).
  { unfold available. apply wrap64_small. lia. }
  injection HN as Hsize Hd1.
  assert (Hsz : size <= available (dw d0)).
  { rewrite <- Hsize. unfold SaturatingIntCast_int, UnsignedMin. lia. }
  assert (Hmove : move_cursor size (dw d0)
                  = set_cursor (start_to_cursor (dw d0) + size) (dw d0)).
  { unfold move_cursor. rewrite wrap64_small by lia. reflexivity. }
  rewrite Hsize, Hmove in Hd1.
  assert (Hback : BackUp n d1
                  = mkDest (set_cursor (start_to_cursor (dw d0) + size - n) (dw d0))
                      (sink d0)).
  { subst d1. unfold BackUp, dest_set_cursor, set_cursor. simpl.
    rewrite (wrap64_small (start_to_cursor (dw d0) + size - n)) by lia. reflexivity. }
  rewrite Hback.
  assert (Hi2 : inv (mkDest (set_cursor (start_to_cursor (dw d0) + size - n) (dw d0))
                       (sink d0))).
  { apply (law_set_cursor laws d0 (start_to_cursor (dw d0) + size - n) Hi1). lia. }
  pose proof (pos_well_formed _ (law_wf laws _ Hi2)) as Hpw2. simpl in Hpw2.
  assert (Hs2 : stream_invariant s
                  (mkDest (set_cursor (start_to_cursor (dw d0) + size - n) (dw d0))
                     (sink d0)) = true).
  { apply stream_invariant_spec. simpl. rewrite Hpw2.
    assert (size <= int64_max - relative_pos s d).
    { rewrite <- Hsize. unfold SaturatingIntCast_int, UnsignedMin. rewrite Hroom. lia. }
    rewrite Hrel in *. lia. }
  split; [exact Hi2|]. split; [exact Hs2|]. split; [|subst d1; simpl; lia].
  unfold ByteCount. rewrite (relative_pos_spec _ _ Hs2), Hrel. simpl. rewrite Hpw2. lia.
Qed.

End Contract.

(** The concrete inner writer keeps the promise of [Push]. *)
Lemma sink_Push_available m r (d : D) :
  sink_ok d -> fst (Push methods m r d) = true ->
  m <= available (dw (snd (Push methods m r d))).
Proof.
  intros Hd. simpl. unfold sPush, commit, fail.
  destruct (whealthy (dw d)); simpl; [|discriminate].
  destruct ((Z.max m r <? 0) || (two64 <=? pos (dw d) + Z.max m r)) eqn:E; simpl;
    [discriminate|].
  intros _. apply orb_false_iff in E as [E1 E2].
  apply Z.ltb_ge in E1. apply Z.leb_gt in E2.
  rewrite (sink_pos d Hd) in E2. apply sink_ok_spec in Hd.
  unfold available. simpl. rewrite Z.sub_0_r, wrap64_small by lia. lia.
Qed.

Lemma Next_advances_ByteCount_witness :
  (sink_ok sink3 /\ stream_invariant (Create sink3) sink3 = true)
  /\ fst (Next methods (Create sink3) sink3) = Some 1
  /\ stream_invariant (Create sink3) (snd (Next methods (Create sink3) sink3)) = true.
Proof.
  assert (Hok : sink_ok sink3) by (split; [reflexivity|simpl; unfold two64; lia]).
  split; [split; [exact Hok|reflexivity]|].
  destruct (Next_advances_ByteCount methods sink_ok sink_laws sink_Push_available
              (Create sink3) sink3 Hok eq_refl) as (_ & H & _).
  split; [reflexivity|exact H].
Defined.

Lemma BackUp_returns_the_unused_witness :
  (sink_ok sink3 /\ stream_invariant (Create sink3) sink3 = true
   /\ Next methods (Create sink3) sink3
      = (Some 1, snd (Next methods (Create sink3) sink3))
   /\ 0 <= 1 <= 1)
  /\ ByteCount (Create sink3) (BackUp 1 (snd (Next methods (Create sink3) sink3))) = 0.
Proof.
  assert (Hok : sink_ok sink3) by (split; [reflexivity|simpl; unfold two64; lia]).
  assert (Hn : 0 <= 1 <= 1) by lia.
  split; [exact (conj Hok (conj eq_refl (conj eq_refl Hn)))|].
  destruct (BackUp_returns_the_unused methods sink_ok sink_laws sink_Push_available
              (Create sink3) sink3 (snd (Next methods (Create sink3) sink3)) 1 1
              Hok eq_refl eq_refl Hn) as (_ & _ & H & _).
  exact (eq_trans H eq_refl).
Defined.

End WriterOutputStreamSpec.

(** ** Serializing a message: which failure is reported *)
Module MessageSerializeFailures.
Import Base BaseFacts MessageSerialize Samples.

Section WithWriter.

Variable Writer : Type.
Variable status : Writer -> Status.
Variable Close : Writer -> bool * Writer.
Variable SerializePartialToCodedStream : MessageLite -> bool -> Writer -> bool * Writer.

Local Abbreviation Impl := (SerializeToWriterImpl Writer status SerializePartialToCodedStream).
Local Abbreviation Serialize :=
  (SerializeToWriter Writer status Close SerializePartialToCodedStream).

(** X20. [SerializeToWriter] reports the first failure.  Missing required
    fields are checked before the size, so without the partial option an
    uninitialized message is refused as an invalid argument and nothing is
    serialized, whatever its size.  A destination that is owned is closed
    in every case, also after a failure; a failure of [Close()] is reported
    only when serializing succeeded, and never replaces an earlier failure.
    A destination that is not owned is left as serializing left it. *)
Theorem SerializeToWriter_reports_the_first_failure (is_owning : bool)
    (src : MessageLite) (dest : Writer) (options : SerializeOptions) :
  let impl := Impl src dest options in
  let r := Serialize is_owning src dest options in
  (partial options = false /\ IsInitialized src = false ->
   code (fst impl) = kInvalidArgument /\ snd impl = dest /\ fst r = fst impl)
  /\ (status_ok (fst impl) = false -> fst r = fst impl)
  /\ (is_owning = true ->
      snd r = snd (Close (snd impl))
      /\ (status_ok (fst impl) = true ->
          fst r = if fst (Close (snd impl)) then fst impl
                  else status (snd (Close (snd impl)))))
  /\ (is_owning = false -> r = impl).
Proof.
  intros impl r.
  assert (Hfirst : status_ok (fst impl) = false -> fst r = fst impl).
  { intros Hbad. subst r. unfold SerializeToWriter. fold impl.
    destruct impl as [st d1]. simpl in *. destruct is_owning; [|reflexivity].
    destruct (Close d1) as [[|] d2]; simpl; [reflexivity|]. rewrite Hbad. reflexivity. }
  split; [|split; [exact Hfirst|split]].
  - intros [Hp Hi].
    assert (E : impl = (InvalidArgumentError
                          (String.append "Failed to serialize message of type "
                             (String.append (GetTypeName src)
                                (String.append " because it is missing required fields: "
                                   (InitializationErrorString src)))), dest)).
    { subst impl. unfold SerializeToWriterImpl. rewrite Hp, Hi. reflexivity. }
    split; [rewrite E; reflexivity|]. split; [rewrite E; reflexivity|].
    apply Hfirst. rewrite E. reflexivity.
  - intros ->. subst r. unfold SerializeToWriter. fold impl.
    destruct impl as [st d1]. simpl.
    destruct (Close d1) as [[|] d2]; simpl; (split; [reflexivity|]); intros Hok;
      [reflexivity|rewrite Hok; reflexivity].
  - intros ->. subst r. unfold SerializeToWriter. fold impl.
    destruct impl as [st d1]. reflexivity.
Qed.

End WithWriter.

End MessageSerializeFailures.

(** ** The framed-Snappy writer: what a flush reaches *)
Module FramedSnappyWriterFlush.
Import Base BaseFacts FramedSnappyWriter Samples.

Section WithDest.

Variable BaseState Dest : Type.
Variable dest_Flush : FlushType -> Dest -> bool * Dest.
Variable dest_status : Dest -> Status.
Variable Base_FlushImpl :
  FlushType -> FramedSnappyWriter BaseState -> Dest
  -> bool * FramedSnappyWriter BaseState * Dest.
Variable AnnotateOverDest : Status -> FramedSnappyWriter BaseState -> Dest -> Status.

Local Abbreviation FlushImpl :=
  (FlushImpl BaseState Dest dest_Flush dest_status Base_FlushImpl AnnotateOverDest).

(** X21. [FlushImpl] returns what the flush of the base class returned,
    whatever the compressed writer does.  The compressed writer is not
    flushed after a failed base flush, nor for [kFromObject] when it is not
    owned; when its flush succeeds the writer is left as the base flush left
    it; and a failure the writer already holds is never replaced. *)
Theorem FlushImpl_returns_the_base_result (flush_type : FlushType)
    (w : FramedSnappyWriter BaseState) (d : Dest) :
  let b := Base_FlushImpl flush_type w d in
  let r := FlushImpl flush_type w d in
  fst (fst r) = fst (fst b)
  /\ (fst (fst b) = false -> r = b)
  /\ (flush_type = kFromObject -> is_owning (snd (fst b)) = false -> r = b)
  /\ (fst (dest_Flush flush_type (snd b)) = true -> snd (fst r) = snd (fst b))
  /\ (forall st, failure (object (snd (fst b))) = Some st ->
      failure (object (snd (fst r))) = Some st).
Proof.
  intros b r. subst r. unfold FramedSnappyWriter.FlushImpl. fold b.
  destruct b as [[ok w1] d1]. simpl.
  destruct ok; [|repeat split; auto].
  destruct (negb (is_from_object flush_type) || is_owning w1) eqn:Hc.
  - destruct (dest_Flush flush_type d1) as [[|] d2] eqn:Hf; simpl.
    + repeat split; auto; try discriminate.
      intros -> Ho. rewrite Ho in Hc. discriminate.
    + split; [reflexivity|]. split; [discriminate|]. split.
      { intros -> Ho. rewrite Ho in Hc. discriminate. }
      split; [discriminate|].
      intros st Hst. unfold Fail. rewrite Hst. exact Hst.
  - repeat split; auto.
Qed.

End WithDest.

End FramedSnappyWriterFlush.

(** ** The writer over a C++ output stream *)
Module OstreamWriterSpec.
Import Base BaseFacts OstreamWriter Samples MoreSamples.

Lemma call_spec c s a s' :
  call c s = Some (a, s') ->
  pending s = a :: pending s' /\ trace s' = trace s ++ [c]
  /\ failed s' = fails a /\ errno s' = errno_after a (errno s).
Proof.
  unfold call. destruct (pending s) as [|a0 rest]; [discriminate|].
  intros H. injection H as <- <-. auto.
Qed.

Lemma written_snoc tr c : written (tr ++ [c]) = written tr ++ written_by c.
Proof. unfold written. rewrite map_app, concat_app. simpl. rewrite app_nil_r. reflexivity. Qed.

(** Two streams that differ at most in the value of [errno]. *)
Lemma call_with_errno c e s :
  call c (with_errno e s)
  = match call c s with
    | Some (a, s') => Some (a, with_errno (errno_after a e) s')
    | None => None
    end.
Proof. unfold call, with_errno. simpl. destruct (pending s); reflexivity. Qed.

Lemma reset_with_errno e s : reset_errno (with_errno e s) = reset_errno s.
Proof. reflexivity. Qed.

Section WithStatus.

Variable ErrnoToCanonicalStatus : Z -> string -> Status.
Variable AnnotateStatus : Status -> OstreamWriter -> Status.
Variable Base_SeekBehindBuffer : Z -> OstreamWriter -> bool * OstreamWriter.
Variable Base_SizeBehindBuffer : OstreamWriter -> option Z * OstreamWriter.

(** The versions of [BufferedWriter] fail, as the code says of them. *)
Hypothesis Base_Seek_fails : forall p w, fst (Base_SeekBehindBuffer p w) = false.
Hypothesis Base_Size_fails : forall w, fst (Base_SizeBehindBuffer w) = None.

Local Abbreviation FailOperation := (FailOperation ErrnoToCanonicalStatus AnnotateStatus).
Local Abbreviation supports_random_access :=
  (supports_random_access ErrnoToCanonicalStatus AnnotateStatus).
Local Abbreviation WriteMode := (WriteMode ErrnoToCanonicalStatus AnnotateStatus).
Local Abbreviation WriteLoop := (WriteLoop ErrnoToCanonicalStatus AnnotateStatus).
Local Abbreviation WriteInternal := (WriteInternal ErrnoToCanonicalStatus AnnotateStatus).
Local Abbreviation SeekBehindBuffer :=
  (SeekBehindBuffer ErrnoToCanonicalStatus AnnotateStatus Base_SeekBehindBuffer).
Local Abbreviation SizeBehindBuffer :=
  (SizeBehindBuffer ErrnoToCanonicalStatus AnnotateStatus Base_SizeBehindBuffer).

Lemma ostream_WriteLoop_true answers :
  forall tr err src w w' s',
  0 <= start_pos w -> start_pos w + size src < two64 ->
  WriteLoop answers tr err src w = Some (true, w', s') ->
  written (trace s') = written tr ++ src
  /\ w' = set_start_pos (start_pos w + size src) w.
Proof.
  induction answers as [|a rest IH]; intros tr err src w w' s' H0 Hlt H; [discriminate|].
  cbn [OstreamWriter.WriteLoop] in H.
  set (n := UnsignedMin (size src) streamsize_max) in *.
  destruct (fails a); [discriminate|].
  assert (Hn : 0 <= n <= size src).
  { unfold n, UnsignedMin, size, streamsize_max. lia. }
  assert (Hsplit : src = take (Z.to_nat n) src ++ drop (Z.to_nat n) src)
    by (symmetry; apply take_drop).
  assert (Hlen : size (drop (Z.to_nat n) src) = size src - n).
  { unfold size in *. rewrite length_drop. lia. }
  assert (Hmv : move_start_pos n w = set_start_pos (start_pos w + n) w).
  { unfold move_start_pos. rewrite wrap64_small; [reflexivity|]. lia. }
  rewrite Hmv in H.
  destruct (drop (Z.to_nat n) src) as [|b src'] eqn:Hdrop.
  - injection H as <- <-. simpl. rewrite written_snoc. simpl.
    rewrite app_nil_r in Hsplit. rewrite <- Hsplit.
    split; [reflexivity|]. f_equal. unfold size in *. simpl in Hlen. lia.
  - assert (H0' : 0 <= start_pos (set_start_pos (start_pos w + n) w)) by (simpl; lia).
    assert (Hlt' : start_pos (set_start_pos (start_pos w + n) w) + size (b :: src') < two64)
      by (rewrite Hlen; simpl; lia).
    destruct (IH _ _ _ _ _ _ H0' Hlt' H) as (Hd & Hw).
    rewrite written_snoc in Hd. simpl in Hd.
    split; [rewrite Hd, <- app_assoc, <- Hsplit; reflexivity|].
    rewrite Hw, Hlen. unfold set_start_pos. simpl. f_equal. lia.
Qed.

Lemma WriteMode_true w s w1 s1 :
  WriteMode w s = Some (true, w1, s1) ->
  w1 = set_read_mode false w /\ written (trace s1) = written (trace s).
Proof.
  unfold OstreamWriter.WriteMode. destruct (read_mode_ w) eqn:Hr; simpl.
  - destruct (ohealthy _); simpl; [|discriminate].
    destruct (call _ _) as [[a s2]|] eqn:Hc; [|discriminate].
    apply call_spec in Hc as (_ & Ht & _). simpl in Ht.
    destruct (fails a); [discriminate|]. intros H. injection H as <- <-.
    split; [reflexivity|]. rewrite Ht, written_snoc. simpl. apply app_nil_r.
  - intros H. injection H as <- <-. split; [|reflexivity].
    destruct w. simpl in *. subst. reflexivity.
Qed.

(** X22. When [OstreamWriterBase::WriteInternal(src)] returns true, the
    bytes handed to [ostream::write] during the call are exactly [src], in
    order, [start_pos] has advanced by [src.size()] and is still a valid
    stream offset, and the writer is in write mode. *)
Theorem ostream_write_hands_over_src (src : list byte) (w w' : OstreamWriter)
    (s s' : Stream) :
  0 <= start_pos w <= streamoff_max ->
  WriteInternal src w s = Some (true, w', s') ->
  written (trace s') = written (trace s) ++ src
  /\ start_pos w' = start_pos w + size src
  /\ start_pos w' <= streamoff_max
  /\ read_mode_ w' = false
  /\ object w' = object w.
Proof.
  intros Hsp H. unfold OstreamWriter.WriteInternal in H.
  destruct (WriteMode w s) as [[[[|] w1] s1]|] eqn:Hm; try discriminate.
  apply WriteMode_true in Hm as [-> Hw1]. simpl in H.
  assert (Hroom : wrap64 (streamoff_max - start_pos w) = streamoff_max - start_pos w).
  { apply wrap64_small. unfold streamoff_max, two64 in *. lia. }
  rewrite Hroom in H.
  destruct (Z.gtb_spec (size src) (streamoff_max - start_pos w)); [discriminate|].
  apply ostream_WriteLoop_true in H as (Hd & Hw);
    [|simpl; lia|simpl; unfold streamoff_max, two64 in *; lia].
  rewrite Hw, Hd, Hw1. simpl. repeat split; try reflexivity. lia.
Qed.

(** What resolving [supports_random_access_] leaves. *)
Lemma supports_random_access_spec w s b w' s' :
  supports_random_access w s = Some (b, w', s') ->
  supports_random_access_ w'
  = (if b then LazyBoolState.kTrue else LazyBoolState.kFalse)
  /\ start_pos w' = start_pos w
  /\ written (trace s') = written (trace s)
  /\ (b = true -> object w' = object w /\ read_mode_ w' = read_mode_ w).
Proof.
  unfold OstreamWriter.supports_random_access.
  destruct (supports_random_access_ w) eqn:Hf.
  - intros H. injection H as <- <- <-. repeat split; auto; discriminate.
  - intros H. injection H as <- <- <-. repeat split; auto.
  - destruct (call _ s) as [[a s1]|] eqn:Hc; [|discriminate].
    apply call_spec in Hc as (_ & Ht & _).
    destruct (fails a).
    + intros H. injection H as <- <- <-. simpl. repeat split; try discriminate.
      rewrite Ht, !written_snoc. simpl. rewrite !app_nil_r. reflexivity.
    + destruct (call _ (reset_errno s1)) as [[a2 s2]|] eqn:Hc2; [|discriminate].
      apply call_spec in Hc2 as (_ & Ht2 & _). simpl in Ht2.
      assert (Hwr : written (trace s2) = written (trace s)).
      { rewrite Ht2, Ht, !written_snoc. simpl. rewrite !app_nil_r. reflexivity. }
      destruct (fails a2); intros H; injection H as <- <- <-; simpl;
        repeat split; auto; discriminate.
Qed.

(** X23. The answer of [supports_random_access()] is resolved once: the
    call leaves [supports_random_access_] at the answer it gives, keeps
    [start_pos] and writes nothing, and asking again gives the same answer
    without touching the stream. *)
Theorem supports_random_access_is_resolved_once (w w' : OstreamWriter) (s s' : Stream)
    (b : bool) :
  supports_random_access w s = Some (b, w', s') ->
  supports_random_access_ w'
  = (if b then LazyBoolState.kTrue else LazyBoolState.kFalse)
  /\ start_pos w' = start_pos w
  /\ written (trace s') = written (trace s)
  /\ forall s2, supports_random_access w' s2 = Some (b, w', s2).
Proof.
  intros H. apply supports_random_access_spec in H as (Hf & Hsp & Hw & _).
  split; [exact Hf|]. split; [exact Hsp|]. split; [exact Hw|].
  intros s2. unfold OstreamWriter.supports_random_access. rewrite Hf.
  destruct b; reflexivity.
Qed.

(** X24. A seek that returns true has positioned the stream, by its last
    call, at the position asked for, which is now [start_pos]; the writer is
    healthy, random access is known to be supported, and nothing was
    written. *)
Theorem SeekBehindBuffer_true (new_pos : Z) (w w' : OstreamWriter) (s s' : Stream) :
  SeekBehindBuffer new_pos w s = Some (true, w', s') ->
  start_pos w' = new_pos
  /\ ohealthy w' = true
  /\ supports_random_access_ w' = LazyBoolState.kTrue
  /\ written (trace s') = written (trace s)
  /\ exists tr, trace s' = tr ++ [call_seekp new_pos beg].
Proof.
  intros H. unfold OstreamWriter.SeekBehindBuffer in H.
  destruct (supports_random_access w s) as [[[[|] w1] s1]|] eqn:Hr; try discriminate.
  2:{ injection H as H _. pose proof (Base_Seek_fails new_pos w1) as Hb.
      rewrite H in Hb. discriminate. }
  apply supports_random_access_spec in Hr as (Hf & _ & Hw1 & _).
  destruct (ohealthy w1) eqn:Hh; simpl in H; [|discriminate].
  assert (Hfin : forall s2,
            written (trace s2) = written (trace s) ->
            match call (call_seekp new_pos beg) s2 with
            | Some (a, s3) =>
                if fails a then Some (FailOperation "ostream::seekp()" w1 s3, s3)
                else Some (true, set_start_pos new_pos w1, s3)
            | None => None
            end = Some (true, w', s') ->
            start_pos w' = new_pos /\ ohealthy w' = true
            /\ supports_random_access_ w' = LazyBoolState.kTrue
            /\ written (trace s') = written (trace s)
            /\ exists tr, trace s' = tr ++ [call_seekp new_pos beg]).
  { intros s2 Hw2 Hc. destruct (call _ s2) as [[a s3]|] eqn:Hc3; [|discriminate].
    apply call_spec in Hc3 as (_ & Ht & _).
    destruct (fails a); [discriminate|]. injection Hc as <- <-. simpl.
    split; [reflexivity|]. split; [exact Hh|]. split; [exact Hf|].
    split; [rewrite Ht, written_snoc; simpl; rewrite app_nil_r; exact Hw2|].
    exists (trace s2). exact Ht. }
  destruct (new_pos >? start_pos w1).
  - destruct (call _ (reset_errno s1)) as [[a s2]|] eqn:Hc; [|discriminate].
    apply call_spec in Hc as (_ & Ht & _). simpl in Ht.
    destruct (fails a); [discriminate|].
    destruct (call call_tellp s2) as [[a2 s3]|] eqn:Hc2; [|discriminate].
    apply call_spec in Hc2 as (_ & Ht2 & _).
    destruct (value a2 <? 0); [discriminate|].
    destruct (new_pos >? value a2); [discriminate|].
    apply (Hfin s3); [|exact H].
    rewrite Ht2, Ht, !written_snoc. simpl. rewrite !app_nil_r. exact Hw1.
  - apply (Hfin (reset_errno s1)); [exact Hw1|exact H].
Qed.

(** Resolving [supports_random_access_] consumes answers of the stream from
    the front. *)
Lemma supports_random_access_pending w s b w' s' :
  supports_random_access w s = Some (b, w', s') ->
  exists pre, pending s = pre ++ pending s'.
Proof.
  unfold OstreamWriter.supports_random_access.
  destruct (supports_random_access_ w).
  - intros H. injection H as _ _ <-. exists []. reflexivity.
  - intros H. injection H as _ _ <-. exists []. reflexivity.
  - destruct (call _ s) as [[a s1]|] eqn:Hc; [|discriminate].
    apply call_spec in Hc as (Hp & _).
    destruct (fails a).
    + intros H. injection H as _ _ <-. exists [a]. exact Hp.
    + destruct (call _ (reset_errno s1)) as [[a2 s2]|] eqn:Hc2; [|discriminate].
      apply call_spec in Hc2 as (Hp2 & _). simpl in Hp2.
      destruct (fails a2); intros H; injection H as _ _ <-;
        exists [a; a2]; rewrite Hp, Hp2; reflexivity.
Qed.

(** X25. [SizeBehindBuffer], when it returns a size, has restored the
    stream position: the calls it ends with are [seekp(0, end)], [tellp()]
    and [seekp(start_pos, beg)], none of which failed, and the size returned
    is the value that [tellp()] answered, which is not negative; the writer
    is healthy, at the same [start_pos], and nothing was written. *)
Theorem SizeBehindBuffer_restores_the_position (w w' : OstreamWriter) (s s' : Stream)
    (n : Z) :
  SizeBehindBuffer w s = Some (Some n, w', s') ->
  0 <= n
  /\ start_pos w' = start_pos w
  /\ ohealthy w' = true
  /\ written (trace s') = written (trace s)
  /\ (exists tr,
        trace s' = tr ++ [call_seekp 0 end_; call_tellp; call_seekp (start_pos w) beg])
  /\ (exists pre a_end a_tell a_beg,
        pending s = pre ++ [a_end; a_tell; a_beg] ++ pending s'
        /\ n = value a_tell
        /\ fails a_end = false /\ fails a_beg = false
        /\ failed s' = false).
Proof.
  intros H. unfold OstreamWriter.SizeBehindBuffer in H.
  destruct (supports_random_access w s) as [[[[|] w1] s1]|] eqn:Hr; try discriminate.
  2:{ injection H as H _. pose proof (Base_Size_fails w1) as Hb.
      rewrite H in Hb. discriminate. }
  destruct (supports_random_access_pending _ _ _ _ _ Hr) as [pre Hpre].
  apply supports_random_access_spec in Hr as (Hf & Hsp & Hw1 & _).
  destruct (ohealthy w1) eqn:Hh; simpl in H; [|discriminate].
  destruct (call _ (reset_errno s1)) as [[a s2]|] eqn:Hc; [|discriminate].
  apply call_spec in Hc as (Hp & Ht & _). simpl in Ht, Hp.
  destruct (fails a) eqn:Hfa; [discriminate|].
  destruct (call call_tellp s2) as [[a2 s3]|] eqn:Hc2; [|discriminate].
  apply call_spec in Hc2 as (Hp2 & Ht2 & _).
  destruct (Z.ltb_spec (value a2) 0); [discriminate|].
  destruct (call _ s3) as [[a3 s4]|] eqn:Hc3; [|discriminate].
  apply call_spec in Hc3 as (Hp3 & Ht3 & Hfl & _).
  destruct (fails a3) eqn:Hfa3; [discriminate|]. injection H as <- <- <-.
  split; [assumption|]. split; [exact Hsp|]. split; [exact Hh|]. split; [|split].
  - rewrite Ht3, Ht2, Ht, !written_snoc. simpl. rewrite !app_nil_r. exact Hw1.
  - exists (trace s1). rewrite Ht3, Ht2, Ht, Hsp, <- !app_assoc. reflexivity.
  - exists pre, a, a2, a3. split; [rewrite Hpre, Hp, Hp2, Hp3; reflexivity|].
    split; [reflexivity|]. split; [exact Hfa|]. split; [exact Hfa3|exact Hfl].
Qed.

(** The outcome of a call, without the stream it leaves. *)
Local Abbreviation outcome r := (option_map fst r).

Lemma WriteMode_errno e w s :
  WriteMode w (with_errno e s)
  = match WriteMode w s with
    | Some (b, w1, s1) =>
        Some (b, w1, if read_mode_ w && ohealthy (set_read_mode false w) then s1
                     else with_errno e s1)
    | None => None
    end.
Proof.
  unfold OstreamWriter.WriteMode. destruct (read_mode_ w); simpl; [|reflexivity].
  destruct (ohealthy _); simpl; [|reflexivity].
  rewrite reset_with_errno. destruct (call _ _) as [[a s1]|]; [|reflexivity].
  destruct (fails a); reflexivity.
Qed.

Lemma supports_random_access_errno e w s :
  exists e',
    supports_random_access w (with_errno e s)
    = match supports_random_access w s with
      | Some (b, w1, s1) => Some (b, w1, with_errno (e' (errno s1)) s1)
      | None => None
      end.
Proof.
  unfold OstreamWriter.supports_random_access.
  destruct (supports_random_access_ w).
  - exists (fun _ => e). reflexivity.
  - exists (fun _ => e). reflexivity.
  - rewrite call_with_errno. destruct (call _ s) as [[a s1]|]; [|exists (fun x => x); reflexivity].
    destruct (fails a).
    + exists (fun _ => errno_after a e). reflexivity.
    + rewrite reset_with_errno. exists (fun x => x).
      destruct (call _ (reset_errno s1)) as [[a2 s2]|]; [|reflexivity].
      destruct (fails a2); destruct s2; reflexivity.
Qed.

(** X26. The value [errno] holds when [WriteInternal], [SeekBehindBuffer]
    or [SizeBehindBuffer] is called has no part in what the call returns or
    in the writer it leaves, status included: two streams that differ only in
    that value give the same result and the same writer.  (A failure of
    these methods is reported from the value [errno] holds after the failing
    call, and [errno] is set to 0 before [seekp] and [write]; it is not
    before [tellp], which follows a [seekp], nor in [Initialize], which
    reads it as it finds it.) *)
Theorem results_do_not_depend_on_the_entry_errno (e : Z) (w : OstreamWriter) (s : Stream) :
  (forall src,
     outcome (WriteInternal src w (with_errno e s)) = outcome (WriteInternal src w s))
  /\ (forall new_pos,
        outcome (SeekBehindBuffer new_pos w (with_errno e s))
        = outcome (SeekBehindBuffer new_pos w s))
  /\ outcome (SizeBehindBuffer w (with_errno e s)) = outcome (SizeBehindBuffer w s).
Proof.
  split; [|split].
  - intros src. unfold OstreamWriter.WriteInternal. rewrite WriteMode_errno.
    destruct (WriteMode w s) as [[[[|] w1] s1]|]; [|reflexivity|reflexivity].
    destruct (_ >? _); [reflexivity|].
    destruct (read_mode_ w && ohealthy (set_read_mode false w)); reflexivity.
  - intros new_pos. unfold OstreamWriter.SeekBehindBuffer.
    destruct (supports_random_access_errno e w s) as [e' ->].
    destruct (supports_random_access w s) as [[[[|] w1] s1]|]; [|reflexivity|reflexivity].
    destruct (ohealthy w1); simpl; [|reflexivity].
    rewrite !reset_with_errno. reflexivity.
  - unfold OstreamWriter.SizeBehindBuffer.
    destruct (supports_random_access_errno e w s) as [e' ->].
    destruct (supports_random_access w s) as [[[[|] w1] s1]|]; [|reflexivity|reflexivity].
    destruct (ohealthy w1); simpl; [|reflexivity].
    rewrite !reset_with_errno. reflexivity.
Qed.

(** X28. [Initialize] on a fresh healthy writer.  A stream that has
    already failed fails the writer, with the status made from [errno] as it
    is found, and is not touched.  Otherwise, with an assumed position that
    is a valid stream offset the writer is healthy at exactly that position
    and the stream is not touched; a larger one fails the writer with the
    overflow status; and with none [tellp()] is called once: a negative
    answer leaves the writer as it was, at position 0, and any other answer
    becomes the position, with random access and read mode left to be
    resolved.  So a writer left healthy is at a valid stream offset.  With
    an assumed position random access is off for good: a later
    [SeekBehindBuffer] goes to the failing version of the base class without
    a call on the stream. *)
Theorem Initialize_establishes (assumed_pos : option Z) (w w' : OstreamWriter)
    (s s' : Stream) :
  ohealthy w = true -> start_pos w = 0 ->
  supports_random_access_ w = LazyBoolState.kFalse ->
  (forall p, assumed_pos = Some p -> 0 <= p) ->
  Forall (fun a => value a <= streamoff_max) (pending s) ->
  Initialize ErrnoToCanonicalStatus AnnotateStatus assumed_pos w s = Some (w', s') ->
  (failed s = true ->
   ohealthy w' = false /\ s' = s /\ start_pos w' = 0
   /\ status (object w')
      = AnnotateStatus
          (if errno s =? 0 then mkStatus kUnknown "ostream::ostream() failed"
           else ErrnoToCanonicalStatus (errno s) "ostream::ostream() failed") w)
  /\ (ohealthy w' = true -> failed s = false /\ 0 <= start_pos w' <= streamoff_max)
  /\ (assumed_pos <> None ->
      s' = s
      /\ forall p s2, SeekBehindBuffer p w' s2 = Some (Base_SeekBehindBuffer p w', s2))
  /\ (failed s = false ->
      forall p, assumed_pos = Some p ->
      (p <= streamoff_max ->
       w' = set_start_pos p w /\ start_pos w' = p /\ ohealthy w' = true)
      /\ (streamoff_max < p ->
          ohealthy w' = false /\ start_pos w' = 0
          /\ status (object w')
             = AnnotateStatus (ResourceExhaustedError "Writer position overflow") w))
  /\ (failed s = false -> assumed_pos = None ->
      exists a,
        pending s = a :: pending s' /\ trace s' = trace s ++ [call_tellp]
        /\ (value a < 0 -> w' = w /\ start_pos w' = 0 /\ ohealthy w' = true)
        /\ (0 <= value a ->
            start_pos w' = value a /\ ohealthy w' = true
            /\ supports_random_access_ w' = LazyBoolState.kUnknown
            /\ supports_read_mode_ w' = LazyBoolState.kUnknown
            /\ object w' = object w /\ read_mode_ w' = read_mode_ w)).
Proof.
  intros Hh H0 Hf Ha Ht H. unfold OstreamWriter.Initialize in H.
  assert (Hst : forall st, status (object (snd (Fail AnnotateStatus st w)))
                           = AnnotateStatus st w).
  { intros st. simpl. unfold ohealthy in Hh. rewrite (Fail_healthy _ _ Hh). reflexivity. }
  destruct (failed s) eqn:Hfs.
  { injection H as <- <-.
    split.
    { intros _. split; [apply healthy_Fail|]. split; [reflexivity|].
      split; [exact H0|]. unfold OstreamWriter.FailOperation. apply Hst. }
    split.
    { intros Hh'. unfold ohealthy in Hh'. simpl in Hh'. rewrite healthy_Fail in Hh'.
      discriminate. }
    split.
    { intros _. split; [reflexivity|]. intros p s2.
      unfold OstreamWriter.SeekBehindBuffer, OstreamWriter.supports_random_access.
      simpl. rewrite Hf. reflexivity. }
    split; discriminate. }
  split; [discriminate|].
  destruct assumed_pos as [p|].
  - specialize (Ha p eq_refl).
    destruct (Z.gtb_spec p streamoff_max); injection H as <- <-.
    + split.
      { intros Hh'. unfold ohealthy in Hh'. simpl in Hh'. rewrite healthy_Fail in Hh'.
        discriminate. }
      split.
      { intros _. split; [reflexivity|]. intros q s2.
        unfold OstreamWriter.SeekBehindBuffer, OstreamWriter.supports_random_access.
        simpl. rewrite Hf. reflexivity. }
      split; [|intros _ Hn; discriminate Hn].
      intros _ q Hq. injection Hq as <-. split; [lia|]. intros _.
      split; [apply healthy_Fail|]. split; [exact H0|].
      unfold OstreamWriter.FailOverflow. apply Hst.
    + split.
      { intros _. split; [reflexivity|]. simpl. lia. }
      split.
      { intros _. split; [reflexivity|]. intros q s2.
        unfold OstreamWriter.SeekBehindBuffer, OstreamWriter.supports_random_access.
        simpl. rewrite Hf. reflexivity. }
      split; [|intros _ Hn; discriminate Hn].
      intros _ q Hq. injection Hq as <-. split; [|lia]. intros _.
      split; [reflexivity|]. split; [reflexivity|exact Hh].
  - destruct (call call_tellp s) as [[a s1]|] eqn:Hc; [|discriminate].
    apply call_spec in Hc as (Hp & Htr & _). rewrite Hp in Ht.
    inversion Ht as [|? ? Hv _]; subst.
    split.
    { intros _. split; [reflexivity|].
      destruct (Z.ltb_spec (value a) 0); injection H as <- <-; simpl.
      - rewrite H0. unfold streamoff_max. lia.
      - lia. }
    split; [intros Hne; congruence|].
    split; [intros _ q Hq; discriminate Hq|].
    intros _ _. exists a.
    destruct (Z.ltb_spec (value a) 0); injection H as <- <-.
    + split; [exact Hp|]. split; [exact Htr|]. split; [auto|]. intros; lia.
    + split; [exact Hp|]. split; [exact Htr|]. split; [intros; lia|].
      intros _. simpl. repeat split; try reflexivity. exact Hh.
Qed.

End WithStatus.

Lemma base_seek_fails p w : fst (base_seek p w) = false.
Proof. reflexivity. Qed.

(** [Initialize] reads [errno] as it finds it: over a stream that has
    already failed, the status depends on the value [errno] happens to
    hold. *)
Example Initialize_reads_the_entry_errno :
  option_map (fun r => code (status (object (fst r))))
    (Initialize errno_status ostream_annotate None fresh_ostream_writer
       (mkStream true 13 [] []))
  = Some kPermissionDenied
  /\ option_map (fun r => code (status (object (fst r))))
       (Initialize errno_status ostream_annotate None fresh_ostream_writer
          (with_errno 0 (mkStream true 13 [] [])))
     = Some kUnknown.
Proof. split; reflexivity. Qed.

Lemma base_size_fails w : fst (base_size w) = None.
Proof. reflexivity. Qed.

Lemma ostream_write_hands_over_src_witness :
  0 <= start_pos ostream_writer <= streamoff_max
  /\ exists w' s',
       WriteInternal errno_status ostream_annotate abcde ostream_writer (stream [good])
       = Some (true, w', s')
       /\ written (trace s') = abcde
       /\ start_pos w' = 5.
Proof.
  assert (H : 0 <= start_pos ostream_writer <= streamoff_max)
    by (change (0 <= 0 <= streamoff_max); unfold streamoff_max; lia).
  split; [exact H|]. eexists _, _. split; [reflexivity|].
  destruct (ostream_write_hands_over_src errno_status ostream_annotate abcde
              ostream_writer _ (stream [good]) _ H eq_refl) as (Hd & Hs & _).
  split; [exact Hd|exact Hs].
Defined.

Lemma supports_random_access_is_resolved_once_witness :
  exists w' s',
    supports_random_access errno_status ostream_annotate ostream_writer
      (stream [good; good]) = Some (true, w', s')
    /\ supports_random_access_ w' = LazyBoolState.kTrue
    /\ supports_random_access errno_status ostream_annotate w' (stream [])
       = Some (true, w', stream []).
Proof.
  eexists _, _. split; [reflexivity|].
  destruct (supports_random_access_is_resolved_once errno_status ostream_annotate
              ostream_writer _ (stream [good; good]) _ true eq_refl)
    as (Hf & _ & _ & Hagain).
  split; [exact Hf|exact (Hagain (stream []))].
Defined.

Lemma SeekBehindBuffer_true_witness :
  exists w' s',
    SeekBehindBuffer errno_status ostream_annotate base_seek 3 ostream_writer
      (stream [good; good; good; good_at 10; good]) = Some (true, w', s')
    /\ start_pos w' = 3
    /\ ohealthy w' = true.
Proof.
  eexists _, _. split; [reflexivity|].
  destruct (SeekBehindBuffer_true errno_status ostream_annotate base_seek
              base_seek_fails 3 ostream_writer _
              (stream [good; good; good; good_at 10; good]) _ eq_refl)
    as (Hs & Hh & _).
  split; [exact Hs|exact Hh].
Defined.

Lemma SizeBehindBuffer_restores_the_position_witness :
  exists w' s',
    SizeBehindBuffer errno_status ostream_annotate base_size ostream_writer
      (stream [good; good; good; good_at 10; good]) = Some (Some 10, w', s')
    /\ start_pos w' = start_pos ostream_writer
    /\ (exists tr,
          trace s' = tr ++ [call_seekp 0 end_; call_tellp; call_seekp 0 beg])
    /\ exists pre a_end a_tell a_beg,
         [good; good; good; good_at 10; good]
         = pre ++ [a_end; a_tell; a_beg] ++ pending s'
         /\ 10 = value a_tell.
Proof.
  eexists _, _. split; [reflexivity|].
  destruct (SizeBehindBuffer_restores_the_position errno_status ostream_annotate
              base_size base_size_fails ostream_writer _
              (stream [good; good; good; good_at 10; good]) _ 10 eq_refl)
    as (_ & Hs & _ & _ & Ht & pre & a & a2 & a3 & Hp & Hn & _).
  split; [exact Hs|]. split; [exact Ht|].
  exists pre, a, a2, a3. split; [exact Hp|exact Hn].
Defined.

(** The stream tells its position, 7; a position of 7 is assumed. *)
Lemma Initialize_establishes_witness :
  (ohealthy fresh_ostream_writer = true /\ start_pos fresh_ostream_writer = 0
   /\ supports_random_access_ fresh_ostream_writer = LazyBoolState.kFalse
   /\ Forall (fun a => value a <= streamoff_max) [good_at 7])
  /\ (exists w' s',
        Initialize errno_status ostream_annotate None fresh_ostream_writer
          (stream [good_at 7]) = Some (w', s')
        /\ start_pos w' = 7
        /\ 0 <= start_pos w' <= streamoff_max
        /\ supports_random_access_ w' = LazyBoolState.kUnknown)
  /\ (exists w' s',
        Initialize errno_status ostream_annotate (Some 7) fresh_ostream_writer
          (stream [good_at 9]) = Some (w', s')
        /\ start_pos w' = 7 /\ ohealthy w' = true
        /\ s' = stream [good_at 9]
        /\ supports_random_access_ w' = LazyBoolState.kFalse).
Proof.
  assert (Ht : Forall (fun a => value a <= streamoff_max) [good_at 7]).
  { constructor; [|constructor]. change (7 <= streamoff_max). unfold streamoff_max. lia. }
  assert (Ht9 : Forall (fun a => value a <= streamoff_max) [good_at 9]).
  { constructor; [|constructor]. change (9 <= streamoff_max). unfold streamoff_max. lia. }
  assert (Hn : forall p : Z, @None Z = Some p -> 0 <= p) by (intros p H; discriminate H).
  assert (H7 : forall p : Z, Some 7 = Some p -> 0 <= p)
    by (intros p H; injection H as <-; lia).
  assert (Hle : 7 <= streamoff_max) by (unfold streamoff_max; lia).
  split; [exact (conj eq_refl (conj eq_refl (conj eq_refl Ht)))|].
  split.
  - eexists _, _. split; [reflexivity|].
    destruct (Initialize_establishes errno_status ostream_annotate base_seek None
                fresh_ostream_writer _ (stream [good_at 7]) _
                eq_refl eq_refl eq_refl Hn Ht eq_refl)
      as (_ & Hv & _ & _ & Htell).
    destruct (Htell eq_refl eq_refl) as (a & Hp & _ & _ & Hpos).
    injection Hp as <-.
    destruct Hpos as (Hs & _ & Hr & _); [simpl; lia|].
    split; [exact Hs|]. split; [exact (proj2 (Hv eq_refl))|exact Hr].
  - eexists _, _. split; [reflexivity|].
    destruct (Initialize_establishes errno_status ostream_annotate base_seek (Some 7)
                fresh_ostream_writer _ (stream [good_at 9]) _
                eq_refl eq_refl eq_refl H7 Ht9 eq_refl)
      as (_ & _ & Hsame & Hsome & _).
    destruct (Hsome eq_refl 7 eq_refl) as [Hfit _].
    destruct (Hfit Hle) as (_ & Hs & Hh).
    split; [exact Hs|]. split; [exact Hh|].
    split; [exact (proj1 (Hsame ltac:(discriminate)))|reflexivity].
Defined.

End OstreamWriterSpec.
